(** * Text-to-speech chunking and WAVE merge tools: a shallow embedding

    The development follows the Python sources:
    - [split_text_smart]        (txt_to_wav_large_file.py)
    - [split_text_into_chunks]  (txt_to_mp3_advanced.py)
    - the catalogue sort key used by the three merge tools, and the names
      the converters give to the chunk files
    - [merge_audio_fixed], [merge_wav_files] with the writer of the wave
      library it goes through, and the batch loop of [merge_audio_fast]
    - the pydub concatenation loops of the two conversion pipelines.

    Python [str] values are lists of Unicode code points, [len] counts
    code points, [bytes] values are lists of [Byte.byte]. *)

From Stdlib Require Import ZArith NArith List Lia Bool Strings.Byte String Ascii.
From Stdlib Require Import Sorting.Sorted Sorting.Permutation.
From stdpp Require Import base gmap strings.
Import ListNotations.

Local Open Scope Z_scope.

(* ===================================================================== *)
(** ** Text chunkers *)
(* ===================================================================== *)

Module Chunker.

(** A Python character is a code point. *)
Definition char := N.
Definition text := list char.

Definition LF : char := 0x0A%N.
Definition FULL_STOP_CJK : char := 0x3002%N.      (* 。 *)
Definition EXCLAMATION_CJK : char := 0xFF01%N.    (* ！ *)
Definition QUESTION_CJK : char := 0xFF1F%N.       (* ？ *)
Definition FULL_STOP : char := 0x2E%N.            (* . *)
Definition EXCLAMATION : char := 0x21%N.          (* ! *)
Definition QUESTION : char := 0x3F%N.             (* ? *)

(** The character class [。！？.!?] of both [re.split] patterns, which is
    also the tuple tested by [sentence.endswith]. *)
Definition is_terminator (c : char) : bool :=
  (c =? FULL_STOP_CJK)%N || (c =? EXCLAMATION_CJK)%N || (c =? QUESTION_CJK)%N
  || (c =? FULL_STOP)%N || (c =? EXCLAMATION)%N || (c =? QUESTION)%N.

(** [str.isspace] for one code point: the characters removed by
    [str.strip()] without arguments. *)
Definition isspace (c : char) : bool :=
  ((0x09 <=? c) && (c <=? 0x0D))%N || ((0x1C <=? c) && (c <=? 0x20))%N
  || (c =? 0x85)%N || (c =? 0xA0)%N || (c =? 0x1680)%N
  || ((0x2000 <=? c) && (c <=? 0x200A))%N
  || (c =? 0x2028)%N || (c =? 0x2029)%N || (c =? 0x202F)%N
  || (c =? 0x205F)%N || (c =? 0x3000)%N.

(** [len(s)] *)
Definition len (t : text) : Z := Z.of_nat (length t).

(** Truthiness of a string: [if s:] / [if not s:]. *)
Definition truthy (t : text) : bool :=
  match t with [] => false | _ :: _ => true end.

Fixpoint lstrip (t : text) : text :=
  match t with
  | [] => []
  | c :: t' => if isspace c then lstrip t' else t
  end.

Fixpoint rstrip (t : text) : text :=
  match t with
  | [] => []
  | c :: t' =>
      match rstrip t' with
      | [] => if isspace c then [] else [c]
      | r => c :: r
      end
  end.

(** [s.strip()] *)
Definition strip (t : text) : text := rstrip (lstrip t).

(** Put [c] in front of the first piece of a split. *)
Definition cons_head (c : char) (pieces : list text) : list text :=
  match pieces with
  | [] => [[c]]
  | p :: ps => (c :: p) :: ps
  end.

(** [text.split('\n\n')]: leftmost, non-overlapping occurrences of the
    two-character separator. *)
Fixpoint split_paragraphs (t : text) : list text :=
  match t with
  | [] => [[]]
  | c :: t' =>
      match t' with
      | d :: t'' =>
          if ((c =? LF) && (d =? LF))%N then [] :: split_paragraphs t''
          else cons_head c (split_paragraphs t')
      | [] => [[c]]
      end
  end.

(** [re.split(r'[。！？.!?]', s)]: one cut per terminator character. *)
Fixpoint re_split (t : text) : list text :=
  match t with
  | [] => [[]]
  | c :: t' =>
      if is_terminator c then [] :: re_split t'
      else cons_head c (re_split t')
  end.

(** [s.endswith(('。', '！', '？', '.', '!', '?'))] *)
Definition endswith_terminator (t : text) : bool :=
  match rev t with
  | [] => false
  | c :: _ => is_terminator c
  end.

(** The loop state of both chunkers: [(chunks, current_chunk)]. *)
Definition chunker_state := (list text * text)%type.

(** [if current_chunk: chunks.append(current_chunk.strip())] *)
Definition flush (chunks : list text) (current_chunk : text) : list text :=
  if truthy current_chunk then chunks ++ [strip current_chunk] else chunks.

(** *** split_text_smart (txt_to_wav_large_file.py, lines 25-76) *)

(** Body of [for sentence in sentences:] (lines 45-61). *)
Definition sentence_step (max_chunk_size : Z) (st : chunker_state)
           (sentence : text) : chunker_state :=
  let '(chunks, current_chunk) := st in
  let sentence := strip sentence in
  if negb (truthy sentence) then st
  else
    let sentence :=
      if negb (endswith_terminator sentence)
      then sentence ++ [FULL_STOP_CJK] else sentence in
    if len current_chunk + len sentence <? max_chunk_size
    then (chunks, current_chunk ++ sentence)
    else (flush chunks current_chunk, sentence).

(** Body of [for paragraph in paragraphs:] (lines 35-70). *)
Definition paragraph_step (max_chunk_size : Z) (st : chunker_state)
           (paragraph : text) : chunker_state :=
  let '(chunks, current_chunk) := st in
  let paragraph := strip paragraph in
  if negb (truthy paragraph) then st
  else if len paragraph >? max_chunk_size
  then fold_left (sentence_step max_chunk_size) (re_split paragraph) st
  else if len current_chunk + len paragraph <? max_chunk_size
  then (chunks, current_chunk ++ paragraph ++ [LF])
  else (flush chunks current_chunk, paragraph ++ [LF]).

Definition split_text_smart (t : text) (max_chunk_size : Z) : list text :=
  let '(chunks, current_chunk) :=
    fold_left (paragraph_step max_chunk_size) (split_paragraphs t) ([], []) in
  flush chunks current_chunk.

(** *** split_text_into_chunks (txt_to_mp3_advanced.py, lines 7-35) *)

(** Body of [for sentence in sentences:] (lines 17-29). *)
Definition chunk_step (max_chunk_size : Z) (st : chunker_state)
           (sentence : text) : chunker_state :=
  let '(chunks, current_chunk) := st in
  let sentence := strip sentence in
  if negb (truthy sentence) then st
  else if len current_chunk + len sentence <? max_chunk_size
  then (chunks, current_chunk ++ sentence ++ [FULL_STOP_CJK])
  else (flush chunks current_chunk, sentence ++ [FULL_STOP_CJK]).

Definition split_text_into_chunks (t : text) (max_chunk_size : Z)
  : list text :=
  let '(chunks, current_chunk) :=
    fold_left (chunk_step max_chunk_size) (re_split t) ([], []) in
  flush chunks current_chunk.

(** *** Vocabulary of the chunking claims *)

(** The sentence fragments the accumulation loop of [split_text_smart]
    receives: the stripped, non-empty pieces of every stripped paragraph
    longer than the limit. *)
Definition nonempty_stripped (pieces : list text) : list text :=
  List.filter truthy (map strip pieces).

Definition sentences (t : text) : list text :=
  nonempty_stripped (re_split t).

Definition smart_sentences (t : text) (max_chunk_size : Z) : list text :=
  flat_map sentences
    (List.filter (fun p => len p >? max_chunk_size)
       (nonempty_stripped (split_paragraphs t))).

(** The sentence content of a text: its characters in order, leaving out
    sentence terminators and white space (the only characters either
    chunker removes or inserts). *)
Definition is_content (c : char) : bool :=
  negb (is_terminator c || isspace c).

Definition content (t : text) : text := List.filter is_content t.

(** *** Loop invariants of the chunkers *)

(** A finished unit respects the bound or is one sentence fragment of the
    family [F] with the terminator re-appended. *)
Definition unit_ok (F : text -> Prop) (max_chunk_size : Z) (u : text) : Prop :=
  len u <= max_chunk_size \/ exists f, F f /\ u = f ++ [FULL_STOP_CJK].

(** The accumulator is empty, or respects the bound, or is one short
    paragraph followed by the line feed that [strip] removes again, or is
    one sentence fragment that [strip] leaves alone. *)
Definition current_ok (F : text -> Prop) (max_chunk_size : Z) (cur : text)
  : Prop :=
  cur = [] \/ len cur <= max_chunk_size
  \/ (exists p, cur = p ++ [LF] /\ len p <= max_chunk_size)
  \/ (exists f, F f /\ cur = f ++ [FULL_STOP_CJK] /\ strip cur = cur).

Definition state_ok (F : text -> Prop) (max_chunk_size : Z)
           (st : chunker_state) : Prop :=
  Forall (unit_ok F max_chunk_size) (fst st)
  /\ current_ok F max_chunk_size (snd st).

(** Content carried by a loop state. *)
Definition state_content (st : chunker_state) : text :=
  content (concat (fst st)) ++ content (snd st).

(** A text that [strip] leaves alone and that is not empty starts with a
    character that is not white space. *)
Definition starts_solid (t : text) : Prop :=
  exists c t', t = c :: t' /\ isspace c = false.

Definition terminator_free (t : text) : Prop :=
  Forall (fun c => is_terminator c = false) t.

(** The text [ab. cd!], a blank line, [efghij.k]. *)
Definition example_text : text :=
  [97; 98; 46; 32; 99; 100; 33; 10; 10; 101; 102; 103; 104; 105; 106; 46;
   107]%N.

(** A sentence with the terminator the chunkers append. *)
Definition with_stop (s : text) : text := s ++ [FULL_STOP_CJK].

(** An accumulator of [split_text_into_chunks]: empty, or sentences each
    closed by the appended terminator. *)
Definition closed_chunk (cur : text) : Prop :=
  cur = [] \/ exists x, starts_solid x /\ cur = x ++ [FULL_STOP_CJK].

(** A stripped fragment that reaches the limit once its terminator is
    re-appended. *)
Definition oversized (max_chunk_size : Z) (f : text) : Prop :=
  starts_solid f /\ max_chunk_size <= len (f ++ [FULL_STOP_CJK]).

(** Every fragment of the family [P] is a finished unit or is the
    accumulator itself. *)
Definition emitted (P : text -> Prop) (st : chunker_state) : Prop :=
  forall f, P f ->
    In (f ++ [FULL_STOP_CJK]) (fst st) \/ snd st = f ++ [FULL_STOP_CJK].

End Chunker.

(* ===================================================================== *)
(** ** Chunk catalogue: the sort key of the merge tools *)
(* ===================================================================== *)

Module Catalog.

Local Open Scope string_scope.

(** File names and paths are byte strings here; the names the tools
    generate ([chunk_{i:04d}.wav]) are ASCII. *)

Definition push_front (c : ascii) (pieces : list string) : list string :=
  match pieces with
  | [] => [String c ""]
  | p :: ps => String c p :: ps
  end.

(** [s.split(sep)] for a one-character separator. *)
Fixpoint split (sep : ascii) (s : string) : list string :=
  match s with
  | "" => [""]
  | String c s' =>
      if Ascii.eqb c sep then "" :: split sep s'
      else push_front c (split sep s')
  end.

(** [os.path.basename(p)] (posixpath): what follows the last slash, that
    is the last piece of [p.split('/')]. *)
Definition basename (p : string) : string :=
  List.last (split "/" p) "".

(** White space accepted around the literal by [int(s)]: the characters
    tab to carriage return and the space.  (The separators 0x1C-0x1F,
    which [str.strip] removes, make [int] raise.) *)
Definition is_space (c : ascii) : bool :=
  let n := N_of_ascii c in
  (((9 <=? n) && (n <=? 13)) || (n =? 32))%N.

Fixpoint skip_spaces (s : string) : string :=
  match s with
  | "" => ""
  | String c s' => if is_space c then skip_spaces s' else s
  end.

Fixpoint drop_trailing_spaces (s : string) : string :=
  match s with
  | "" => ""
  | String c s' =>
      match drop_trailing_spaces s' with
      | "" => if is_space c then "" else String c ""
      | r => String c r
      end
  end.

Definition digit_value (c : ascii) : option Z :=
  let n := Z.of_N (N_of_ascii c) in
  if ((48 <=? n) && (n <=? 57))%Z then Some (n - 48)%Z else None.

Fixpoint parse_digits (acc : Z) (s : string) : option Z :=
  match s with
  | "" => Some acc
  | String c s' =>
      match digit_value c with
      | Some d => parse_digits (10 * acc + d)%Z s'
      | None => None
      end
  end.

Definition parse_nonempty_digits (s : string) : option Z :=
  match s with
  | "" => None
  | _ => parse_digits 0%Z s
  end.

(** [int(s)] on a byte string: optional surrounding white space, an
    optional sign and a non-empty run of ASCII decimal digits; [None]
    stands for [ValueError].  (Python also accepts single underscores
    between digits, non-ASCII decimal digits and non-ASCII white space
    around the literal; the key below is cut out
    of a file name at ['_'] and ['.'], and the generated names are ASCII.
    The limit on the number of digits of recent Python versions is far
    above the length of a file name.) *)
Definition py_int (s : string) : option Z :=
  match drop_trailing_spaces (skip_spaces s) with
  | "" => None
  | String c r as body =>
      if Ascii.eqb c "+" then parse_nonempty_digits r
      else if Ascii.eqb c "-" then option_map Z.opp (parse_nonempty_digits r)
      else parse_nonempty_digits body
  end.

(** The key function
    [lambda x: int(os.path.basename(x).split('_')[1].split('.')[0])];
    [None] stands for the exception it raises ([IndexError] when the base
    name has no underscore, [ValueError] when the piece is not a number). *)
Definition sort_key (x : string) : option Z :=
  match nth_error (split "_" (basename x)) 1 with
  | None => None
  | Some piece =>
      match split "." piece with
      | [] => None
      | number :: _ => py_int number
      end
  end.

(** [list.sort(key=...)] first computes the key of every element, then
    sorts by key; the sort is stable. *)
Fixpoint decorate (l : list string) : option (list (Z * string)) :=
  match l with
  | [] => Some []
  | x :: l' =>
      match sort_key x with
      | None => None
      | Some k =>
          match decorate l' with
          | None => None
          | Some d => Some ((k, x) :: d)
          end
      end
  end.

Fixpoint insert_keyed (kx : Z * string) (l : list (Z * string))
  : list (Z * string) :=
  match l with
  | [] => [kx]
  | ky :: l' =>
      if (fst kx <=? fst ky)%Z then kx :: l else ky :: insert_keyed kx l'
  end.

Fixpoint sort_keyed (l : list (Z * string)) : list (Z * string) :=
  match l with
  | [] => []
  | kx :: l' => insert_keyed kx (sort_keyed l')
  end.

(** [wav_files.sort(key=...)]: the sorted list, or [None] when a key
    raises. *)
Definition sort_files (wav_files : list string) : option (list string) :=
  option_map (fun d => map snd (sort_keyed d)) (decorate wav_files).

(** *** Vocabulary of the ordering claim *)

Definition is_digit (c : ascii) : bool :=
  match digit_value c with Some _ => true | None => false end.

Fixpoint all_digits (s : string) : bool :=
  match s with
  | "" => true
  | String c s' => is_digit c && all_digits s'
  end.

(** A non-empty run of decimal digits, zero-padded or not. *)
Definition is_number (s : string) : Prop :=
  s <> "" /\ all_digits s = true.

(** The integer a run of decimal digits denotes. *)
Definition decimal (s : string) : Z :=
  fold_left (fun acc c => 10 * acc + (Z.of_N (N_of_ascii c) - 48))%Z
            (list_ascii_of_string s) 0%Z.

(** The path [<folder>/chunk_<N>.wav]. *)
Definition chunk_path (folder number : string) : string :=
  folder ++ "/chunk_" ++ number ++ ".wav".

(** Order of decorated entries: by key. *)
Definition key_le (a b : Z * string) : Prop := (fst a <= fst b)%Z.

(** The decoration of a generated chunk path. *)
Definition keyed_chunk (folder number : string) : Z * string :=
  (decimal number, chunk_path folder number).

Fixpoint avoids (sep : ascii) (s : string) : bool :=
  match s with
  | "" => true
  | String c s' => negb (Ascii.eqb c sep) && avoids sep s'
  end.

End Catalog.

(* ===================================================================== *)
(** ** WAVE files, the output handle and the merge tools *)
(* ===================================================================== *)

Module Merge.

Import Catalog.

(** *** Data *)

(** The named tuple returned by [Wave_read.getparams()]:
    [(nchannels, sampwidth, framerate, nframes, comptype, compname)]. *)
Record wave_params := {
  nchannels : Z;
  sampwidth : Z;
  framerate : Z;
  nframes : Z;
  comptype : string;
  compname : string
}.

(** [params[:4]]: the slice compared by the merge tools. *)
Definition first4 (p : wave_params) : Z * Z * Z * Z :=
  (nchannels p, sampwidth p, framerate p, nframes p).

Definition first4_eqb (a b : Z * Z * Z * Z) : bool :=
  let '(a1, a2, a3, a4) := a in
  let '(b1, b2, b3, b4) := b in
  (a1 =? b1) && (a2 =? b2) && (a3 =? b3) && (a4 =? b4).

(** What [wave.open(path, 'rb')] makes of a chunk file: it raises (the
    text of the exception is kept), or it gives a reader with its
    parameters and the bytes [readframes(getnframes())] returns. *)
Inductive chunk_file :=
| Unreadable (e : string)
| Readable (params : wave_params) (frames : list byte).

(** The part of the disk the tools read.  The chunk files are not
    written by the tools: the output name never matches
    [temp_audio_chunks/chunk_*.wav]. *)
Record disk := {
  path_exists : string -> bool;          (* os.path.exists(path) *)
  glob_chunks : string -> list string;   (* glob.glob(folder/chunk_*.wav) *)
  wave_open : string -> chunk_file       (* wave.open(path, 'rb') *)
}.

(** A file written by a tool, as its bytes. *)
Inductive written_file :=
| Raw (bytes : list byte).

Inductive message :=
| MsgNoFolder                          (* 错误：找不到 temp_audio_chunks 文件夹 *)
| MsgNoChunks                          (* 错误：没有找到音频块文件 *)
| MsgFound (count : nat)               (* 找到 {len(wav_files)} 个音频文件 *)
| MsgParams (channels rate : Z)        (* 音频参数: {nchannels}声道, {framerate}Hz *)
| MsgBatch (number total size : nat)   (* 处理批次 {batch_num + 1}/{total_batches} ({len(batch_files)} 个文件) *)
| MsgProcessing (index count : nat)    (* 正在处理: {i+1}/{len(wav_files)} *)
| MsgSkipMismatch (name : string)      (* 跳过参数不匹配的文件: {name} / 警告: {name} 的音频参数不一致，跳过 *)
| MsgSkipCorrupt (name : string) (e : string)
                                       (* 跳过损坏文件: {name} - {e} / 处理 {name} 时出错: {e} *)
| MsgSkipped (name : string)           (* 跳过损坏文件: {name} *)
| MsgProgress (finished total : nat)   (* 进度: {(batch_num + 1) / total_batches * 100:.1f}% *)
| MsgDone (output : string)            (* ✓ 合并完成！ ... 输出文件: {output_file} *)
| MsgDuration (frames rate : Z)        (* 音频时长: HH:MM:SS of frames / rate *)
| MsgError (e : string).               (* 合并过程中出现错误: {e} *)

(** What the tools leave behind: the files they wrote and what they
    printed (prints that carry no data are left out). *)
Record world := {
  files : gmap string written_file;
  stdout : list message
}.

Definition print (m : message) (w : world) : world :=
  {| files := files w; stdout := stdout w ++ [m] |}.

(** *** struct.pack *)

Definition byte_of_Z (z : Z) : byte :=
  match Byte.of_N (Z.to_N (z mod 256)) with
  | Some b => b
  | None => x00
  end.

Definition Z_of_byte (b : byte) : Z := Z.of_N (Byte.to_N b).

Definition le16 (v : Z) : list byte :=
  [byte_of_Z v; byte_of_Z (v / 256)].

Definition le32 (v : Z) : list byte :=
  [byte_of_Z v; byte_of_Z (v / 256); byte_of_Z (v / 65536);
   byte_of_Z (v / 16777216)].

(** [struct.unpack('<L', b)[0]] of four bytes. *)
Definition unpack_L (b : list byte) : Z :=
  match b with
  | [b0; b1; b2; b3] =>
      Z_of_byte b0 + 256 * Z_of_byte b1 + 65536 * Z_of_byte b2
      + 16777216 * Z_of_byte b3
  | _ => 0
  end.

(** The bytes of an ASCII literal such as [b'RIFF']. *)
Definition ascii_bytes (s : string) : list byte := list_byte_of_string s.

(** *** The output file handle *)

Record handle := {
  content : list byte;
  position : nat
}.

Definition opened : handle := {| content := []; position := 0 |}.

(** [f.write(data)]: overwrite from the current position, extending the
    file (a gap left by a seek past the end reads as zero bytes). *)
Definition handle_write (data : list byte) (h : handle) : handle :=
  {| content :=
       firstn (position h) (content h)
       ++ repeat x00 (position h - length (content h))
       ++ data
       ++ skipn (position h + length data) (content h);
     position := position h + length data |}.

Definition handle_seek (offset : nat) (h : handle) : handle :=
  {| content := content h; position := offset |}.

(** *** A monad for the body of the [with open(...)] block *)

Inductive exn :=
| WaveOpenError (text : string)   (* raised by wave.open *)
| WaveError (text : string)       (* wave.Error raised by a Wave_write *)
| StructError                     (* struct.error: argument out of range *)
| IndexError                      (* list index out of range *)
| ValueError.                     (* invalid literal for int() *)

Definition exn_text (e : exn) : string :=
  match e with
  | WaveOpenError text => text
  | WaveError text => text
  | StructError => "argument out of range"
  | IndexError => "list index out of range"
  | ValueError => "invalid literal for int() with base 10"
  end.

(** The mutable locals of [merge_audio_fixed] inside the block. *)
Record state := {
  out : handle;          (* output_file_handle *)
  total_frames : Z;
  log : list message     (* printed so far *)
}.

Inductive result (A : Type) :=
| Ok (a : A)
| Raise (e : exn).
Arguments Ok {A} a.
Arguments Raise {A} e.

Definition M (A : Type) : Type := state -> result A * state.

Definition ret {A} (a : A) : M A := fun s => (Ok a, s).

Definition bind {A B} (m : M A) (k : A -> M B) : M B :=
  fun s => match m s with
           | (Ok a, s') => k a s'
           | (Raise e, s') => (Raise e, s')
           end.

Definition raise {A} (e : exn) : M A := fun s => (Raise e, s).

(** [try: m except Exception as e: handler(e)] *)
Definition try_except {A} (m : M A) (handler : exn -> M A) : M A :=
  fun s => match m s with
           | (Ok a, s') => (Ok a, s')
           | (Raise e, s') => handler e s'
           end.

Notation "'let*' x := m 'in' k" := (bind m (fun x => k))
  (at level 10, x name, m at level 200, k at level 200).

Fixpoint for_each {A} (l : list A) (body : A -> M unit) : M unit :=
  match l with
  | [] => ret tt
  | x :: l' => let* _ := body x in for_each l' body
  end.

Definition write (data : list byte) : M unit :=
  fun s => (Ok tt, {| out := handle_write data (out s);
                      total_frames := total_frames s; log := log s |}).

Definition seek (offset : nat) : M unit :=
  fun s => (Ok tt, {| out := handle_seek offset (out s);
                      total_frames := total_frames s; log := log s |}).

Definition tell : M nat := fun s => (Ok (position (out s)), s).

Definition say (m : message) : M unit :=
  fun s => (Ok tt, {| out := out s; total_frames := total_frames s;
                      log := log s ++ [m] |}).

Definition add_frames (n : Z) : M unit :=
  fun s => (Ok tt, {| out := out s; total_frames := total_frames s + n;
                      log := log s |}).

(** [struct.pack('<L', v)] and [struct.pack('<H', v)] *)
Definition pack_L (v : Z) : M (list byte) :=
  if (0 <=? v) && (v <? 4294967296) then ret (le32 v) else raise StructError.

Definition pack_H (v : Z) : M (list byte) :=
  if (0 <=? v) && (v <? 65536) then ret (le16 v) else raise StructError.

(** [with wave.open(path, 'rb') as input_wav:] *)
Definition open_wave (d : disk) (path : string)
  : M (wave_params * list byte) :=
  match wave_open d path with
  | Unreadable e => raise (WaveOpenError e)
  | Readable params frames => ret (params, frames)
  end.

(** [wav_files[start:end]] *)
Definition slice {A} (l : list A) (start stop : nat) : list A :=
  firstn (stop - start) (skipn start l).

(** *** merge_audio_fixed (修复合并工具.py) *)

(** Body of [for i, wav_file in enumerate(batch_files):] (lines 93-108). *)
Definition process_chunk (d : disk) (params : wave_params)
           (wav_file : string) : M unit :=
  try_except
    (let* r := open_wave d wav_file in
     let '(input_params, frames) := r in
     if negb (first4_eqb (first4 input_params) (first4 params))
     then say (MsgSkipMismatch (basename wav_file))
     else
       let* _ := write frames in
       add_frames (nframes input_params))
    (fun e => say (MsgSkipCorrupt (basename wav_file) (exn_text e))).

(** [(len(wav_files) + batch_size - 1) // batch_size], for the positive
    batch sizes of the tools. *)
Definition batch_count (files_count batch_size : nat) : nat :=
  (files_count + batch_size - 1) / batch_size.

(** The batch loop (lines 83-112). *)
Definition process_batches (d : disk) (params : wave_params)
           (wav_files : list string) (batch_size : nat) : M unit :=
  let total_batches := batch_count (length wav_files) batch_size in
  for_each (seq 0 total_batches) (fun batch_num =>
    let start_idx := (batch_num * batch_size)%nat in
    let end_idx := Nat.min (start_idx + batch_size) (length wav_files) in
    let batch_files := slice wav_files start_idx end_idx in
    let* _ := say (MsgBatch (batch_num + 1) total_batches
                            (length batch_files)) in
    let* _ := for_each batch_files (process_chunk d params) in
    say (MsgProgress (batch_num + 1) total_batches)).

(** The header with its two placeholders (lines 58-79); returns
    [(data_size_pos, data_start_pos)]. *)
Definition write_header (params : wave_params) : M (nat * nat) :=
  let* _ := write (ascii_bytes "RIFF") in
  let* b := pack_L 0 in
  let* _ := write b in
  let* _ := write (ascii_bytes "WAVE") in
  let* _ := write (ascii_bytes "fmt ") in
  let* b := pack_L 16 in
  let* _ := write b in
  let* b := pack_H 1 in
  let* _ := write b in
  let* b := pack_H (nchannels params) in
  let* _ := write b in
  let* b := pack_L (framerate params) in
  let* _ := write b in
  let* b :=
    pack_L (framerate params * nchannels params * sampwidth params) in
  let* _ := write b in
  let* b := pack_H (nchannels params * sampwidth params) in
  let* _ := write b in
  let* b := pack_H (sampwidth params * 8) in
  let* _ := write b in
  let* _ := write (ascii_bytes "data") in
  let* data_size_pos := tell in
  let* b := pack_L 0 in
  let* _ := write b in
  let* data_start_pos := tell in
  ret (data_size_pos, data_start_pos).

(** The update of the two size fields (lines 114-125). *)
Definition patch_sizes (data_size_pos data_start_pos : nat) : M unit :=
  let* current_pos := tell in
  let data_size := Z.of_nat current_pos - Z.of_nat data_start_pos in
  let file_size := Z.of_nat current_pos - 8 in
  let* _ := seek 4 in
  let* b := pack_L file_size in
  let* _ := write b in
  let* _ := seek data_size_pos in
  let* b := pack_L data_size in
  write b.

(** Body of [with open(output_file, 'wb') as output_file_handle:]
    (lines 57-125). *)
Definition merge_block (d : disk) (params : wave_params)
           (wav_files : list string) (batch_size : nat) : M unit :=
  let* positions := write_header params in
  let* _ := process_batches d params wav_files batch_size in
  patch_sizes (fst positions) (snd positions).

(** The report of the audio duration (lines 141-148): the division by
    [float(params.framerate)] raises for a zero rate, and the bare
    [except] then prints nothing. *)
Definition report_duration (frames rate : Z) (w : world) : world :=
  if rate =? 0 then w else print (MsgDuration frames rate) w.

(** How a run of [merge_audio_fixed] ends. *)
Inductive outcome :=
| NoFolder                        (* return at line 25 *)
| NoChunkFiles                    (* return at line 34 *)
| Crashed                         (* the sort key raised, outside the try *)
| Failed (e : exn)                (* the handler at lines 169-171 *)
| Completed (total_frames : Z).   (* line 130 reached *)

(** [merge_audio_fixed], with the output name and the batch size as
    parameters.  The run is followed up to the report of the duration;
    the question about deleting the chunk files is left out. *)
Definition merge_audio_fixed_to (output_file : string) (batch_size : nat)
           (d : disk) (w : world) : outcome * world :=
  if negb (path_exists d "temp_audio_chunks")
  then (NoFolder, print MsgNoFolder w)
  else
    match glob_chunks d "temp_audio_chunks" with
    | [] => (NoChunkFiles, print MsgNoChunks w)
    | found =>
        match sort_files found with
        | None => (Crashed, w)
        | Some wav_files =>
            let w := print (MsgFound (length wav_files)) w in
            match nth_error wav_files 0 with
            | None =>
                (Failed IndexError, print (MsgError (exn_text IndexError)) w)
            | Some first_file =>
                match wave_open d first_file with
                | Unreadable e =>
                    (Failed (WaveOpenError e), print (MsgError e) w)
                | Readable params _ =>
                    let w :=
                      print (MsgParams (nchannels params) (framerate params))
                            w in
                    let '(r, s) :=
                      merge_block d params wav_files batch_size
                        {| out := opened; total_frames := 0;
                           log := stdout w |} in
                    let w :=
                      {| files := <[output_file := Raw (content (out s))]>
                                    (files w);
                         stdout := log s |} in
                    match r with
                    | Raise e =>
                        (Failed e, print (MsgError (exn_text e)) w)
                    | Ok _ =>
                        (Completed (total_frames s),
                         report_duration (total_frames s) (framerate params)
                           (print (MsgDone output_file) w))
                    end
                end
            end
        end
    end.

Definition merge_audio_fixed : disk -> world -> outcome * world :=
  merge_audio_fixed_to "镇国驸马爷-完整音频.wav" 100.

(** *** The writer of the [wave] library

    [merge_wav_files] writes its output through [wave.open(.., 'wb')].
    The class [Wave_write] of the standard library is followed here as
    far as the tool uses it: [setparams], [writeframes] and [close]
    (called when the [with] block is left). *)

Record wave_write := {
  file : handle;               (* self._file *)
  w_nchannels : Z;             (* self._nchannels *)
  w_sampwidth : Z;             (* self._sampwidth *)
  w_framerate : Z;             (* self._framerate *)
  w_nframes : Z;               (* self._nframes *)
  datawritten : Z;             (* self._datawritten *)
  datalength : Z;              (* self._datalength *)
  headerwritten : bool;        (* self._headerwritten *)
  form_length_pos : nat;       (* self._form_length_pos *)
  data_length_pos : nat        (* self._data_length_pos *)
}.

(** [initfp] on the file just created by [open(output_file, 'wb')]. *)
Definition initfp : wave_write :=
  {| file := opened; w_nchannels := 0; w_sampwidth := 0; w_framerate := 0;
     w_nframes := 0; datawritten := 0; datalength := 0;
     headerwritten := false; form_length_pos := 0; data_length_pos := 0 |}.

Definition W (A : Type) : Type := wave_write -> result A * wave_write.

Definition w_ret {A} (a : A) : W A := fun o => (Ok a, o).

Definition w_raise {A} (e : exn) : W A := fun o => (Raise e, o).

Definition w_bind {A B} (m : W A) (k : A -> W B) : W B :=
  fun o => match m o with
           | (Ok a, o') => k a o'
           | (Raise e, o') => (Raise e, o')
           end.

Notation "'do*' x := m 'in' k" := (w_bind m (fun x => k))
  (at level 10, x name, m at level 200, k at level 200).

Definition set_file (h : handle) (o : wave_write) : wave_write :=
  {| file := h; w_nchannels := w_nchannels o; w_sampwidth := w_sampwidth o;
     w_framerate := w_framerate o; w_nframes := w_nframes o;
     datawritten := datawritten o; datalength := datalength o;
     headerwritten := headerwritten o;
     form_length_pos := form_length_pos o;
     data_length_pos := data_length_pos o |}.

(** [self._file.write(data)], [self._file.seek(pos, 0)],
    [self._file.tell()] *)
Definition file_write (data : list byte) : W unit :=
  fun o => (Ok tt, set_file (handle_write data (file o)) o).

Definition file_seek (offset : nat) : W unit :=
  fun o => (Ok tt, set_file (handle_seek offset (file o)) o).

Definition file_tell : W nat := fun o => (Ok (position (file o)), o).

(** The check at the head of every setter. *)
Definition check_not_started : W unit :=
  fun o =>
    if datawritten o =? 0 then (Ok tt, o)
    else (Raise (WaveError "cannot change parameters after starting to write"),
          o).

Definition setnchannels (n : Z) : W unit :=
  do* _ := check_not_started in
  if n <? 1 then w_raise (WaveError "bad # of channels")
  else fun o =>
    (Ok tt,
     {| file := file o; w_nchannels := n; w_sampwidth := w_sampwidth o;
        w_framerate := w_framerate o; w_nframes := w_nframes o;
        datawritten := datawritten o; datalength := datalength o;
        headerwritten := headerwritten o;
        form_length_pos := form_length_pos o;
        data_length_pos := data_length_pos o |}).

Definition setsampwidth (n : Z) : W unit :=
  do* _ := check_not_started in
  if (n <? 1) || (4 <? n) then w_raise (WaveError "bad sample width")
  else fun o =>
    (Ok tt,
     {| file := file o; w_nchannels := w_nchannels o; w_sampwidth := n;
        w_framerate := w_framerate o; w_nframes := w_nframes o;
        datawritten := datawritten o; datalength := datalength o;
        headerwritten := headerwritten o;
        form_length_pos := form_length_pos o;
        data_length_pos := data_length_pos o |}).

Definition setframerate (n : Z) : W unit :=
  do* _ := check_not_started in
  if n <=? 0 then w_raise (WaveError "bad frame rate")
  else fun o =>
    (Ok tt,
     {| file := file o; w_nchannels := w_nchannels o;
        w_sampwidth := w_sampwidth o; w_framerate := n;
        w_nframes := w_nframes o;
        datawritten := datawritten o; datalength := datalength o;
        headerwritten := headerwritten o;
        form_length_pos := form_length_pos o;
        data_length_pos := data_length_pos o |}).

Definition setnframes (n : Z) : W unit :=
  do* _ := check_not_started in
  fun o =>
    (Ok tt,
     {| file := file o; w_nchannels := w_nchannels o;
        w_sampwidth := w_sampwidth o; w_framerate := w_framerate o;
        w_nframes := n;
        datawritten := datawritten o; datalength := datalength o;
        headerwritten := headerwritten o;
        form_length_pos := form_length_pos o;
        data_length_pos := data_length_pos o |}).

(** The compression type is checked and otherwise only kept for
    [getparams]. *)
Definition setcomptype (comptype : string) : W unit :=
  do* _ := check_not_started in
  if String.eqb comptype "NONE" then w_ret tt
  else w_raise (WaveError "unsupported compression type").

(** [output_wav.setparams(params)] *)
Definition setparams (params : wave_params) : W unit :=
  do* _ := check_not_started in
  do* _ := setnchannels (nchannels params) in
  do* _ := setsampwidth (sampwidth params) in
  do* _ := setframerate (framerate params) in
  do* _ := setnframes (nframes params) in
  setcomptype (comptype params).

Definition fits_H (v : Z) : bool := (0 <=? v) && (v <? 65536).

Definition fits_L (v : Z) : bool := (0 <=? v) && (v <? 4294967296).

(** [struct.pack('<L', v)] in the writer. *)
Definition w_pack_L (v : Z) : W (list byte) :=
  if fits_L v then w_ret (le32 v) else w_raise StructError.

(** [struct.pack('<L4s4sLHHLLHH4s', 36 + datalength, b'WAVE', b'fmt ',
    16, 1, nchannels, framerate, nchannels * framerate * sampwidth,
    nchannels * sampwidth, sampwidth * 8, b'data')]: one call, which
    raises when any of the numbers is out of range. *)
Definition pack_form (o : wave_write) : W (list byte) :=
  let byte_rate := w_nchannels o * w_framerate o * w_sampwidth o in
  let block_align := w_nchannels o * w_sampwidth o in
  let bits := w_sampwidth o * 8 in
  if fits_L (36 + datalength o) && fits_H (w_nchannels o)
     && fits_L (w_framerate o) && fits_L byte_rate && fits_H block_align
     && fits_H bits
  then w_ret (le32 (36 + datalength o) ++ ascii_bytes "WAVE"
              ++ ascii_bytes "fmt " ++ le32 16 ++ le16 1
              ++ le16 (w_nchannels o) ++ le32 (w_framerate o)
              ++ le32 byte_rate ++ le16 block_align ++ le16 bits
              ++ ascii_bytes "data")
  else w_raise StructError.

(** [_write_header(initlength)] *)
Definition write_wave_header (initlength : Z) : W unit :=
  do* _ := file_write (ascii_bytes "RIFF") in
  do* _ := (fun o =>
    let frames :=
      if w_nframes o =? 0
      then initlength / (w_nchannels o * w_sampwidth o)
      else w_nframes o in
    (Ok tt,
     {| file := file o; w_nchannels := w_nchannels o;
        w_sampwidth := w_sampwidth o; w_framerate := w_framerate o;
        w_nframes := frames;
        datawritten := datawritten o;
        datalength := frames * w_nchannels o * w_sampwidth o;
        headerwritten := headerwritten o;
        form_length_pos := form_length_pos o;
        data_length_pos := data_length_pos o |})) in
  do* pos := file_tell in
  do* _ := (fun o =>
    (Ok tt,
     {| file := file o; w_nchannels := w_nchannels o;
        w_sampwidth := w_sampwidth o; w_framerate := w_framerate o;
        w_nframes := w_nframes o;
        datawritten := datawritten o; datalength := datalength o;
        headerwritten := headerwritten o;
        form_length_pos := pos;
        data_length_pos := data_length_pos o |})) in
  do* form := (fun o => pack_form o o) in
  do* _ := file_write form in
  do* pos := file_tell in
  do* _ := (fun o =>
    (Ok tt,
     {| file := file o; w_nchannels := w_nchannels o;
        w_sampwidth := w_sampwidth o; w_framerate := w_framerate o;
        w_nframes := w_nframes o;
        datawritten := datawritten o; datalength := datalength o;
        headerwritten := headerwritten o;
        form_length_pos := form_length_pos o;
        data_length_pos := pos |})) in
  do* size := (fun o => w_pack_L (datalength o) o) in
  do* _ := file_write size in
  fun o =>
    (Ok tt,
     {| file := file o; w_nchannels := w_nchannels o;
        w_sampwidth := w_sampwidth o; w_framerate := w_framerate o;
        w_nframes := w_nframes o;
        datawritten := datawritten o; datalength := datalength o;
        headerwritten := true;
        form_length_pos := form_length_pos o;
        data_length_pos := data_length_pos o |}).

(** [_ensure_header_written(datasize)] *)
Definition ensure_header_written (datasize : Z) : W unit :=
  fun o =>
    if headerwritten o then (Ok tt, o)
    else if w_nchannels o =? 0
    then (Raise (WaveError "# channels not specified"), o)
    else if w_sampwidth o =? 0
    then (Raise (WaveError "sample width not specified"), o)
    else if w_framerate o =? 0
    then (Raise (WaveError "sampling rate not specified"), o)
    else write_wave_header datasize o.

(** [_patchheader()] *)
Definition patchheader : W unit :=
  fun o =>
    if datawritten o =? datalength o then (Ok tt, o)
    else
      (do* curpos := file_tell in
       do* _ := file_seek (form_length_pos o) in
       do* b := w_pack_L (36 + datawritten o) in
       do* _ := file_write b in
       do* _ := file_seek (data_length_pos o) in
       do* b := w_pack_L (datawritten o) in
       do* _ := file_write b in
       do* _ := file_seek curpos in
       fun o =>
         (Ok tt,
          {| file := file o; w_nchannels := w_nchannels o;
             w_sampwidth := w_sampwidth o; w_framerate := w_framerate o;
             w_nframes := w_nframes o;
             datawritten := datawritten o; datalength := datawritten o;
             headerwritten := headerwritten o;
             form_length_pos := form_length_pos o;
             data_length_pos := data_length_pos o |})) o.

(** [writeframesraw(data)] on a little-endian machine; the count of
    frames written, which only [tell] reports, is left out. *)
Definition writeframesraw (data : list byte) : W unit :=
  do* _ := ensure_header_written (Z.of_nat (length data)) in
  do* _ := file_write data in
  fun o =>
    (Ok tt,
     {| file := file o; w_nchannels := w_nchannels o;
        w_sampwidth := w_sampwidth o; w_framerate := w_framerate o;
        w_nframes := w_nframes o;
        datawritten := datawritten o + Z.of_nat (length data);
        datalength := datalength o;
        headerwritten := headerwritten o;
        form_length_pos := form_length_pos o;
        data_length_pos := data_length_pos o |}).

(** [output_wav.writeframes(frames)] *)
Definition writeframes (data : list byte) : W unit :=
  do* _ := writeframesraw data in
  fun o =>
    if datalength o =? datawritten o then (Ok tt, o) else patchheader o.

(** [close()], called by [__exit__]. *)
Definition close : W unit :=
  do* _ := ensure_header_written 0 in
  fun o =>
    if datalength o =? datawritten o then (Ok tt, o) else patchheader o.

(** *** merge_wav_files (合并音频块.py) *)

(** Body of [for i, wav_file in enumerate(wav_files):] (lines 43-60); the
    state is the writer and the prints. *)
Definition copy_chunk (d : disk) (params : wave_params) (count : nat)
           (st : wave_write * list message) (item : nat * string)
  : wave_write * list message :=
  let '(i, wav_file) := item in
  let '(output_wav, printed) := st in
  let printed :=
    if (i mod 100 =? 0)%nat
    then printed ++ [MsgProcessing (i + 1) count] else printed in
  match wave_open d wav_file with
  | Unreadable e => (output_wav, printed ++ [MsgSkipCorrupt wav_file e])
  | Readable input_params frames =>
      if negb (first4_eqb (first4 input_params) (first4 params))
      then (output_wav, printed ++ [MsgSkipMismatch wav_file])
      else
        match writeframes frames output_wav with
        | (Ok _, output_wav) => (output_wav, printed)
        | (Raise e, output_wav) =>
            (output_wav, printed ++ [MsgSkipCorrupt wav_file (exn_text e)])
        end
  end.

(** [enumerate(l)] *)
Definition enumerate {A} (l : list A) : list (nat * A) :=
  combine (seq 0 (length l)) l.

(** The frame count and the frame rate [wave.open(output_file, 'rb')]
    reads back from a file the writer closed without an exception: the
    size of the data chunk divided by the size of a frame, and the rate
    of the header. *)
Definition written_nframes (o : wave_write) : Z :=
  datawritten o / (w_nchannels o * w_sampwidth o).

(** [merge_wav_files(input_folder, output_file)]; [None] stands for an
    exception of the sort key, [Some b] for the returned boolean.  An
    exception raised when the [with] block of the writer is left takes
    the place of the one that made the block end. *)
Definition merge_wav_files (input_folder output_file : string)
           (d : disk) (w : world) : option bool * world :=
  match glob_chunks d input_folder with
  | [] => (Some false, print MsgNoChunks w)
  | found =>
      match sort_files found with
      | None => (None, w)
      | Some wav_files =>
          let w := print (MsgFound (length wav_files)) w in
          match nth_error wav_files 0 with
          | None => (Some false, print (MsgError (exn_text IndexError)) w)
          | Some first_file =>
              match wave_open d first_file with
              | Unreadable e => (Some false, print (MsgError e) w)
              | Readable params _ =>
                  let w :=
                    print (MsgParams (nchannels params) (framerate params))
                          w in
                  let '(body, output_wav, printed) :=
                    match setparams params initfp with
                    | (Raise e, output_wav) =>
                        (Raise e, output_wav, stdout w)
                    | (Ok _, output_wav) =>
                        let '(output_wav, printed) :=
                          fold_left (copy_chunk d params (length wav_files))
                                    (enumerate wav_files)
                                    (output_wav, stdout w) in
                        (Ok tt, output_wav, printed)
                    end in
                  let '(closed, output_wav) := close output_wav in
                  let w :=
                    {| files := <[output_file :=
                                    Raw (content (file output_wav))]>
                                  (files w);
                       stdout := printed |} in
                  match closed, body with
                  | Raise e, _ | Ok _, Raise e =>
                      (Some false, print (MsgError (exn_text e)) w)
                  | Ok _, Ok _ =>
                      (Some true,
                       print (MsgDuration (written_nframes output_wav)
                                          (w_framerate output_wav))
                         (print (MsgDone output_file) w))
                  end
              end
          end
      end
  end.

(** *** merge_audio_fast (快速合并工具.py): the batch loop, lines 59-81 *)

Definition fast_chunk (d : disk) (st : list byte * list message)
           (wav_file : string) : list byte * list message :=
  let '(frames_written, printed) := st in
  match wave_open d wav_file with
  | Unreadable _ => (frames_written, printed ++ [MsgSkipped (basename wav_file)])
  | Readable _ frames => (frames_written ++ frames, printed)
  end.

Definition fast_batches (d : disk) (wav_files : list string)
           (batch_size : nat) (st : list byte * list message)
  : list byte * list message :=
  let total_batches := batch_count (length wav_files) batch_size in
  fold_left
    (fun st batch_num =>
       let start_idx := (batch_num * batch_size)%nat in
       let end_idx := Nat.min (start_idx + batch_size) (length wav_files) in
       let batch_files := slice wav_files start_idx end_idx in
       let st :=
         (fst st,
          snd st ++ [MsgBatch (batch_num + 1) total_batches
                              (length batch_files)]) in
       let st := fold_left (fast_chunk d) batch_files st in
       (fst st, snd st ++ [MsgProgress (batch_num + 1) total_batches]))
    (seq 0 total_batches) st.

(** *** The pydub loops of the two conversion pipelines *)

(** An [AudioSegment] built by the loops, as the sequence of its parts:
    [AudioSegment.empty()] is the empty sequence, [+] appends. *)
Inductive segment_part :=
| FromWav (chunk_file : string)     (* AudioSegment.from_wav(chunk_file) *)
| Silent (duration_ms : Z).         (* AudioSegment.silent(duration=...) *)

(** txt_to_wav_large, lines 219-229. *)
Definition txt_to_wav_large_combine (chunk_files : list string)
  : list segment_part :=
  fold_left
    (fun combined chunk_file =>
       (combined ++ [FromWav chunk_file]) ++ [Silent 300])
    chunk_files [].

(** txt_to_mp3_large_file, lines 116-120. *)
Definition txt_to_mp3_large_file_combine (chunk_files : list string)
  : list segment_part :=
  fold_left
    (fun combined chunk_file =>
       (combined ++ [FromWav chunk_file]) ++ [Silent 500])
    chunk_files [].

(** *** Vocabulary of the merge claims *)

(** The chunks the copy loops accept: readable, and equal to the
    reference on the compared slice. *)
Definition accepted_frames (d : disk) (params : wave_params)
           (wav_file : string) : option (wave_params * list byte) :=
  match wave_open d wav_file with
  | Unreadable _ => None
  | Readable input_params frames =>
      if first4_eqb (first4 input_params) (first4 params)
      then Some (input_params, frames) else None
  end.

Fixpoint merged_data (d : disk) (params : wave_params)
         (wav_files : list string) : list byte :=
  match wav_files with
  | [] => []
  | f :: rest =>
      match accepted_frames d params f with
      | Some (_, frames) => frames ++ merged_data d params rest
      | None => merged_data d params rest
      end
  end.

Fixpoint merged_frames (d : disk) (params : wave_params)
         (wav_files : list string) : Z :=
  match wav_files with
  | [] => 0
  | f :: rest =>
      match accepted_frames d params f with
      | Some (p, _) => nframes p + merged_frames d params rest
      | None => merged_frames d params rest
      end
  end.

(** The 44-byte header of section 6 of the specification followed by the
    sample data. *)
Definition wav_image (params : wave_params) (data : list byte) : list byte :=
  ascii_bytes "RIFF" ++ le32 (Z.of_nat (length data) + 36)
  ++ ascii_bytes "WAVE" ++ ascii_bytes "fmt " ++ le32 16 ++ le16 1
  ++ le16 (nchannels params) ++ le32 (framerate params)
  ++ le32 (framerate params * nchannels params * sampwidth params)
  ++ le16 (nchannels params * sampwidth params)
  ++ le16 (sampwidth params * 8)
  ++ ascii_bytes "data" ++ le32 (Z.of_nat (length data)) ++ data.

(** The header as first written, both size fields still zero. *)
Definition placeholder_header (params : wave_params) : list byte :=
  ascii_bytes "RIFF" ++ le32 0
  ++ ascii_bytes "WAVE" ++ ascii_bytes "fmt " ++ le32 16 ++ le16 1
  ++ le16 (nchannels params) ++ le32 (framerate params)
  ++ le32 (framerate params * nchannels params * sampwidth params)
  ++ le16 (nchannels params * sampwidth params)
  ++ le16 (sampwidth params * 8)
  ++ ascii_bytes "data" ++ le32 0.

(** The header values fit their fields. *)
Definition header_fits (params : wave_params) : Prop :=
  0 <= nchannels params < 65536
  /\ 0 <= framerate params < 4294967296
  /\ 0 <= framerate params * nchannels params * sampwidth params < 4294967296
  /\ 0 <= nchannels params * sampwidth params < 65536
  /\ 0 <= sampwidth params * 8 < 65536.

(** The size fields read back from a file image. *)
Definition riff_size_field (image : list byte) : Z :=
  unpack_L (firstn 4 (skipn 4 image)).

Definition data_size_field (image : list byte) : Z :=
  unpack_L (firstn 4 (skipn 40 image)).

(** The copy loop without batches: the chunks one by one, in order. *)
Definition process_one_by_one (d : disk) (params : wave_params)
           (wav_files : list string) : M unit :=
  for_each wav_files (process_chunk d params).

Definition fast_one_by_one (d : disk) (wav_files : list string)
           (st : list byte * list message) : list byte * list message :=
  fold_left (fast_chunk d) wav_files st.

(** The effect of [process_chunk] on the locals, as a function. *)
Definition chunk_effect (d : disk) (params : wave_params)
           (wav_file : string) (s : state) : state :=
  match wave_open d wav_file with
  | Unreadable e =>
      {| out := out s; total_frames := total_frames s;
         log := log s ++ [MsgSkipCorrupt (basename wav_file) e] |}
  | Readable input_params frames =>
      if first4_eqb (first4 input_params) (first4 params)
      then {| out := handle_write frames (out s);
              total_frames := total_frames s + nframes input_params;
              log := log s |}
      else {| out := out s; total_frames := total_frames s;
              log := log s ++ [MsgSkipMismatch (basename wav_file)] |}
  end.

(** Progress reports of the batch loop. *)
Definition is_progress (m : message) : bool :=
  match m with
  | MsgBatch _ _ _ | MsgProgress _ _ => true
  | _ => false
  end.

Definition without_progress (l : list message) : list message :=
  List.filter (fun m => negb (is_progress m)) l.

(** Two states of the copy loop that differ in progress reports only. *)
Definition same_merge (s1 s2 : state) : Prop :=
  out s1 = out s2 /\ total_frames s1 = total_frames s2
  /\ without_progress (log s1) = without_progress (log s2).

(** Two states with the same file handle and frame count. *)
Definition same_data (s1 s2 : state) : Prop :=
  out s1 = out s2 /\ total_frames s1 = total_frames s2.

(** A computation whose result and whose effect on the handle and the
    frame count do not depend on what was printed before. *)
Definition log_blind {A} (m : M A) : Prop :=
  forall s1 s2, same_data s1 s2 ->
    fst (m s1) = fst (m s2) /\ same_data (snd (m s1)) (snd (m s2)).

(** The handle is at the end of the file. *)
Definition at_end (h : handle) : Prop := position h = length (content h).

(** A chunk is excluded from the output of a run. *)
Definition excluded (d : disk) (params : wave_params) (wav_file : string)
  : Prop :=
  accepted_frames d params wav_file = None.

(** A chunk is recorded as skipped, with the reason, in what was
    printed: the parameter mismatch, or the text of the exception. *)
Definition recorded_skip (d : disk) (name : string -> string)
           (wav_file : string) (printed : list message) : Prop :=
  match wave_open d wav_file with
  | Unreadable e => In (MsgSkipCorrupt (name wav_file) e) printed
  | Readable _ _ => In (MsgSkipMismatch (name wav_file)) printed
  end.

Definition readable (d : disk) (wav_file : string) : Prop :=
  exists params frames, wave_open d wav_file = Readable params frames.

Definition no_silence (parts : list segment_part) : Prop :=
  Forall (fun p => match p with Silent _ => False | FromWav _ => True end)
         parts.

Definition empty_world : world := {| files := ∅; stdout := [] |}.

(** The catalogue of a run of [merge_audio_fixed]: the chunk folder
    exists, [wav_files] is the sorted listing, and its first file opens
    with the parameters [params]. *)
Definition reference (d : disk) (wav_files : list string)
           (params : wave_params) : Prop :=
  path_exists d "temp_audio_chunks" = true
  /\ sort_files (glob_chunks d "temp_audio_chunks") = Some wav_files
  /\ exists first rest frames,
       wav_files = first :: rest
       /\ wave_open d first = Readable params frames.

(** The merged data leaves room for the 32-bit size fields. *)
Definition data_fits (data : list byte) : Prop :=
  Z.of_nat (length data) + 36 < 4294967296.

(** The wave writer takes the reference parameters: [setparams] wants
    at least one channel, a sample width of 1 to 4 bytes, a positive
    frame rate and no compression. *)
Definition writer_accepts (params : wave_params) : Prop :=
  1 <= nchannels params
  /\ 1 <= sampwidth params <= 4
  /\ 1 <= framerate params
  /\ comptype params = "NONE"%string.

(** The length the writer first puts into its header, computed from the
    frame count of the reference parameters, fits its field. *)
Definition announced_length_fits (params : wave_params) : Prop :=
  0 <= nframes params
  /\ nframes params * nchannels params * sampwidth params + 36 < 4294967296.

(** The writer after [setparams(params)]. *)
Definition writer_ready (params : wave_params) : wave_write :=
  {| file := opened;
     w_nchannels := nchannels params; w_sampwidth := sampwidth params;
     w_framerate := framerate params; w_nframes := nframes params;
     datawritten := 0; datalength := 0; headerwritten := false;
     form_length_pos := 0; data_length_pos := 0 |}.

(** A file image whose two size fields are those of a data length
    [len]. *)
Definition sized_image (params : wave_params) (len : Z) (data : list byte)
  : list byte :=
  ascii_bytes "RIFF" ++ le32 (len + 36)
  ++ ascii_bytes "WAVE" ++ ascii_bytes "fmt " ++ le32 16 ++ le16 1
  ++ le16 (nchannels params) ++ le32 (framerate params)
  ++ le32 (framerate params * nchannels params * sampwidth params)
  ++ le16 (nchannels params * sampwidth params)
  ++ le16 (sampwidth params * 8)
  ++ ascii_bytes "data" ++ le32 len ++ data.

(** The writer once the header is written and brought up to date with
    the sample data [data] written so far. *)
Definition writer_holding (params : wave_params) (frames : Z)
           (data : list byte) : wave_write :=
  {| file := {| content := wav_image params data;
                position := 44 + length data |};
     w_nchannels := nchannels params; w_sampwidth := sampwidth params;
     w_framerate := framerate params; w_nframes := frames;
     datawritten := Z.of_nat (length data);
     datalength := Z.of_nat (length data);
     headerwritten := true;
     form_length_pos := 4; data_length_pos := 40 |}.

(** *** Example disks *)

(** Mono, 16-bit, 22050 Hz. *)
Definition pcm_mono16 (frames : Z) : wave_params :=
  {| nchannels := 1; sampwidth := 2; framerate := 22050; nframes := frames;
     comptype := "NONE"; compname := "not compressed" |}.

Definition pcm_stereo16 (frames : Z) : wave_params :=
  {| nchannels := 2; sampwidth := 2; framerate := 22050; nframes := frames;
     comptype := "NONE"; compname := "not compressed" |}.

Definition lookup_chunk (table : list (string * chunk_file)) (path : string)
  : chunk_file :=
  match List.find (fun entry => String.eqb (fst entry) path) table with
  | Some entry => snd entry
  | None => Unreadable "No such file or directory"
  end.

Definition disk_of (table : list (string * chunk_file)) : disk :=
  {| path_exists := fun path => String.eqb path "temp_audio_chunks";
     glob_chunks := fun folder =>
       if String.eqb folder "temp_audio_chunks" then rev (map fst table)
       else [];
     wave_open := lookup_chunk table |}.

(** The end-to-end example of the specification: three mono 16-bit
    22050 Hz chunks of 100, 150 and 200 frames. *)
Definition three_chunks : disk :=
  disk_of
    [("temp_audio_chunks/chunk_0000.wav",
      Readable (pcm_mono16 100) (repeat x01 200));
     ("temp_audio_chunks/chunk_0001.wav",
      Readable (pcm_mono16 150) (repeat x02 300));
     ("temp_audio_chunks/chunk_0002.wav",
      Readable (pcm_mono16 200) (repeat x03 400))].

(** A catalogue whose first file is not a WAVE file. *)
Definition bad_first : disk :=
  disk_of
    [("temp_audio_chunks/chunk_0000.wav",
      Unreadable "file does not start with RIFF id");
     ("temp_audio_chunks/chunk_0001.wav",
      Readable (pcm_mono16 2) [x01; x02; x03; x04])].

(** Two good chunks around a stereo chunk and a damaged one. *)
Definition mixed_chunks : disk :=
  disk_of
    [("temp_audio_chunks/chunk_0000.wav",
      Readable (pcm_mono16 2) [x01; x02; x03; x04]);
     ("temp_audio_chunks/chunk_0001.wav",
      Readable (pcm_stereo16 2) [x11; x12; x13; x14; x15; x16; x17; x18]);
     ("temp_audio_chunks/chunk_0002.wav",
      Unreadable "file does not start with RIFF id");
     ("temp_audio_chunks/chunk_0003.wav",
      Readable (pcm_mono16 2) [x05; x06; x07; x08])].

Definition mixed_files : list string :=
  ["temp_audio_chunks/chunk_0000.wav"; "temp_audio_chunks/chunk_0001.wav";
   "temp_audio_chunks/chunk_0002.wav"; "temp_audio_chunks/chunk_0003.wav"].

(** 64-bit samples, which the reader of the wave library takes and its
    writer refuses. *)
Definition pcm_mono64 (frames : Z) : wave_params :=
  {| nchannels := 1; sampwidth := 8; framerate := 22050; nframes := frames;
     comptype := "NONE"; compname := "not compressed" |}.

Definition wide_samples : disk :=
  disk_of
    [("temp_audio_chunks/chunk_0000.wav",
      Readable (pcm_mono64 1) [x01; x02; x03; x04; x05; x06; x07; x08]);
     ("temp_audio_chunks/chunk_0001.wav",
      Readable (pcm_mono16 2) [x01; x02; x03; x04])].

(** An existing folder without chunk files. *)
Definition empty_folder : disk := disk_of [].

(** *** The claims that fail, as stated *)

(** Every chunk that fails to open is recorded with its reason. *)
Definition unreadable_are_recorded (d : disk) (w : world) : Prop :=
  forall wav_files f e,
    sort_files (glob_chunks d "temp_audio_chunks") = Some wav_files ->
    In f wav_files ->
    wave_open d f = Unreadable e ->
    In (MsgSkipCorrupt (basename f) e) (stdout (snd (merge_audio_fixed d w))).

(** The merge fails only when no chunk is left after validation. *)
Definition fails_only_without_chunks (d : disk) (w : world) : Prop :=
  forall e,
    fst (merge_audio_fixed d w) = Failed e ->
    forall f, In f (glob_chunks d "temp_audio_chunks") -> ~ readable d f.

(** The total frame count of chunks of one audio format (channels,
    sample width, frame rate) is the sum of their frame counts. *)
Definition frames_add_up (d : disk) (w : world) : Prop :=
  forall wav_files params counts,
    reference d wav_files params ->
    Forall2 (fun f n =>
               exists frames,
                 wave_open d f
                 = Readable {| nchannels := nchannels params;
                               sampwidth := sampwidth params;
                               framerate := framerate params;
                               nframes := n;
                               comptype := comptype params;
                               compname := compname params |} frames)
            wav_files counts ->
    fst (merge_audio_fixed d w) = Completed (fold_right Z.add 0 counts).

End Merge.

(* ===================================================================== *)
(** ** The pieces the chunkers put together *)
(* ===================================================================== *)

Module Pieces.

Import Chunker.

(** What one paragraph contributes to the accumulator of
    [split_text_smart] (lines 35-70): nothing when it is blank, its
    sentences, each closed by the ideographic full stop, when it is longer
    than the limit, and otherwise the stripped paragraph followed by a
    line feed. *)
Definition paragraph_pieces (max_chunk_size : Z) (paragraph : text)
  : list text :=
  let paragraph := strip paragraph in
  if negb (truthy paragraph) then []
  else if len paragraph >? max_chunk_size
  then map with_stop (sentences paragraph)
  else [paragraph ++ [LF]].

Definition smart_pieces (t : text) (max_chunk_size : Z) : list text :=
  flat_map (paragraph_pieces max_chunk_size) (split_paragraphs t).

(** [units] cuts the list [pieces] into consecutive non-empty groups and
    is made of the stripped concatenation of each group. *)
Definition groups_of (pieces units : list text) : Prop :=
  exists groups,
    Forall (fun g => g <> []) groups
    /\ concat groups = pieces
    /\ units = map (fun g => strip (concat g)) groups.

(** The loop invariant behind [groups_of]: the finished units and the
    accumulator account for the pieces seen so far. *)
Definition grouped (pieces : list text) (st : chunker_state) : Prop :=
  exists groups g,
    Forall (fun g => g <> []) groups
    /\ concat groups ++ g = pieces
    /\ fst st = map (fun g => strip (concat g)) groups
    /\ snd st = concat g.

(** [not text.strip()] holds: the text has white space only. *)
Definition blank (t : text) : Prop := Forall (fun c => isspace c = true) t.

(** The length of the pieces of a split, each counted with one joining
    character. *)
Definition weight (pieces : list text) : Z :=
  fold_right (fun p acc => len p + 1 + acc) 0 pieces.

(** A paragraph that adds nothing to the units of [split_text_smart]. *)
Definition silent_paragraph (max_chunk_size : Z) (paragraph : text) : Prop :=
  strip paragraph = []
  \/ (len (strip paragraph) > max_chunk_size
      /\ sentences (strip paragraph) = []).

End Pieces.

(* ===================================================================== *)
(** ** The names of the chunk files *)
(* ===================================================================== *)

Module Names.

Import Catalog.

Local Open Scope string_scope.

(** The character of the last decimal digit of [n]. *)
Definition digit_char (n : nat) : ascii := ascii_of_nat (48 + n mod 10).

(** The decimal digits of [n] in front of [acc]. *)
Fixpoint digits_of (fuel n : nat) (acc : string) : string :=
  match fuel with
  | O => acc
  | S fuel' =>
      let acc := String (digit_char n) acc in
      if (n / 10 =? 0)%nat then acc else digits_of fuel' (n / 10) acc
  end.

(** [str(n)] for a natural number. *)
Definition str_of_nat (n : nat) : string := digits_of (S n) n "".

Fixpoint zeros (k : nat) : string :=
  match k with
  | O => ""
  | S k' => String "0" (zeros k')
  end.

(** [f"{i:04d}"] for an index of [enumerate]: at least four digits,
    padded with zeros on the left. *)
Definition format_04d (i : nat) : string :=
  let s := str_of_nat i in zeros (4 - String.length s) ++ s.

(** [str(temp_folder / f"chunk_{i:04d}.wav")] (txt_to_mp3_advanced.py,
    line 99; txt_to_wav_large_file.py, line 181). *)
Definition chunk_file_name (temp_folder : string) (i : nat) : string :=
  chunk_path temp_folder (format_04d i).

(** [chunk_files] after the synthesis loop over [n] chunks. *)
Definition chunk_file_names (temp_folder : string) (n : nat) : list string :=
  map (chunk_file_name temp_folder) (seq 0 n).

(** Order of file names by their sort key. *)
Definition key_order (a b : string) : Prop :=
  exists ka kb,
    sort_key a = Some ka /\ sort_key b = Some kb /\ (ka <= kb)%Z.

(** The file has the sort key [k]. *)
Definition has_key (k : Z) (f : string) : bool :=
  match sort_key f with
  | Some k' => (k' =? k)%Z
  | None => false
  end.

(** A decorated entry carries the key of its file. *)
Definition well_keyed (kf : Z * string) : Prop :=
  sort_key (snd kf) = Some (fst kf).

End Names.

(* ===================================================================== *)
(** ** The merged file read back, the batches, the copy loops *)
(* ===================================================================== *)

Module Layout.

Import Catalog Merge.

(** [struct.unpack('<H', b)[0]] of two bytes. *)
Definition unpack_H (b : list byte) : Z :=
  match b with
  | [b0; b1] => Z_of_byte b0 + 256 * Z_of_byte b1
  | _ => 0
  end.

(** [image[offset:offset+size]] *)
Definition field (offset size : nat) (image : list byte) : list byte :=
  firstn size (skipn offset image).

(** The fields of the 44-byte header [merge_audio_fixed] writes (lines
    58-79), in file order. *)
Record wav_header := {
  riff_tag : list byte;      (* bytes 0-3 *)
  riff_size : Z;             (* bytes 4-7 *)
  wave_tag : list byte;      (* bytes 8-11 *)
  fmt_tag : list byte;       (* bytes 12-15 *)
  fmt_size : Z;              (* bytes 16-19 *)
  audio_format : Z;          (* bytes 20-21 *)
  channels : Z;              (* bytes 22-23 *)
  sample_rate : Z;           (* bytes 24-27 *)
  byte_rate : Z;             (* bytes 28-31 *)
  block_align : Z;           (* bytes 32-33 *)
  bits_per_sample : Z;       (* bytes 34-35 *)
  data_tag : list byte;      (* bytes 36-39 *)
  data_size : Z              (* bytes 40-43 *)
}.

Definition read_header (image : list byte) : wav_header :=
  {| riff_tag := field 0 4 image;
     riff_size := unpack_L (field 4 4 image);
     wave_tag := field 8 4 image;
     fmt_tag := field 12 4 image;
     fmt_size := unpack_L (field 16 4 image);
     audio_format := unpack_H (field 20 2 image);
     channels := unpack_H (field 22 2 image);
     sample_rate := unpack_L (field 24 4 image);
     byte_rate := unpack_L (field 28 4 image);
     block_align := unpack_H (field 32 2 image);
     bits_per_sample := unpack_H (field 34 2 image);
     data_tag := field 36 4 image;
     data_size := unpack_L (field 40 4 image) |}.

(** What follows the header. *)
Definition sample_data (image : list byte) : list byte := skipn 44 image.

(** What the copy loop of [merge_audio_fixed] prints for one chunk
    (lines 98-100 and 106-108): nothing when the chunk is copied. *)
Definition skip_message (d : disk) (params : wave_params)
           (wav_file : string) : list message :=
  match wave_open d wav_file with
  | Unreadable e => [MsgSkipCorrupt (basename wav_file) e]
  | Readable input_params _ =>
      if first4_eqb (first4 input_params) (first4 params) then []
      else [MsgSkipMismatch (basename wav_file)]
  end.

Definition skip_report (d : disk) (params : wave_params)
           (wav_files : list string) : list message :=
  flat_map (skip_message d params) wav_files.

(** The report of the duration, when the frame rate is not zero. *)
Definition duration_report (frames rate : Z) : list message :=
  if rate =? 0 then [] else [MsgDuration frames rate].

(** [readframes(getnframes())] of an intact chunk returns whole frames:
    [nframes * nchannels * sampwidth] bytes. *)
Definition whole_frames (d : disk) (wav_file : string) : Prop :=
  forall p frames,
    wave_open d wav_file = Readable p frames ->
    Z.of_nat (length frames) = nframes p * (nchannels p * sampwidth p).

(** [batch_files] of batch [batch_num] (lines 85-87 of 修复合并工具.py,
    lines 64-66 of 快速合并工具.py). *)
Definition batch_files (wav_files : list string) (batch_size batch_num : nat)
  : list string :=
  let start_idx := (batch_num * batch_size)%nat in
  let end_idx := Nat.min (start_idx + batch_size) (length wav_files) in
  slice wav_files start_idx end_idx.

(** The batches of [for batch_num in range(total_batches)]. *)
Definition batches (wav_files : list string) (batch_size : nat)
  : list (list string) :=
  map (batch_files wav_files batch_size)
      (seq 0 (batch_count (length wav_files) batch_size)).

(** The frames of every chunk that opens, in order. *)
Fixpoint readable_data (d : disk) (wav_files : list string) : list byte :=
  match wav_files with
  | [] => []
  | f :: rest =>
      match wave_open d f with
      | Unreadable _ => readable_data d rest
      | Readable _ frames => frames ++ readable_data d rest
      end
  end.

(** No chunk that opens is rejected by the comparison with [params]. *)
Definition none_rejected (d : disk) (params : wave_params)
           (wav_files : list string) : Prop :=
  Forall (fun f => forall p frames,
            wave_open d f = Readable p frames ->
            first4_eqb (first4 p) (first4 params) = true) wav_files.

(** A listing with a file that is not numbered. *)
Definition stray_file : disk :=
  disk_of
    [("temp_audio_chunks/chunk_0000.wav",
      Readable (pcm_mono16 2) [x01; x02; x03; x04]);
     ("temp_audio_chunks/chunk_final.wav",
      Readable (pcm_mono16 2) [x05; x06; x07; x08])].

End Layout.

(* ===================================================================== *)
(** ** Properties of the text chunkers *)
(* ===================================================================== *)

Module ChunkerFacts.
Import Chunker.

(** *** Stripping *)

Lemma len_app (a b : text) : len (a ++ b) = len a + len b.
Proof. unfold len. rewrite length_app. lia. Qed.

Lemma len_nonneg (a : text) : 0 <= len a.
Proof. unfold len. lia. Qed.

Lemma truthy_false (t : text) : truthy t = false -> t = [].
Proof. destruct t; simpl; congruence. Qed.

Lemma length_lstrip (t : text) : (length (lstrip t) <= length t)%nat.
Proof.
  induction t as [|c t IH]; simpl; [lia|].
  destruct (isspace c); simpl; lia.
Qed.

Lemma length_rstrip (t : text) : (length (rstrip t) <= length t)%nat.
Proof.
  induction t as [|c t IH]; simpl; [lia|].
  destruct (rstrip t); [destruct (isspace c)|]; simpl in *; lia.
Qed.

Lemma len_strip (t : text) : len (strip t) <= len t.
Proof.
  unfold len, strip.
  pose proof (length_rstrip (lstrip t)). pose proof (length_lstrip t). lia.
Qed.

Lemma rstrip_snoc_space (x : text) (c : char) :
  isspace c = true -> rstrip (x ++ [c]) = rstrip x.
Proof.
  intros Hc. induction x as [|a x IH]; simpl.
  - now rewrite Hc.
  - now rewrite IH.
Qed.

Lemma rstrip_snoc_solid (x : text) (c : char) :
  isspace c = false -> rstrip (x ++ [c]) = x ++ [c].
Proof.
  intros Hc. induction x as [|a x IH]; simpl.
  - now rewrite Hc.
  - rewrite IH. destruct x; reflexivity.
Qed.

Lemma lstrip_solid (c : char) (t : text) :
  isspace c = false -> lstrip (c :: t) = c :: t.
Proof. intros Hc. simpl. now rewrite Hc. Qed.

Lemma lstrip_cases (t : text) : lstrip t = [] \/ starts_solid (lstrip t).
Proof.
  induction t as [|c t IH]; simpl; [now left|].
  destruct (isspace c) eqn:Hc; [exact IH|].
  right. now exists c, t.
Qed.

Lemma rstrip_keeps_head (c : char) (t : text) :
  rstrip (c :: t) = [] \/ exists r, rstrip (c :: t) = c :: r.
Proof.
  simpl. destruct (rstrip t); [destruct (isspace c)|]; eauto.
Qed.

Lemma strip_cases (t : text) : strip t = [] \/ starts_solid (strip t).
Proof.
  unfold strip. destruct (lstrip_cases t) as [E|(c & t' & E & Hc)].
  - rewrite E. now left.
  - rewrite E. destruct (rstrip_keeps_head c t') as [E'|[r E']]; rewrite E'.
    + now left.
    + right. now exists c, r.
Qed.

Lemma strip_truthy_solid (t : text) :
  truthy (strip t) = true -> starts_solid (strip t).
Proof.
  destruct (strip_cases t) as [E|H]; [rewrite E; discriminate|auto].
Qed.

(** A text that starts and ends with characters that are not white space
    is returned by [strip] as it is. *)
Lemma strip_solid_snoc (f : text) (c : char) :
  starts_solid f -> isspace c = false -> strip (f ++ [c]) = f ++ [c].
Proof.
  intros (a & f' & -> & Ha) Hc. unfold strip.
  change ((a :: f') ++ [c]) with (a :: (f' ++ [c])).
  rewrite lstrip_solid by assumption.
  change (a :: f' ++ [c]) with ((a :: f') ++ [c]).
  now apply rstrip_snoc_solid.
Qed.

Lemma lstrip_snoc_space (p : text) (c : char) :
  isspace c = true ->
  lstrip (p ++ [c]) = match lstrip p with [] => [] | q => q ++ [c] end.
Proof.
  intros Hc. induction p as [|b p IH]; simpl.
  - now rewrite Hc.
  - destruct (isspace b); [exact IH|reflexivity].
Qed.

Lemma len_strip_snoc_space (p : text) (c : char) :
  isspace c = true -> len (strip (p ++ [c])) <= len p.
Proof.
  intros Hc. unfold strip, len. rewrite lstrip_snoc_space by assumption.
  pose proof (length_lstrip p) as Hl.
  destruct (lstrip p) as [|a q] eqn:E.
  - simpl. lia.
  - rewrite rstrip_snoc_space by assumption.
    pose proof (length_rstrip (a :: q)). lia.
Qed.

(** *** Terminators *)

Lemma isspace_LF : isspace LF = true.
Proof. reflexivity. Qed.

Lemma isspace_FULL_STOP_CJK : isspace FULL_STOP_CJK = false.
Proof. reflexivity. Qed.

Lemma terminator_FULL_STOP_CJK : is_terminator FULL_STOP_CJK = true.
Proof. reflexivity. Qed.

Lemma terminator_free_lstrip (t : text) :
  terminator_free t -> terminator_free (lstrip t).
Proof.
  unfold terminator_free. induction 1 as [|c t Hc Ht IH]; simpl; [constructor|].
  destruct (isspace c); [exact IH|now constructor].
Qed.

Lemma terminator_free_rstrip (t : text) :
  terminator_free t -> terminator_free (rstrip t).
Proof.
  unfold terminator_free. induction 1 as [|c t Hc Ht IH]; simpl; [constructor|].
  destruct (rstrip t); [destruct (isspace c)|]; constructor; auto.
Qed.

Lemma terminator_free_strip (t : text) :
  terminator_free t -> terminator_free (strip t).
Proof. intros H. now apply terminator_free_rstrip, terminator_free_lstrip. Qed.

Lemma re_split_terminator_free (t f : text) :
  In f (re_split t) -> terminator_free f.
Proof.
  revert f. induction t as [|c t IH]; simpl; intros f Hf.
  - destruct Hf as [<-|[]]. constructor.
  - destruct (is_terminator c) eqn:Hc.
    + destruct Hf as [<-|Hf]; [constructor|auto].
    + destruct (re_split t) as [|p ps]; simpl in Hf.
      * destruct Hf as [<-|[]]. repeat constructor. exact Hc.
      * destruct Hf as [<-|Hf].
        -- constructor; [exact Hc|]. apply IH. now left.
        -- apply IH. now right.
Qed.

Lemma endswith_terminator_free (t : text) :
  terminator_free t -> endswith_terminator t = false.
Proof.
  intros H. unfold endswith_terminator.
  destruct (rev t) as [|c r] eqn:E; [reflexivity|].
  unfold terminator_free in H. rewrite List.Forall_forall in H. apply H.
  apply in_rev. rewrite E. now left.
Qed.

(** *** The length bound *)

Section Bound.
Variable F : text -> Prop.
Variable max_chunk_size : Z.

Lemma unit_ok_Forall_snoc (chunks : list text) (u : text) :
  Forall (unit_ok F max_chunk_size) chunks -> unit_ok F max_chunk_size u ->
  Forall (unit_ok F max_chunk_size) (chunks ++ [u]).
Proof. intros H Hu. apply Forall_app. split; [exact H|now constructor]. Qed.

Lemma flush_ok (chunks : list text) (cur : text) :
  state_ok F max_chunk_size (chunks, cur) ->
  Forall (unit_ok F max_chunk_size) (flush chunks cur).
Proof.
  intros [Hch Hcur]. simpl in *. unfold flush.
  destruct (truthy cur) eqn:Hne; [|exact Hch].
  apply unit_ok_Forall_snoc; [exact Hch|].
  destruct Hcur as [->|[Hle|[(p & -> & Hp)|(f & Hf & E & Hs)]]].
  - discriminate Hne.
  - left. pose proof (len_strip cur). lia.
  - left. pose proof (len_strip_snoc_space p LF isspace_LF). lia.
  - right. exists f. rewrite Hs. auto.
Qed.

Lemma sentence_step_ok (st : chunker_state) (s : text) :
  state_ok F max_chunk_size st ->
  terminator_free s ->
  (truthy (strip s) = true -> F (strip s)) ->
  state_ok F max_chunk_size (sentence_step max_chunk_size st s).
Proof.
  intros Hst Hfree HF. destruct st as [chunks cur]. unfold sentence_step.
  destruct (truthy (strip s)) eqn:Ht; simpl negb; cbv iota; [|exact Hst].
  rewrite (endswith_terminator_free (strip s))
    by now apply terminator_free_strip.
  simpl negb. cbv iota.
  destruct (Z.ltb_spec (len cur + len (strip s ++ [FULL_STOP_CJK]))
              max_chunk_size) as [Hlt|Hge].
  - split; [exact (proj1 Hst)|]. right. left. simpl. rewrite len_app. lia.
  - split; [now apply flush_ok|]. simpl. right. right. right.
    exists (strip s). repeat split; auto.
    apply strip_solid_snoc; [now apply strip_truthy_solid|reflexivity].
Qed.

Lemma sentences_fold_ok (l : list text) (st : chunker_state) :
  state_ok F max_chunk_size st ->
  (forall s, In s l -> terminator_free s) ->
  (forall s, In s l -> truthy (strip s) = true -> F (strip s)) ->
  state_ok F max_chunk_size (fold_left (sentence_step max_chunk_size) l st).
Proof.
  revert st. induction l as [|s l IH]; simpl; intros st Hst Hfree HF; [exact Hst|].
  apply IH; [apply sentence_step_ok| |]; auto.
Qed.

Lemma paragraph_step_ok (st : chunker_state) (p : text) :
  state_ok F max_chunk_size st ->
  (len (strip p) > max_chunk_size ->
   forall s, In s (re_split (strip p)) -> truthy (strip s) = true ->
             F (strip s)) ->
  state_ok F max_chunk_size (paragraph_step max_chunk_size st p).
Proof.
  intros Hst HF. destruct st as [chunks cur]. unfold paragraph_step.
  destruct (truthy (strip p)) eqn:Ht; simpl negb; cbv iota; [|exact Hst].
  destruct (Z.gtb_spec (len (strip p)) max_chunk_size) as [Hbig|Hsmall].
  - apply sentences_fold_ok; [exact Hst| |].
    + intros s Hs. eapply re_split_terminator_free; eauto.
    + apply HF. lia.
  - destruct (Z.ltb_spec (len cur + len (strip p)) max_chunk_size) as [Hlt|Hge].
    + split; [exact (proj1 Hst)|]. right. left. simpl.
      rewrite !len_app. change (len [LF]) with 1. lia.
    + split; [now apply flush_ok|]. simpl. right. right. left.
      exists (strip p). split; [reflexivity|lia].
Qed.

Lemma paragraphs_fold_ok (l : list text) (st : chunker_state) :
  state_ok F max_chunk_size st ->
  (forall p, In p l -> len (strip p) > max_chunk_size ->
   forall s, In s (re_split (strip p)) -> truthy (strip s) = true ->
             F (strip s)) ->
  state_ok F max_chunk_size (fold_left (paragraph_step max_chunk_size) l st).
Proof.
  revert st. induction l as [|p l IH]; simpl; intros st Hst HF; [exact Hst|].
  apply IH.
  - apply paragraph_step_ok; [exact Hst|]. apply HF. now left.
  - intros q Hq. apply HF. now right.
Qed.

Lemma chunk_step_ok (st : chunker_state) (s : text) :
  state_ok F max_chunk_size st ->
  (truthy (strip s) = true -> F (strip s)) ->
  state_ok F max_chunk_size (chunk_step max_chunk_size st s).
Proof.
  intros Hst HF. destruct st as [chunks cur]. unfold chunk_step.
  destruct (truthy (strip s)) eqn:Ht; simpl negb; cbv iota; [|exact Hst].
  destruct (Z.ltb_spec (len cur + len (strip s)) max_chunk_size) as [Hlt|Hge].
  - split; [exact (proj1 Hst)|]. right. left. simpl.
    rewrite !len_app. change (len [FULL_STOP_CJK]) with 1. lia.
  - split; [now apply flush_ok|]. simpl. right. right. right.
    exists (strip s). repeat split; auto.
    apply strip_solid_snoc; [now apply strip_truthy_solid|reflexivity].
Qed.

Lemma chunks_fold_ok (l : list text) (st : chunker_state) :
  state_ok F max_chunk_size st ->
  (forall s, In s l -> truthy (strip s) = true -> F (strip s)) ->
  state_ok F max_chunk_size (fold_left (chunk_step max_chunk_size) l st).
Proof.
  revert st. induction l as [|s l IH]; simpl; intros st Hst HF; [exact Hst|].
  apply IH.
  - apply chunk_step_ok; [exact Hst|]. apply HF. now left.
  - intros x Hx. apply HF. now right.
Qed.

End Bound.

Lemma in_sentences (t f : text) :
  In f (sentences t) <->
  exists s, In s (re_split t) /\ f = strip s /\ truthy f = true.
Proof.
  unfold sentences, nonempty_stripped. rewrite filter_In, in_map_iff.
  split.
  - intros [(s & <- & Hs) Ht]. eauto.
  - intros (s & Hs & -> & Ht). eauto.
Qed.

Lemma in_smart_sentences (t f : text) (max_chunk_size : Z) :
  In f (smart_sentences t max_chunk_size) <->
  exists p, In p (split_paragraphs t) /\ truthy (strip p) = true
            /\ len (strip p) > max_chunk_size /\ In f (sentences (strip p)).
Proof.
  unfold smart_sentences, nonempty_stripped. rewrite in_flat_map. split.
  - intros (q & Hq & Hf). rewrite !filter_In, in_map_iff in Hq.
    destruct Hq as [[(p & <- & Hp) Ht] Hlen].
    exists p. repeat split; auto. apply Z.gtb_lt in Hlen. lia.
  - intros (p & Hp & Ht & Hlen & Hf). exists (strip p). split; [|exact Hf].
    rewrite !filter_In, in_map_iff. repeat split; eauto.
    apply Z.gtb_lt. lia.
Qed.

(** *** Content preservation *)

Lemma content_app (a b : text) : content (a ++ b) = content a ++ content b.
Proof. apply List.filter_app. Qed.

Lemma content_space (c : char) (t : text) :
  isspace c = true -> content (c :: t) = content t.
Proof.
  intros H. unfold content. simpl. unfold is_content at 1.
  rewrite H, orb_true_r. reflexivity.
Qed.

Lemma content_terminator (c : char) (t : text) :
  is_terminator c = true -> content (c :: t) = content t.
Proof.
  intros H. unfold content. simpl. unfold is_content at 1.
  rewrite H. reflexivity.
Qed.

Lemma content_lstrip (t : text) : content (lstrip t) = content t.
Proof.
  induction t as [|c t IH]; simpl lstrip; [reflexivity|].
  destruct (isspace c) eqn:Hc; [|reflexivity].
  now rewrite content_space.
Qed.

Lemma content_rstrip (t : text) : content (rstrip t) = content t.
Proof.
  induction t as [|c t IH]; [reflexivity|].
  simpl rstrip. destruct (rstrip t) as [|a r] eqn:E.
  - destruct (isspace c) eqn:Hc.
    + rewrite content_space by assumption. exact IH.
    + change (c :: t) with ([c] ++ t). rewrite content_app, <- IH.
      now rewrite app_nil_r.
  - change (c :: a :: r) with ([c] ++ a :: r).
    change (c :: t) with ([c] ++ t). now rewrite !content_app, IH.
Qed.

Lemma content_strip (t : text) : content (strip t) = content t.
Proof. unfold strip. now rewrite content_rstrip, content_lstrip. Qed.

Lemma content_snoc_stop (t : text) : content (t ++ [FULL_STOP_CJK]) = content t.
Proof. rewrite content_app. simpl. apply app_nil_r. Qed.

Lemma content_snoc_LF (t : text) : content (t ++ [LF]) = content t.
Proof. rewrite content_app. simpl. apply app_nil_r. Qed.

Lemma concat_cons_head (c : char) (pieces : list text) :
  concat (cons_head c pieces) = c :: concat pieces.
Proof. destruct pieces; reflexivity. Qed.

Lemma content_re_split (t : text) : content (concat (re_split t)) = content t.
Proof.
  induction t as [|c t IH]; [reflexivity|]. simpl re_split.
  destruct (is_terminator c) eqn:Hc.
  - simpl concat. now rewrite content_terminator.
  - rewrite concat_cons_head.
    change (c :: concat (re_split t)) with ([c] ++ concat (re_split t)).
    change (c :: t) with ([c] ++ t). now rewrite !content_app, IH.
Qed.

Lemma content_split_paragraphs (t : text) :
  content (concat (split_paragraphs t)) = content t.
Proof.
  assert (H : forall n (u : text), (length u <= n)%nat ->
              content (concat (split_paragraphs u)) = content u).
  { induction n as [|n IH]; intros u Hu.
    - destruct u; [reflexivity|simpl in Hu; lia].
    - destruct u as [|c [|d u]]; [reflexivity|reflexivity|].
      simpl in Hu.
      change (split_paragraphs (c :: d :: u)) with
        (if ((c =? LF) && (d =? LF))%N then [] :: split_paragraphs u
         else cons_head c (split_paragraphs (d :: u))).
      destruct ((c =? LF) && (d =? LF))%N eqn:E.
      + apply andb_true_iff in E. destruct E as [Ec Ed].
        apply N.eqb_eq in Ec, Ed. subst c d.
        simpl concat. rewrite IH by lia.
        now rewrite !content_space by reflexivity.
      + rewrite concat_cons_head.
        change (c :: concat (split_paragraphs (d :: u)))
          with ([c] ++ concat (split_paragraphs (d :: u))).
        change (c :: d :: u) with ([c] ++ d :: u).
        rewrite !content_app, IH by (simpl; lia). reflexivity. }
  now apply (H (length t)).
Qed.

Lemma state_content_flush (chunks : list text) (cur : text) :
  content (concat (flush chunks cur)) = state_content (chunks, cur).
Proof.
  unfold flush, state_content. simpl.
  destruct cur as [|c cur]; simpl truthy; cbv iota.
  - now rewrite app_nil_r.
  - rewrite concat_app, content_app. simpl concat.
    now rewrite app_nil_r, content_strip.
Qed.

Lemma state_content_sentence_step (m : Z) (st : chunker_state) (s : text) :
  state_content (sentence_step m st s) = state_content st ++ content s.
Proof.
  destruct st as [chunks cur]. unfold sentence_step.
  destruct (truthy (strip s)) eqn:Ht; simpl negb; cbv iota.
  - set (s' := if negb (endswith_terminator (strip s))
               then strip s ++ [FULL_STOP_CJK] else strip s).
    assert (E : content s' = content s).
    { subst s'. destruct (endswith_terminator (strip s)); simpl negb; cbv iota;
        now rewrite ?content_snoc_stop, content_strip. }
    destruct (_ <? _).
    + unfold state_content. cbn [fst snd].
      now rewrite content_app, E, app_assoc.
    + unfold state_content at 1. cbn [fst snd].
      now rewrite state_content_flush, E.
  - apply truthy_false in Ht. rewrite <- (content_strip s), Ht.
    simpl. now rewrite app_nil_r.
Qed.

Lemma state_content_sentences (m : Z) (l : list text) (st : chunker_state) :
  state_content (fold_left (sentence_step m) l st)
  = state_content st ++ content (concat l).
Proof.
  revert st. induction l as [|s l IH]; intros st; simpl.
  - now rewrite app_nil_r.
  - now rewrite IH, state_content_sentence_step, content_app, app_assoc.
Qed.

Lemma state_content_paragraph_step (m : Z) (st : chunker_state) (p : text) :
  state_content (paragraph_step m st p) = state_content st ++ content p.
Proof.
  destruct st as [chunks cur]. unfold paragraph_step.
  destruct (truthy (strip p)) eqn:Ht; simpl negb; cbv iota.
  - destruct (_ >? _).
    + now rewrite state_content_sentences, content_re_split, content_strip.
    + destruct (_ <? _).
      * unfold state_content. cbn [fst snd].
        rewrite app_assoc, content_snoc_LF.
        now rewrite !content_app, content_strip, app_assoc.
      * unfold state_content at 1. cbn [fst snd].
        now rewrite state_content_flush, content_snoc_LF, content_strip.
  - apply truthy_false in Ht. rewrite <- (content_strip p), Ht.
    simpl. now rewrite app_nil_r.
Qed.

Lemma state_content_paragraphs (m : Z) (l : list text) (st : chunker_state) :
  state_content (fold_left (paragraph_step m) l st)
  = state_content st ++ content (concat l).
Proof.
  revert st. induction l as [|p l IH]; intros st; simpl.
  - now rewrite app_nil_r.
  - now rewrite IH, state_content_paragraph_step, content_app, app_assoc.
Qed.

Lemma state_content_chunk_step (m : Z) (st : chunker_state) (s : text) :
  state_content (chunk_step m st s) = state_content st ++ content s.
Proof.
  destruct st as [chunks cur]. unfold chunk_step.
  destruct (truthy (strip s)) eqn:Ht; simpl negb; cbv iota.
  - destruct (_ <? _).
    + unfold state_content. cbn [fst snd].
      rewrite app_assoc, content_snoc_stop.
      now rewrite !content_app, content_strip, app_assoc.
    + unfold state_content at 1. cbn [fst snd].
      now rewrite state_content_flush, content_snoc_stop, content_strip.
  - apply truthy_false in Ht. rewrite <- (content_strip s), Ht.
    simpl. now rewrite app_nil_r.
Qed.

Lemma state_content_chunks (m : Z) (l : list text) (st : chunker_state) :
  state_content (fold_left (chunk_step m) l st)
  = state_content st ++ content (concat l).
Proof.
  revert st. induction l as [|s l IH]; intros st; simpl.
  - now rewrite app_nil_r.
  - now rewrite IH, state_content_chunk_step, content_app, app_assoc.
Qed.

(** *** Oversized fragments are emitted whole *)

Section Emission.
Variable max_chunk_size : Z.

Lemma in_flush (chunks : list text) (cur u : text) :
  In u chunks -> In u (flush chunks cur).
Proof.
  intros H. unfold flush. destruct (truthy cur); [|exact H].
  apply in_or_app. now left.
Qed.

Lemma emitted_flush (P : text -> Prop) (chunks : list text) (cur f : text) :
  (forall g, P g -> oversized max_chunk_size g) ->
  emitted P (chunks, cur) -> P f ->
  In (f ++ [FULL_STOP_CJK]) (flush chunks cur).
Proof.
  intros HP Hem Hf. destruct (Hem f Hf) as [H|H]; simpl in H.
  - now apply in_flush.
  - unfold flush. subst cur.
    destruct (HP f Hf) as [Hsolid _].
    rewrite strip_solid_snoc by (auto; reflexivity).
    destruct (f ++ [FULL_STOP_CJK]) eqn:E; [now destruct f|].
    simpl truthy. cbv iota. apply in_or_app. right. now left.
Qed.

Lemma emitted_not_extended (P : text -> Prop) (chunks : list text)
      (cur x f : text) :
  (forall g, P g -> oversized max_chunk_size g) ->
  emitted P (chunks, cur) -> P f ->
  len cur + len x < max_chunk_size ->
  In (f ++ [FULL_STOP_CJK]) chunks.
Proof.
  intros HP Hem Hf Hlt. destruct (Hem f Hf) as [H|H]; simpl in H; [exact H|].
  destruct (HP f Hf) as [_ Hbig]. rewrite <- H in Hbig.
  pose proof (len_nonneg x). lia.
Qed.

Lemma emitted_sentence_step (P : text -> Prop) (st : chunker_state) (s : text) :
  (forall g, P g -> oversized max_chunk_size g) ->
  terminator_free s ->
  emitted P st ->
  emitted (fun f => P f \/ (f = strip s /\ truthy f = true
                            /\ max_chunk_size <= len (f ++ [FULL_STOP_CJK])))
          (sentence_step max_chunk_size st s).
Proof.
  intros HP Hfree Hem. destruct st as [chunks cur]. unfold sentence_step.
  destruct (truthy (strip s)) eqn:Ht; simpl negb; cbv iota.
  - rewrite (endswith_terminator_free (strip s))
      by now apply terminator_free_strip.
    simpl negb. cbv iota.
    destruct (Z.ltb_spec (len cur + len (strip s ++ [FULL_STOP_CJK]))
                max_chunk_size) as [Hlt|Hge]; intros f [Hf|(-> & _ & Hbig)].
    + left. simpl. eapply emitted_not_extended; eauto.
    + pose proof (len_nonneg cur). lia.
    + left. simpl. eapply emitted_flush; eauto.
    + now right.
  - intros f [Hf|(-> & Hf & _)]; [now apply Hem|congruence].
Qed.

Lemma emitted_sentences (l : list text) (P : text -> Prop) (st : chunker_state) :
  (forall g, P g -> oversized max_chunk_size g) ->
  (forall s, In s l -> terminator_free s) ->
  emitted P st ->
  emitted (fun f => P f \/ exists s, In s l /\ f = strip s /\ truthy f = true
                            /\ max_chunk_size <= len (f ++ [FULL_STOP_CJK]))
          (fold_left (sentence_step max_chunk_size) l st).
Proof.
  revert P st. induction l as [|s l IH]; intros P st HP Hfree Hem; simpl.
  - intros f [Hf|(s & [] & _)]. now apply Hem.
  - pose proof (emitted_sentence_step P st s HP (Hfree s (or_introl eq_refl)) Hem)
      as Hstep.
    eapply IH in Hstep.
    + intros f Hf. apply Hstep. destruct Hf as [Hf|(x & [<-|Hx] & Hrest)].
      * now left; left.
      * now left; right.
      * right. eauto.
    + intros g [Hg|(-> & Hg & Hbig)]; [now apply HP|].
      split; [|exact Hbig]. apply strip_truthy_solid. exact Hg.
    + intros x Hx. apply Hfree. now right.
Qed.

Lemma emitted_paragraph_step (P : text -> Prop) (st : chunker_state) (p : text) :
  (forall g, P g -> oversized max_chunk_size g) ->
  emitted P st ->
  emitted (fun f => P f \/ (truthy (strip p) = true
                            /\ len (strip p) > max_chunk_size
                            /\ In f (sentences (strip p))
                            /\ max_chunk_size <= len (f ++ [FULL_STOP_CJK])))
          (paragraph_step max_chunk_size st p).
Proof.
  intros HP Hem. destruct st as [chunks cur]. unfold paragraph_step.
  destruct (truthy (strip p)) eqn:Ht; simpl negb; cbv iota.
  - destruct (Z.gtb_spec (len (strip p)) max_chunk_size) as [Hbig|Hsmall].
    + pose proof (emitted_sentences (re_split (strip p)) P (chunks, cur) HP
                    (fun s => re_split_terminator_free (strip p) s) Hem) as H.
      intros f Hf. apply H. destruct Hf as [Hf|(_ & _ & Hin & Hlen)].
      * now left.
      * right. apply in_sentences in Hin. destruct Hin as (s & Hs & -> & Hts).
        eauto.
    + destruct (Z.ltb_spec (len cur + len (strip p)) max_chunk_size)
        as [Hlt|Hge]; intros f [Hf|(_ & Hlen & _)]; try lia.
      * left. simpl. eapply emitted_not_extended; eauto.
      * left. simpl. eapply emitted_flush; eauto.
  - intros f [Hf|(Hf & _)]; [now apply Hem|congruence].
Qed.

Lemma emitted_paragraphs (l : list text) (P : text -> Prop) (st : chunker_state) :
  (forall g, P g -> oversized max_chunk_size g) ->
  emitted P st ->
  emitted (fun f => P f \/ exists p, In p l /\ truthy (strip p) = true
                            /\ len (strip p) > max_chunk_size
                            /\ In f (sentences (strip p))
                            /\ max_chunk_size <= len (f ++ [FULL_STOP_CJK]))
          (fold_left (paragraph_step max_chunk_size) l st).
Proof.
  revert P st. induction l as [|p l IH]; intros P st HP Hem; simpl.
  - intros f [Hf|(s & [] & _)]. now apply Hem.
  - pose proof (emitted_paragraph_step P st p HP Hem) as Hstep.
    eapply IH in Hstep.
    + intros f Hf. apply Hstep. destruct Hf as [Hf|(x & [<-|Hx] & Hrest)].
      * now left; left.
      * now left; right.
      * right. eauto.
    + intros g [Hg|(_ & _ & Hin & Hbig)]; [now apply HP|].
      split; [|exact Hbig]. apply in_sentences in Hin.
      destruct Hin as (s & _ & -> & Hts). now apply strip_truthy_solid.
Qed.

Lemma emitted_chunk_step (P : text -> Prop) (st : chunker_state) (s : text) :
  (forall g, P g -> oversized max_chunk_size g) ->
  emitted P st ->
  emitted (fun f => P f \/ (f = strip s /\ truthy f = true
                            /\ max_chunk_size <= len (f ++ [FULL_STOP_CJK])))
          (chunk_step max_chunk_size st s).
Proof.
  intros HP Hem. destruct st as [chunks cur]. unfold chunk_step.
  destruct (truthy (strip s)) eqn:Ht; simpl negb; cbv iota.
  - destruct (Z.ltb_spec (len cur + len (strip s)) max_chunk_size)
      as [Hlt|Hge]; intros f [Hf|(-> & _ & Hbig)].
    + left. simpl. eapply emitted_not_extended; eauto.
    + rewrite len_app in Hbig. change (len [FULL_STOP_CJK]) with 1 in Hbig.
      pose proof (len_nonneg cur). 
      (* len cur + len f < max <= len f + 1 forces cur = [] and equality *)
      destruct cur as [|c cur]; [|unfold len in *; simpl length in *; lia].
      right. reflexivity.
    + left. simpl. eapply emitted_flush; eauto.
    + now right.
  - intros f [Hf|(-> & Hf & _)]; [now apply Hem|congruence].
Qed.

Lemma emitted_chunks (l : list text) (P : text -> Prop) (st : chunker_state) :
  (forall g, P g -> oversized max_chunk_size g) ->
  emitted P st ->
  emitted (fun f => P f \/ exists s, In s l /\ f = strip s /\ truthy f = true
                            /\ max_chunk_size <= len (f ++ [FULL_STOP_CJK]))
          (fold_left (chunk_step max_chunk_size) l st).
Proof.
  revert P st. induction l as [|s l IH]; intros P st HP Hem; simpl.
  - intros f [Hf|(s & [] & _)]. now apply Hem.
  - pose proof (emitted_chunk_step P st s HP Hem) as Hstep.
    eapply IH in Hstep.
    + intros f Hf. apply Hstep. destruct Hf as [Hf|(x & [<-|Hx] & Hrest)].
      * now left; left.
      * now left; right.
      * right. eauto.
    + intros g [Hg|(-> & Hg & Hbig)]; [now apply HP|].
      split; [|exact Hbig]. apply strip_truthy_solid. exact Hg.
Qed.

End Emission.

(** *** Sentences of [split_text_into_chunks] *)

Lemma rstrip_ends_solid (t : text) :
  rstrip t = [] \/ exists x c, rstrip t = x ++ [c] /\ isspace c = false.
Proof.
  induction t as [|a t IH]; simpl; [now left|].
  destruct (rstrip t) as [|b r] eqn:E.
  - destruct (isspace a) eqn:Ha; [now left|].
    right. exists [], a. auto.
  - right. destruct IH as [IH|(x & c & IH & Hc)]; [discriminate|].
    exists (a :: x), c. rewrite IH. auto.
Qed.

Lemma strip_fixed (y : text) :
  starts_solid y -> (exists x c, y = x ++ [c] /\ isspace c = false) ->
  strip y = y.
Proof.
  intros (a & r & -> & Ha) (x & c & E & Hc). unfold strip.
  rewrite lstrip_solid by assumption. rewrite E.
  now apply rstrip_snoc_solid.
Qed.

Lemma strip_idempotent (t : text) : strip (strip t) = strip t.
Proof.
  destruct (strip_cases t) as [E|Hsolid]; [now rewrite E|].
  apply strip_fixed; [exact Hsolid|].
  unfold strip in *. destruct (rstrip_ends_solid (lstrip t)) as [E|H]; [|exact H].
  rewrite E in Hsolid. destruct Hsolid as (a & r & Habs & _). discriminate.
Qed.

Lemma closed_chunk_strip (cur : text) : closed_chunk cur -> strip cur = cur.
Proof.
  intros [->|(x & Hx & ->)]; [reflexivity|].
  now apply strip_solid_snoc.
Qed.

Lemma closed_chunk_flush (chunks : list text) (cur : text) :
  closed_chunk cur -> concat (flush chunks cur) = concat chunks ++ cur.
Proof.
  intros Hc. unfold flush. destruct cur as [|c cur]; simpl truthy; cbv iota.
  - now rewrite app_nil_r.
  - rewrite concat_app, (closed_chunk_strip _ Hc). simpl.
    now rewrite app_nil_r.
Qed.

Lemma starts_solid_app (x y : text) : starts_solid x -> starts_solid (x ++ y).
Proof. intros (a & r & -> & Ha). now exists a, (r ++ y). Qed.

Lemma closed_chunk_extend (cur s : text) :
  closed_chunk cur -> starts_solid s ->
  closed_chunk (cur ++ s ++ [FULL_STOP_CJK]).
Proof.
  intros [->|(x & Hx & ->)] Hs; right.
  - exists s. auto.
  - exists ((x ++ [FULL_STOP_CJK]) ++ s). split.
    + rewrite <- app_assoc. now apply starts_solid_app.
    + now rewrite app_assoc.
Qed.

Lemma chunk_step_sentences (m : Z) (st : chunker_state) (s : text) :
  closed_chunk (snd st) ->
  closed_chunk (snd (chunk_step m st s))
  /\ concat (fst (chunk_step m st s)) ++ snd (chunk_step m st s)
     = (concat (fst st) ++ snd st)
       ++ concat (map with_stop (nonempty_stripped [s])).
Proof.
  destruct st as [chunks cur]. cbn [fst snd]. intros Hc.
  unfold chunk_step, nonempty_stripped. cbn [map List.filter].
  destruct (truthy (strip s)) eqn:Ht; simpl negb; cbv iota.
  - pose proof (strip_truthy_solid s Ht) as Hsolid.
    cbn [concat map]. unfold with_stop. rewrite app_nil_r.
    destruct (_ <? _); cbn [fst snd].
    + split; [now apply closed_chunk_extend|now rewrite app_assoc].
    + split; [right; eauto|]. now rewrite closed_chunk_flush.
  - split; [exact Hc|]. cbn [fst snd concat map]. now rewrite app_nil_r.
Qed.

Lemma nonempty_stripped_cons (s : text) (l : list text) :
  nonempty_stripped (s :: l) = nonempty_stripped [s] ++ nonempty_stripped l.
Proof.
  unfold nonempty_stripped. cbn [map List.filter].
  destruct (truthy (strip s)); reflexivity.
Qed.

Lemma chunks_fold_sentences (m : Z) (l : list text) (st : chunker_state) :
  closed_chunk (snd st) ->
  closed_chunk (snd (fold_left (chunk_step m) l st))
  /\ concat (fst (fold_left (chunk_step m) l st))
     ++ snd (fold_left (chunk_step m) l st)
     = (concat (fst st) ++ snd st)
       ++ concat (map with_stop (nonempty_stripped l)).
Proof.
  revert st. induction l as [|s l IH]; intros st Hc; simpl fold_left.
  - split; [exact Hc|]. cbn. now rewrite app_nil_r.
  - destruct (chunk_step_sentences m st s Hc) as [Hc1 E1].
    destruct (IH _ Hc1) as [Hc2 E2]. split; [exact Hc2|].
    rewrite E2, E1, (nonempty_stripped_cons s l), map_app, concat_app.
    now rewrite <- !app_assoc.
Qed.

Lemma re_split_app_terminator (s rest : text) (c : char) :
  terminator_free s -> is_terminator c = true ->
  re_split (s ++ c :: rest) = s :: re_split rest.
Proof.
  intros Hs Hc. induction Hs as [|a s Ha Hs IH]; simpl.
  - now rewrite Hc.
  - now rewrite Ha, IH.
Qed.

Lemma re_split_with_stops (l : list text) :
  Forall terminator_free l ->
  re_split (concat (map with_stop l)) = l ++ [[]].
Proof.
  induction 1 as [|s l Hs Hl IH]; [reflexivity|].
  cbn [map concat]. unfold with_stop at 1. rewrite <- app_assoc.
  cbn [app]. rewrite re_split_app_terminator by (auto; reflexivity).
  now rewrite IH.
Qed.

Lemma sentences_with_stops (l : list text) :
  Forall (fun s => terminator_free s /\ strip s = s /\ truthy s = true) l ->
  sentences (concat (map with_stop l)) = l.
Proof.
  intros H. unfold sentences. rewrite re_split_with_stops.
  - unfold nonempty_stripped. rewrite map_app, List.filter_app.
    cbn [map List.filter strip lstrip rstrip truthy]. rewrite app_nil_r.
    induction H as [|s l (_ & Hs & Ht) Hl IH]; [reflexivity|].
    cbn [map List.filter]. now rewrite Hs, Ht, IH.
  - eapply List.Forall_impl; [|exact H]. now intros s (Hs & _).
Qed.

(** *** The two chunking claims *)

Lemma fold_state_eta {A} (f : chunker_state -> A) (st : chunker_state) :
  (let '(chunks, cur) := st in f (chunks, cur)) = f st.
Proof. now destruct st. Qed.

Lemma split_text_smart_eq (t : text) (m : Z) :
  split_text_smart t m
  = flush (fst (fold_left (paragraph_step m) (split_paragraphs t) ([], [])))
          (snd (fold_left (paragraph_step m) (split_paragraphs t) ([], []))).
Proof. unfold split_text_smart. now destruct (fold_left _ _ _). Qed.

Lemma split_text_into_chunks_eq (t : text) (m : Z) :
  split_text_into_chunks t m
  = flush (fst (fold_left (chunk_step m) (re_split t) ([], [])))
          (snd (fold_left (chunk_step m) (re_split t) ([], []))).
Proof. unfold split_text_into_chunks. now destruct (fold_left _ _ _). Qed.

Lemma state_ok_init (F : text -> Prop) (m : Z) : state_ok F m ([], []).
Proof. split; [constructor|]. now left. Qed.

Lemma emitted_init (st : chunker_state) : emitted (fun _ => False) st.
Proof. intros f []. Qed.

(** C5: every unit of either chunker is at most [max_chunk_size]
    characters long, except a unit that is exactly one sentence fragment
    with its terminator re-appended; and every fragment that reaches the
    limit with its terminator is emitted whole as a unit of its own. *)
Theorem chunk_units_bounded (t : text) (max_chunk_size : Z) :
  (forall u, In u (split_text_smart t max_chunk_size) ->
     len u <= max_chunk_size
     \/ exists f, In f (smart_sentences t max_chunk_size)
                  /\ u = f ++ [FULL_STOP_CJK])
  /\ (forall f, In f (smart_sentences t max_chunk_size) ->
       max_chunk_size <= len (f ++ [FULL_STOP_CJK]) ->
       In (f ++ [FULL_STOP_CJK]) (split_text_smart t max_chunk_size))
  /\ (forall u, In u (split_text_into_chunks t max_chunk_size) ->
       len u <= max_chunk_size
       \/ exists f, In f (sentences t) /\ u = f ++ [FULL_STOP_CJK])
  /\ (forall f, In f (sentences t) ->
       max_chunk_size <= len (f ++ [FULL_STOP_CJK]) ->
       In (f ++ [FULL_STOP_CJK]) (split_text_into_chunks t max_chunk_size)).
Proof.
  repeat split.
  - intros u Hu. rewrite split_text_smart_eq in Hu.
    set (st := fold_left _ _ _) in Hu.
    assert (Hst : state_ok (fun f => In f (smart_sentences t max_chunk_size))
                    max_chunk_size st).
    { apply paragraphs_fold_ok; [apply state_ok_init|].
      intros p Hp Hlen s Hs Hts. apply in_smart_sentences.
      exists p. repeat split; auto.
      - destruct (strip p) eqn:E; [|reflexivity].
        unfold len in Hlen. simpl in Hlen.
        (* an empty paragraph is skipped before the length test; its
           fragments are those of the empty text *)
        simpl in Hs. destruct Hs as [<-|[]]. discriminate.
      - apply in_sentences. eauto. }
    destruct st as [chunks cur]. apply flush_ok in Hst.
    rewrite List.Forall_forall in Hst. exact (Hst u Hu).
  - intros f Hf Hbig. rewrite split_text_smart_eq.
    set (st := fold_left _ _ _).
    pose proof (emitted_paragraphs max_chunk_size (split_paragraphs t)
                  (fun _ => False) ([], []) (fun g (H : False) => match H with end)
                  (emitted_init _)) as Hem.
    fold st in Hem. destruct st as [chunks cur].
    refine (emitted_flush max_chunk_size _ chunks cur f _ Hem _).
    + intros g [[]|(p & _ & _ & _ & Hin & Hg)]. split; [|exact Hg].
      apply in_sentences in Hin. destruct Hin as (s & _ & -> & Hts).
      now apply strip_truthy_solid.
    + right. apply in_smart_sentences in Hf.
      destruct Hf as (p & Hp & Ht & Hlen & Hin). exists p. auto.
  - intros u Hu. rewrite split_text_into_chunks_eq in Hu.
    set (st := fold_left _ _ _) in Hu.
    assert (Hst : state_ok (fun f => In f (sentences t)) max_chunk_size st).
    { apply chunks_fold_ok; [apply state_ok_init|].
      intros s Hs Hts. apply in_sentences. eauto. }
    destruct st as [chunks cur]. apply flush_ok in Hst.
    rewrite List.Forall_forall in Hst. exact (Hst u Hu).
  - intros f Hf Hbig. rewrite split_text_into_chunks_eq.
    set (st := fold_left _ _ _).
    pose proof (emitted_chunks max_chunk_size (re_split t)
                  (fun _ => False) ([], []) (fun g (H : False) => match H with end)
                  (emitted_init _)) as Hem.
    fold st in Hem. destruct st as [chunks cur].
    refine (emitted_flush max_chunk_size _ chunks cur f _ Hem _).
    + intros g [[]|(s & _ & -> & Hts & Hg)]. split; [|exact Hg].
      now apply strip_truthy_solid.
    + right. apply in_sentences in Hf. destruct Hf as (s & Hs & -> & Hts).
      eauto.
Qed.

Lemma sentences_are_fixed (t : text) :
  Forall (fun s => terminator_free s /\ strip s = s /\ truthy s = true)
         (sentences t).
Proof.
  apply List.Forall_forall. intros f Hf. apply in_sentences in Hf.
  destruct Hf as (s & Hs & -> & Ht). repeat split.
  - apply terminator_free_strip. eapply re_split_terminator_free; eauto.
  - apply strip_idempotent.
  - exact Ht.
Qed.

(** C6: the concatenated units of either chunker carry the sentence
    content of the input text (its characters other than terminators and
    white space), complete and in the original order; and the units of
    [split_text_into_chunks], concatenated, split again into exactly the
    sentences of the input, in the same order. *)
Theorem chunk_units_preserve_content (t : text) (max_chunk_size : Z) :
  content (concat (split_text_smart t max_chunk_size)) = content t
  /\ content (concat (split_text_into_chunks t max_chunk_size)) = content t
  /\ concat (split_text_into_chunks t max_chunk_size)
     = concat (map with_stop (sentences t))
  /\ sentences (concat (split_text_into_chunks t max_chunk_size))
     = sentences t.
Proof.
  assert (Hcat : concat (split_text_into_chunks t max_chunk_size)
                 = concat (map with_stop (sentences t))).
  { rewrite split_text_into_chunks_eq.
    destruct (chunks_fold_sentences max_chunk_size (re_split t) ([], []))
      as [Hc E]; [now left|].
    rewrite closed_chunk_flush by exact Hc. exact E. }
  split; [|split; [|split; [exact Hcat|]]]; cycle 2.
  { rewrite Hcat. apply sentences_with_stops, sentences_are_fixed. }
  - rewrite split_text_smart_eq.
    rewrite state_content_flush, <- surjective_pairing.
    rewrite state_content_paragraphs. simpl.
    apply content_split_paragraphs.
  - rewrite split_text_into_chunks_eq.
    rewrite state_content_flush, <- surjective_pairing.
    rewrite state_content_chunks. simpl.
    apply content_re_split.
Qed.

(** C5 on the example text with limit 5: the unit [efghij。] is longer
    than the limit and is the fragment [efghij] with its terminator. *)
Lemma chunk_units_bounded_witness :
  In ([101; 102; 103; 104; 105; 106; 12290]%N : text)
     (split_text_smart example_text 5)
  /\ (len [101; 102; 103; 104; 105; 106; 12290]%N <= 5
      \/ exists f, In f (smart_sentences example_text 5)
                   /\ [101; 102; 103; 104; 105; 106; 12290]%N
                      = f ++ [FULL_STOP_CJK]).
Proof.
  split.
  - vm_compute. tauto.
  - apply (proj1 (chunk_units_bounded example_text 5)). vm_compute. tauto.
Defined.

Example split_text_smart_example :
  split_text_smart example_text 5
  = [[97; 98; 12290]; [99; 100; 12290];
     [101; 102; 103; 104; 105; 106; 12290]; [107; 12290]]%N.
Proof. reflexivity. Qed.

Example split_text_smart_short_paragraphs :
  split_text_smart example_text 50
  = [[97; 98; 46; 32; 99; 100; 33; 10; 101; 102; 103; 104; 105; 106; 46;
      107]]%N.
Proof. reflexivity. Qed.

Example split_text_into_chunks_example :
  split_text_into_chunks example_text 8
  = [[97; 98; 12290; 99; 100; 12290];
     [101; 102; 103; 104; 105; 106; 12290]; [107; 12290]]%N.
Proof. reflexivity. Qed.

End ChunkerFacts.

(* ===================================================================== *)
(** ** Properties of the catalogue order *)
(* ===================================================================== *)

Module CatalogFacts.
Import Catalog.

(** *** Splitting file names *)

Lemma split_nonempty (sep : ascii) (s : string) : split sep s <> [].
Proof.
  destruct s as [|c s]; simpl; [discriminate|].
  destruct (Ascii.eqb c sep); [discriminate|].
  destruct (split sep s); discriminate.
Qed.

Lemma split_avoids (sep : ascii) (s : string) :
  avoids sep s = true -> split sep s = [s].
Proof.
  induction s as [|c s IH]; simpl; [reflexivity|].
  intros H. apply andb_true_iff in H. destruct H as [Hc Hs].
  apply negb_true_iff in Hc. rewrite Hc, (IH Hs). reflexivity.
Qed.

Lemma split_app_sep (sep : ascii) (a b : string) :
  avoids sep a = true ->
  split sep (a ++ String sep b) = a :: split sep b.
Proof.
  induction a as [|c a IH]; simpl.
  - intros _. now rewrite Ascii.eqb_refl.
  - intros H. apply andb_true_iff in H. destruct H as [Hc Ha].
    apply negb_true_iff in Hc. rewrite Hc, (IH Ha). reflexivity.
Qed.

Lemma split_app_sep_any (sep : ascii) (a b : string) :
  exists pre, pre <> [] /\ split sep (a ++ String sep b) = pre ++ split sep b.
Proof.
  induction a as [|c a (pre & Hpre & IH)]; simpl.
  - exists [""%string]. rewrite Ascii.eqb_refl. split; [discriminate|reflexivity].
  - rewrite IH. destruct (Ascii.eqb c sep).
    + exists (""%string :: pre). split; [discriminate|reflexivity].
    + destruct pre as [|p pre]; [contradiction|].
      exists (String c p :: pre). split; [discriminate|reflexivity].
Qed.

Lemma last_app_nonempty {A} (pre l : list A) (d : A) :
  l <> [] -> List.last (pre ++ l) d = List.last l d.
Proof.
  intros Hl. induction pre as [|x pre IH]; [reflexivity|].
  simpl. destruct (pre ++ l) eqn:E; [|exact IH].
  apply app_eq_nil in E. destruct E. contradiction.
Qed.

Lemma basename_join (folder name : string) :
  avoids "/" name = true ->
  basename (folder ++ String "/" name) = name.
Proof.
  intros H. unfold basename.
  destruct (split_app_sep_any "/" folder name) as (pre & _ & ->).
  rewrite last_app_nonempty by apply split_nonempty.
  now rewrite split_avoids.
Qed.

Lemma avoids_app (sep : ascii) (a b : string) :
  avoids sep (a ++ b) = avoids sep a && avoids sep b.
Proof.
  induction a as [|c a IH]; simpl; [reflexivity|].
  now rewrite IH, andb_assoc.
Qed.

(** *** Decimal digits *)

Lemma digit_value_range (c : ascii) (d : Z) :
  digit_value c = Some d ->
  48 <= Z.of_N (N_of_ascii c) <= 57 /\ d = Z.of_N (N_of_ascii c) - 48.
Proof.
  unfold digit_value. intros H.
  destruct (Z.leb_spec 48 (Z.of_N (N_of_ascii c)));
    destruct (Z.leb_spec (Z.of_N (N_of_ascii c)) 57);
    simpl in H; inversion H; lia.
Qed.

Lemma is_digit_code (c : ascii) :
  is_digit c = true -> 48 <= Z.of_N (N_of_ascii c) <= 57.
Proof.
  unfold is_digit. destruct (digit_value c) eqn:E; [|discriminate].
  intros _. now apply digit_value_range in E.
Qed.

Lemma is_digit_neq (c sep : ascii) :
  is_digit c = true ->
  (Z.of_N (N_of_ascii sep) < 48 \/ 57 < Z.of_N (N_of_ascii sep)) ->
  Ascii.eqb c sep = false.
Proof.
  intros Hc Hsep. apply is_digit_code in Hc.
  destruct (Ascii.eqb_spec c sep) as [->|]; [lia|reflexivity].
Qed.

Lemma is_digit_not_space (c : ascii) : is_digit c = true -> is_space c = false.
Proof.
  intros Hc. apply is_digit_code in Hc.
  assert (H1 : (N_of_ascii c <=? 13)%N = false) by (apply N.leb_gt; lia).
  assert (H2 : (N_of_ascii c =? 32)%N = false) by (apply N.eqb_neq; lia).
  unfold is_space. cbv zeta. now rewrite H1, H2, andb_false_r.
Qed.

Lemma all_digits_avoids (sep : ascii) (s : string) :
  all_digits s = true ->
  (Z.of_N (N_of_ascii sep) < 48 \/ 57 < Z.of_N (N_of_ascii sep)) ->
  avoids sep s = true.
Proof.
  intros Hs Hsep. induction s as [|c s IH]; simpl in *; [reflexivity|].
  apply andb_true_iff in Hs. destruct Hs as [Hc Hs].
  rewrite (is_digit_neq c sep Hc Hsep), (IH Hs). reflexivity.
Qed.

Lemma skip_spaces_number (s : string) : all_digits s = true -> skip_spaces s = s.
Proof.
  destruct s as [|c s]; simpl; [reflexivity|].
  intros H. apply andb_true_iff in H. destruct H as [Hc _].
  now rewrite (is_digit_not_space c Hc).
Qed.

Lemma drop_trailing_spaces_number (s : string) : all_digits s = true -> drop_trailing_spaces s = s.
Proof.
  induction s as [|c s IH]; simpl; [reflexivity|].
  intros H. apply andb_true_iff in H. destruct H as [Hc Hs].
  rewrite (IH Hs), (is_digit_not_space c Hc). destruct s; reflexivity.
Qed.

Lemma parse_digits_all (s : string) (acc : Z) :
  all_digits s = true ->
  parse_digits acc s
  = Some (fold_left (fun a c => 10 * a + (Z.of_N (N_of_ascii c) - 48))
                    (list_ascii_of_string s) acc).
Proof.
  revert acc. induction s as [|c s IH]; simpl; intros acc H; [reflexivity|].
  apply andb_true_iff in H. destruct H as [Hc Hs].
  unfold is_digit in Hc. destruct (digit_value c) as [d|] eqn:E; [|discriminate].
  apply digit_value_range in E. destruct E as [_ ->]. now apply IH.
Qed.

Lemma py_int_number (s : string) : is_number s -> py_int s = Some (decimal s).
Proof.
  intros [Hne Hd]. unfold py_int.
  rewrite (skip_spaces_number s Hd), (drop_trailing_spaces_number s Hd).
  destruct s as [|c s]; [contradiction|].
  pose proof Hd as Hd'. simpl in Hd'. apply andb_true_iff in Hd'.
  destruct Hd' as [Hc _].
  rewrite (is_digit_neq c "+" Hc), (is_digit_neq c "-" Hc)
    by (left; vm_compute; reflexivity).
  unfold parse_nonempty_digits. now rewrite parse_digits_all.
Qed.

Lemma sort_key_chunk_path (folder number : string) :
  is_number number ->
  sort_key (chunk_path folder number) = Some (decimal number).
Proof.
  intros Hn. pose proof Hn as [_ Hd]. unfold sort_key, chunk_path.
  change (folder ++ "/chunk_" ++ number ++ ".wav")%string
    with (folder ++ String "/" ("chunk_" ++ number ++ ".wav"))%string.
  rewrite basename_join.
  - change ("chunk_" ++ number ++ ".wav")%string
      with ("chunk" ++ String "_" (number ++ String "." "wav"))%string.
    rewrite split_app_sep by reflexivity.
    rewrite (split_avoids "_").
    + simpl nth_error. cbv iota beta. rewrite split_app_sep.
      * now apply py_int_number.
      * apply all_digits_avoids; [exact Hd|left; vm_compute; reflexivity].
    + rewrite avoids_app, (all_digits_avoids "_" number);
        [reflexivity|exact Hd|right; vm_compute; reflexivity].
  - change ("chunk_" ++ number ++ ".wav")%string
      with ("chunk_" ++ (number ++ ".wav"))%string.
    rewrite !avoids_app, (all_digits_avoids "/" number);
      [reflexivity|exact Hd|left; vm_compute; reflexivity].
Qed.

(** *** The stable insertion sort *)

Lemma insert_keyed_perm (kx : Z * string) (l : list (Z * string)) :
  Permutation (insert_keyed kx l) (kx :: l).
Proof.
  induction l as [|ky l IH]; simpl; [reflexivity|].
  destruct (fst kx <=? fst ky); [reflexivity|].
  rewrite IH. apply perm_swap.
Qed.

Lemma sort_keyed_perm (l : list (Z * string)) : Permutation (sort_keyed l) l.
Proof.
  induction l as [|kx l IH]; simpl; [reflexivity|].
  rewrite insert_keyed_perm. now apply perm_skip.
Qed.

Lemma insert_keyed_sorted (kx : Z * string) (l : list (Z * string)) :
  StronglySorted key_le l -> StronglySorted key_le (insert_keyed kx l).
Proof.
  induction 1 as [|ky l Hl IH Hky]; simpl.
  - repeat constructor.
  - destruct (Z.leb_spec (fst kx) (fst ky)) as [Hle|Hgt].
    + constructor; [now constructor|]. constructor; [exact Hle|].
      rewrite List.Forall_forall in *. intros z Hz.
      specialize (Hky z Hz). unfold key_le in *. lia.
    + constructor; [exact IH|].
      rewrite List.Forall_forall in *. intros z Hz.
      apply (Permutation_in _ (insert_keyed_perm kx l)) in Hz.
      destruct Hz as [<-|Hz]; [unfold key_le; lia|auto].
Qed.

Lemma sort_keyed_sorted (l : list (Z * string)) :
  StronglySorted key_le (sort_keyed l).
Proof.
  induction l as [|kx l IH]; simpl; [constructor|].
  now apply insert_keyed_sorted.
Qed.

Lemma decorate_chunk_paths (folder : string) (numbers : list string) :
  Forall is_number numbers ->
  decorate (map (chunk_path folder) numbers)
  = Some (map (keyed_chunk folder) numbers).
Proof.
  induction 1 as [|d ds Hd Hds IH]; simpl; [reflexivity|].
  now rewrite (sort_key_chunk_path folder d Hd), IH.
Qed.

Lemma sorted_keyed_chunks (folder : string) (numbers : list string) :
  StronglySorted key_le (map (keyed_chunk folder) numbers) ->
  StronglySorted Z.le (map decimal numbers).
Proof.
  induction numbers as [|d ds IH]; simpl; intros H; [constructor|].
  apply StronglySorted_inv in H. destruct H as [Hs Hd].
  constructor; [now apply IH|].
  rewrite List.Forall_forall in *. intros z Hz.
  apply in_map_iff in Hz. destruct Hz as (x & <- & Hx).
  apply (Hd (keyed_chunk folder x)). apply in_map_iff. eauto.
Qed.

(** C4: the catalogue orders chunk files by the integer in their name.
    For every folder and every list of names [chunk_<N>.wav] the sort
    succeeds and returns the same files with non-decreasing integer values
    of [N]; whatever order the directory scan returns [chunk_0.wav],
    [chunk_2.wav], [chunk_10.wav] in, the result is that numeric order,
    although as strings [chunk_10.wav] precedes [chunk_2.wav]. *)
Theorem catalog_orders_by_number :
  (forall (folder : string) (numbers : list string),
      Forall is_number numbers ->
      exists sorted,
        sort_files (map (chunk_path folder) numbers)
        = Some (map (chunk_path folder) sorted)
        /\ Permutation sorted numbers
        /\ StronglySorted Z.le (map decimal sorted))
  /\ (forall found : list string,
        Permutation found ["temp_audio_chunks/chunk_0.wav";
                           "temp_audio_chunks/chunk_2.wav";
                           "temp_audio_chunks/chunk_10.wav"]%string ->
        sort_files found = Some ["temp_audio_chunks/chunk_0.wav";
                                 "temp_audio_chunks/chunk_2.wav";
                                 "temp_audio_chunks/chunk_10.wav"]%string)
  /\ String.ltb "temp_audio_chunks/chunk_10.wav"
                "temp_audio_chunks/chunk_2.wav" = true.
Proof.
  split; [|split].
  - intros folder numbers Hn. unfold sort_files.
    rewrite (decorate_chunk_paths folder numbers Hn). simpl option_map.
    pose proof (sort_keyed_perm (map (keyed_chunk folder) numbers)) as Hp.
    pose proof (sort_keyed_sorted (map (keyed_chunk folder) numbers)) as Hs.
    apply Permutation.Permutation_map_inv in Hp.
    destruct Hp as (sorted & E & Hp). rewrite E in *.
    exists sorted. repeat split.
    + now rewrite map_map.
    + now symmetry.
    + now apply (sorted_keyed_chunks folder).
  - intros found Hp. symmetry in Hp.
    apply permutations_Permutation in Hp. vm_compute in Hp.
    repeat (apply elem_of_cons in Hp; destruct Hp as [->|Hp];
            [vm_compute; reflexivity|]).
    now apply elem_of_nil in Hp.
  - vm_compute. reflexivity.
Qed.

(** C4 on the names [chunk_10.wav], [chunk_2.wav], [chunk_0.wav]. *)
Lemma catalog_orders_by_number_witness :
  Forall is_number ["10"; "2"; "0"]%string
  /\ exists sorted,
      sort_files (map (chunk_path "temp_audio_chunks") ["10"; "2"; "0"]%string)
      = Some (map (chunk_path "temp_audio_chunks") sorted)
      /\ Permutation sorted ["10"; "2"; "0"]%string
      /\ StronglySorted Z.le (map decimal sorted).
Proof.
  assert (H : Forall is_number ["10"; "2"; "0"]%string)
    by (repeat (constructor; [split; [discriminate|reflexivity]|]);
        constructor).
  split; [exact H|].
  exact (proj1 catalog_orders_by_number "temp_audio_chunks"%string
               ["10"; "2"; "0"]%string H).
Defined.

Example sort_key_zero_padded :
  sort_key "temp_audio_chunks/chunk_0010.wav" = Some 10.
Proof. reflexivity. Qed.

Example sort_key_not_a_number :
  sort_key "temp_audio_chunks/chunk_final.wav" = None.
Proof. reflexivity. Qed.

Example sort_files_is_stable :
  sort_files ["d/chunk_10.wav"; "d/chunk_2.wav"; "d/chunk_0.wav";
              "d/chunk_02.wav"]%string
  = Some ["d/chunk_0.wav"; "d/chunk_2.wav"; "d/chunk_02.wav";
          "d/chunk_10.wav"]%string.
Proof. reflexivity. Qed.

End CatalogFacts.

(* ===================================================================== *)
(** ** Properties of the merge tools *)
(* ===================================================================== *)

Module MergeFacts.
Import Catalog Merge.

(** *** Little-endian fields *)

Lemma Z_of_byte_of_Z (z : Z) : Z_of_byte (byte_of_Z z) = z mod 256.
Proof.
  unfold Z_of_byte, byte_of_Z.
  pose proof (Z.mod_pos_bound z 256 ltac:(lia)) as Hb.
  destruct (Byte.of_N (Z.to_N (z mod 256))) as [b|] eqn:E.
  - apply Byte.to_of_N in E. rewrite E. lia.
  - apply Byte.of_N_None_iff in E. lia.
Qed.

Lemma unpack_le32 (v : Z) : 0 <= v < 4294967296 -> unpack_L (le32 v) = v.
Proof.
  intros Hv. unfold unpack_L, le32. rewrite !Z_of_byte_of_Z.
  pose proof (Z.div_mod v 256 ltac:(lia)).
  pose proof (Z.div_mod (v / 256) 256 ltac:(lia)).
  pose proof (Z.div_mod (v / 65536) 256 ltac:(lia)).
  assert (v / 65536 = v / 256 / 256) by (rewrite Z.div_div by lia; reflexivity).
  assert (v / 16777216 = v / 65536 / 256)
    by (rewrite Z.div_div by lia; reflexivity).
  assert (0 <= v / 16777216 < 256)
    by (split; [apply Z.div_pos; lia|apply Z.div_lt_upper_bound; lia]).
  rewrite (Z.mod_small (v / 16777216) 256) by lia.
  lia.
Qed.

Lemma pack_L_fits (v : Z) : 0 <= v < 4294967296 -> pack_L v = ret (le32 v).
Proof.
  intros Hv. unfold pack_L.
  destruct (Z.leb_spec 0 v); [|lia].
  destruct (Z.ltb_spec v 4294967296); [reflexivity|lia].
Qed.

Lemma pack_H_fits (v : Z) : 0 <= v < 65536 -> pack_H v = ret (le16 v).
Proof.
  intros Hv. unfold pack_H.
  destruct (Z.leb_spec 0 v); [|lia].
  destruct (Z.ltb_spec v 65536); [reflexivity|lia].
Qed.

Lemma pack_L_overflow (v : Z) : 4294967296 <= v -> pack_L v = raise StructError.
Proof.
  intros Hv. unfold pack_L.
  destruct (Z.ltb_spec v 4294967296); [lia|].
  now rewrite andb_false_r.
Qed.

(** *** The output handle *)

Lemma handle_write_at_end (data : list byte) (h : handle) :
  at_end h ->
  handle_write data h
  = {| content := content h ++ data;
       position := length (content h ++ data) |}.
Proof.
  unfold at_end, handle_write. intros ->.
  rewrite firstn_all, Nat.sub_diag. simpl repeat.
  rewrite skipn_all2 by lia.
  rewrite app_nil_r, length_app. reflexivity.
Qed.

(** *** The copy loop *)

Lemma process_chunk_effect (d : disk) (params : wave_params)
      (wav_file : string) (s : state) :
  process_chunk d params wav_file s
  = (Ok tt, chunk_effect d params wav_file s).
Proof.
  unfold process_chunk, chunk_effect, try_except, bind, open_wave.
  destruct (wave_open d wav_file) as [e|input_params frames].
  - reflexivity.
  - unfold ret. cbv beta iota.
    destruct (first4_eqb (first4 input_params) (first4 params)); reflexivity.
Qed.

Lemma for_each_chunks (d : disk) (params : wave_params)
      (l : list string) (s : state) :
  for_each l (process_chunk d params) s
  = (Ok tt, fold_left (fun s f => chunk_effect d params f s) l s).
Proof.
  revert s. induction l as [|f l IH]; intros s; simpl; [reflexivity|].
  unfold bind. rewrite process_chunk_effect. apply IH.
Qed.

Lemma for_each_app {A} (l1 l2 : list A) (body : A -> M unit) (s : state) :
  for_each (l1 ++ l2) body s
  = (let* _ := for_each l1 body in for_each l2 body) s.
Proof.
  revert s. induction l1 as [|x l1 IH]; intros s; simpl.
  - reflexivity.
  - unfold bind in *. destruct (body x s) as [[[]|e] s']; [|reflexivity].
    apply IH.
Qed.

(** The loop on the accepted chunks, in closed form. *)
Lemma chunks_closed_form (d : disk) (params : wave_params)
      (l : list string) (s : state) :
  at_end (out s) ->
  let s' := fold_left (fun s f => chunk_effect d params f s) l s in
  content (out s') = content (out s) ++ merged_data d params l
  /\ at_end (out s')
  /\ total_frames s' = total_frames s + merged_frames d params l.
Proof.
  revert s. induction l as [|f l IH]; intros s Hend; simpl.
  - rewrite app_nil_r. repeat split; [exact Hend|lia].
  - unfold chunk_effect at 2 4 6, accepted_frames.
    destruct (wave_open d f) as [e|p frames].
    + apply (IH {| out := out s; total_frames := total_frames s;
                   log := _ |}). exact Hend.
    + destruct (first4_eqb (first4 p) (first4 params)).
      * rewrite handle_write_at_end by exact Hend.
        match goal with |- context [fold_left _ l ?s0] =>
          destruct (IH s0) as (Hc & He & Ht) end.
        { unfold at_end. reflexivity. }
        simpl in *. rewrite Hc, Ht, <- app_assoc.
        repeat split; [exact He|lia].
      * apply (IH {| out := out s; total_frames := total_frames s;
                     log := _ |}). exact Hend.
Qed.

(** *** Batches *)

Lemma firstn_add {A} (n m : nat) (l : list A) :
  firstn (n + m) l = firstn n l ++ firstn m (skipn n l).
Proof.
  revert l. induction n as [|n IH]; intros l; simpl; [reflexivity|].
  destruct l as [|x l]; simpl.
  - now rewrite firstn_nil.
  - now rewrite IH.
Qed.

Lemma batch_slice {A} (l : list A) (k bs : nat) :
  slice l (k * bs) (Nat.min (k * bs + bs) (length l))
  = firstn bs (skipn (k * bs) l).
Proof.
  unfold slice.
  destruct (Nat.le_gt_cases (k * bs + bs) (length l)) as [Hle|Hgt].
  - rewrite Nat.min_l by lia. f_equal. lia.
  - rewrite Nat.min_r by lia.
    rewrite <- (firstn_all (skipn (k * bs) l)) at 1.
    rewrite firstn_firstn, length_skipn.
    rewrite (firstn_all2 (n := bs)) by (rewrite length_skipn; lia).
    rewrite firstn_all2 by (rewrite length_skipn; lia). reflexivity.
Qed.

Lemma batch_count_covers (n bs : nat) :
  (0 < bs)%nat -> (n <= batch_count n bs * bs)%nat.
Proof.
  intros Hbs. unfold batch_count.
  pose proof (Nat.div_mod_eq (n + bs - 1) bs) as E.
  pose proof (Nat.mod_upper_bound (n + bs - 1) bs ltac:(lia)) as Hr.
  nia.
Qed.

Lemma same_merge_refl (s : state) : same_merge s s.
Proof. repeat split. Qed.

Lemma same_merge_trans (s1 s2 s3 : state) :
  same_merge s1 s2 -> same_merge s2 s3 -> same_merge s1 s3.
Proof.
  intros (A1 & B1 & C1) (A2 & B2 & C2).
  repeat split; etransitivity; eauto.
Qed.

Lemma without_progress_app (l1 l2 : list message) :
  without_progress (l1 ++ l2) = without_progress l1 ++ without_progress l2.
Proof. apply List.filter_app. Qed.

Lemma same_merge_say (m : message) (s : state) :
  is_progress m = true -> same_merge (snd (say m s)) s.
Proof.
  intros Hm. repeat split. simpl.
  rewrite without_progress_app. simpl. rewrite Hm. simpl.
  apply app_nil_r.
Qed.

Lemma same_merge_chunk (d : disk) (params : wave_params) (f : string)
      (s1 s2 : state) :
  same_merge s1 s2 ->
  same_merge (chunk_effect d params f s1) (chunk_effect d params f s2).
Proof.
  intros (Ho & Ht & Hl). unfold chunk_effect.
  destruct (wave_open d f) as [e|p frames];
    [|destruct (first4_eqb (first4 p) (first4 params))];
    repeat split; simpl; rewrite ?without_progress_app; congruence.
Qed.

Lemma same_merge_chunks (d : disk) (params : wave_params) (l : list string)
      (s1 s2 : state) :
  same_merge s1 s2 ->
  same_merge (fold_left (fun s f => chunk_effect d params f s) l s1)
             (fold_left (fun s f => chunk_effect d params f s) l s2).
Proof.
  revert s1 s2. induction l as [|f l IH]; intros s1 s2 H; simpl; [exact H|].
  apply IH. now apply same_merge_chunk.
Qed.

(** After [k] batches the loop has copied the first [k * batch_size]
    chunks. *)
Lemma batches_prefix (d : disk) (params : wave_params) (l : list string)
      (bs total : nat) (k : nat) (s : state) :
  exists s',
    for_each (seq 0 k)
      (fun batch_num =>
         let start_idx := (batch_num * bs)%nat in
         let end_idx := Nat.min (start_idx + bs) (length l) in
         let batch_files := slice l start_idx end_idx in
         let* _ := say (MsgBatch (batch_num + 1) total
                                 (length batch_files)) in
         let* _ := for_each batch_files (process_chunk d params) in
         say (MsgProgress (batch_num + 1) total)) s
    = (Ok tt, s')
    /\ same_merge s'
         (fold_left (fun s f => chunk_effect d params f s)
                    (firstn (k * bs) l) s).
Proof.
  match goal with |- context [for_each _ ?b] => set (body := b) end.
  induction k as [|k (s' & Hrun & Hsame)].
  - exists s. split; [reflexivity|apply same_merge_refl].
  - rewrite seq_S, for_each_app.
    assert (Hlast : forall s0, exists s1,
               for_each [(0 + k)%nat] body s0 = (Ok tt, s1)
               /\ same_merge s1
                    (fold_left (fun s f => chunk_effect d params f s)
                               (firstn bs (skipn (k * bs) l)) s0)).
    { intros s0. simpl for_each. subst body. cbv beta zeta.
      unfold bind. unfold say at 1. cbv beta iota.
      rewrite for_each_chunks, batch_slice. cbv beta iota.
      unfold say at 1, ret. cbv beta iota.
      eexists. split; [reflexivity|].
      eapply same_merge_trans; [apply same_merge_say; reflexivity|].
      apply same_merge_chunks.
      apply (same_merge_say (MsgBatch _ _ _) s0). reflexivity. }
    destruct (Hlast s') as (s1 & Hrun1 & Hsame1).
    exists s1. split.
    + unfold bind. rewrite Hrun. exact Hrun1.
    + replace (S k * bs)%nat with (k * bs + bs)%nat by lia.
      rewrite firstn_add, fold_left_app.
      eapply same_merge_trans; [exact Hsame1|].
      now apply same_merge_chunks.
Qed.

Lemma process_batches_one_by_one (d : disk) (params : wave_params)
      (l : list string) (bs : nat) (s : state) :
  (0 < bs)%nat ->
  exists s',
    process_batches d params l bs s = (Ok tt, s')
    /\ same_merge s' (fold_left (fun s f => chunk_effect d params f s) l s).
Proof.
  intros Hbs. unfold process_batches. cbv zeta.
  destruct (batches_prefix d params l bs (batch_count (length l) bs)
              (batch_count (length l) bs) s) as (s' & Hrun & Hsame).
  exists s'. split; [exact Hrun|].
  rewrite firstn_all2 in Hsame by now apply batch_count_covers.
  exact Hsame.
Qed.

(** The same for the loop of [merge_audio_fast]. *)
Lemma fast_batches_prefix (d : disk) (l : list string) (bs total : nat)
      (k : nat) (st : list byte * list message) :
  let st' :=
    fold_left
      (fun st batch_num =>
         let start_idx := (batch_num * bs)%nat in
         let end_idx := Nat.min (start_idx + bs) (length l) in
         let batch_files := slice l start_idx end_idx in
         let st :=
           (fst st,
            snd st ++ [MsgBatch (batch_num + 1) total (length batch_files)]) in
         let st := fold_left (fast_chunk d) batch_files st in
         (fst st, snd st ++ [MsgProgress (batch_num + 1) total]))
      (seq 0 k) st in
  let st1 := fold_left (fast_chunk d) (firstn (k * bs) l) st in
  fst st' = fst st1
  /\ without_progress (snd st') = without_progress (snd st1).
Proof.
  assert (Hcong : forall batch (a b : list byte * list message),
             fst a = fst b ->
             without_progress (snd a) = without_progress (snd b) ->
             fst (fold_left (fast_chunk d) batch a)
             = fst (fold_left (fast_chunk d) batch b)
             /\ without_progress (snd (fold_left (fast_chunk d) batch a))
                = without_progress (snd (fold_left (fast_chunk d) batch b))).
  { induction batch as [|f batch IH]; intros [fa pa] [fb pb] Hf Hp;
      simpl in *; [auto|].
    apply IH; destruct (wave_open d f); simpl;
      rewrite ?without_progress_app; congruence. }
  cbv zeta.
  match goal with |- context [fold_left ?f (seq 0 k) st] => set (step := f) end.
  assert (Hstep : forall st0 j,
             fst (step st0 j)
             = fst (fold_left (fast_chunk d)
                              (firstn bs (skipn (j * bs) l)) st0)
             /\ without_progress (snd (step st0 j))
                = without_progress
                    (snd (fold_left (fast_chunk d)
                                    (firstn bs (skipn (j * bs) l)) st0))).
  { intros st0 j. subst step. cbv beta zeta. rewrite batch_slice.
    cbn [fst snd]. rewrite without_progress_app. simpl without_progress at 2.
    rewrite app_nil_r. apply Hcong; cbn [fst snd]; [reflexivity|].
    rewrite without_progress_app. simpl without_progress at 2.
    apply app_nil_r. }
  induction k as [|k [IH1 IH2]]; [split; reflexivity|].
  rewrite seq_S, fold_left_app. change (0 + k)%nat with k.
  change (fold_left step [k] (fold_left step (seq 0 k) st))
    with (step (fold_left step (seq 0 k) st) k).
  replace (S k * bs)%nat with (k * bs + bs)%nat by lia.
  rewrite firstn_add, (fold_left_app _ (firstn (k * bs) l)).
  destruct (Hstep (fold_left step (seq 0 k) st) k) as [H1 H2].
  rewrite H1, H2. now apply Hcong.
Qed.

(** C10: batching is transparent.  For every chunk list and positive
    batch size the batch loop of [merge_audio_fixed] ends without an
    exception in a state with the same output handle (bytes and position)
    and the same [total_frames] as the loop over the chunks one by one,
    and the two differ in the progress reports only; the batch loop of
    [merge_audio_fast] passes the same frames to the writer as the loop
    without batches. *)
Theorem batching_is_transparent (d : disk) (params : wave_params)
        (wav_files : list string) (batch_size : nat) :
  (0 < batch_size)%nat ->
  (forall s : state,
      exists s1 s2,
        process_batches d params wav_files batch_size s = (Ok tt, s1)
        /\ process_one_by_one d params wav_files s = (Ok tt, s2)
        /\ out s1 = out s2
        /\ total_frames s1 = total_frames s2
        /\ without_progress (log s1) = without_progress (log s2))
  /\ (forall st : list byte * list message,
        fst (fast_batches d wav_files batch_size st)
        = fst (fast_one_by_one d wav_files st)
        /\ without_progress (snd (fast_batches d wav_files batch_size st))
           = without_progress (snd (fast_one_by_one d wav_files st))).
Proof.
  intros Hbs. split.
  - intros s.
    destruct (process_batches_one_by_one d params wav_files batch_size s Hbs)
      as (s1 & Hrun & Ho & Ht & Hl).
    exists s1. eexists. split; [exact Hrun|]. split.
    + unfold process_one_by_one. apply for_each_chunks.
    + auto.
  - intros st. unfold fast_batches, fast_one_by_one. cbv zeta.
    pose proof (fast_batches_prefix d wav_files batch_size
                  (batch_count (length wav_files) batch_size)
                  (batch_count (length wav_files) batch_size) st) as H.
    cbv zeta in H.
    rewrite firstn_all2 in H by now apply batch_count_covers.
    exact H.
Qed.

(** *** Header and size fields *)

Lemma write_header_fits (params : wave_params) (s : state) :
  header_fits params ->
  out s = opened ->
  write_header params s
  = (Ok (40%nat, 44%nat),
     {| out := {| content := placeholder_header params; position := 44 |};
        total_frames := total_frames s; log := log s |}).
Proof.
  intros (Hc & Hr & Hbr & Hba & Hbits) Hout.
  unfold write_header.
  rewrite (pack_H_fits (nchannels params)), (pack_L_fits (framerate params)),
    (pack_L_fits (framerate params * nchannels params * sampwidth params)),
    (pack_H_fits (nchannels params * sampwidth params)),
    (pack_H_fits (sampwidth params * 8)) by assumption.
  destruct s as [h t lg]. simpl in Hout. subst h. reflexivity.
Qed.

Lemma length_placeholder_header (params : wave_params) :
  length (placeholder_header params) = 44%nat.
Proof. reflexivity. Qed.

Lemma patch_sizes_fits (params : wave_params) (data : list byte) (s : state) :
  out s = {| content := placeholder_header params ++ data;
             position := 44 + length data |} ->
  Z.of_nat (length data) + 36 < 4294967296 ->
  patch_sizes 40 44 s
  = (Ok tt,
     {| out := {| content := wav_image params data; position := 44 |};
        total_frames := total_frames s; log := log s |}).
Proof.
  intros Hout Hfit. destruct s as [h t lg]. cbn [out] in Hout. subst h.
  remember (44 + length data)%nat as p eqn:Hp.
  unfold patch_sizes, bind, tell, seek. cbn [out position fst snd].
  rewrite (pack_L_fits (Z.of_nat p - 8)) by lia.
  rewrite (pack_L_fits (Z.of_nat p - Z.of_nat 44)) by lia.
  replace (Z.of_nat p - 8) with (Z.of_nat (length data) + 36) by lia.
  replace (Z.of_nat p - Z.of_nat 44) with (Z.of_nat (length data)) by lia.
  reflexivity.
Qed.

(** *** What was printed before does not matter *)

Lemma same_data_refl (s : state) : same_data s s.
Proof. split; reflexivity. Qed.

Lemma log_blind_ret {A} (a : A) : log_blind (ret a).
Proof. intros s1 s2 H. split; [reflexivity|exact H]. Qed.

Lemma log_blind_raise {A} (e : exn) : log_blind (raise (A := A) e).
Proof. intros s1 s2 H. split; [reflexivity|exact H]. Qed.

Lemma log_blind_bind {A B} (m : M A) (k : A -> M B) :
  log_blind m -> (forall a, log_blind (k a)) -> log_blind (bind m k).
Proof.
  intros Hm Hk s1 s2 H. unfold bind.
  destruct (Hm s1 s2 H) as [Hr Hs].
  destruct (m s1) as [r1 t1], (m s2) as [r2 t2]. simpl in Hr, Hs. subst r2.
  destruct r1 as [a|e]; [now apply Hk|]. split; [reflexivity|exact Hs].
Qed.

Lemma log_blind_try_except {A} (m : M A) (handler : exn -> M A) :
  log_blind m -> (forall e, log_blind (handler e)) ->
  log_blind (try_except m handler).
Proof.
  intros Hm Hh s1 s2 H. unfold try_except.
  destruct (Hm s1 s2 H) as [Hr Hs].
  destruct (m s1) as [r1 t1], (m s2) as [r2 t2]. simpl in Hr, Hs. subst r2.
  destruct r1 as [a|e]; [split; [reflexivity|exact Hs]|now apply Hh].
Qed.

Lemma log_blind_write (data : list byte) : log_blind (write data).
Proof. intros s1 s2 [Ho Ht]. repeat split; simpl; congruence. Qed.

Lemma log_blind_seek (offset : nat) : log_blind (seek offset).
Proof. intros s1 s2 [Ho Ht]. repeat split; simpl; congruence. Qed.

Lemma log_blind_tell : log_blind tell.
Proof. intros s1 s2 [Ho Ht]. repeat split; simpl; congruence. Qed.

Lemma log_blind_say (m : message) : log_blind (say m).
Proof. intros s1 s2 [Ho Ht]. repeat split; simpl; congruence. Qed.

Lemma log_blind_add_frames (n : Z) : log_blind (add_frames n).
Proof. intros s1 s2 [Ho Ht]. repeat split; simpl; congruence. Qed.

Lemma log_blind_pack_L (v : Z) : log_blind (pack_L v).
Proof.
  unfold pack_L. destruct (_ && _); [apply log_blind_ret|apply log_blind_raise].
Qed.

Lemma log_blind_pack_H (v : Z) : log_blind (pack_H v).
Proof.
  unfold pack_H. destruct (_ && _); [apply log_blind_ret|apply log_blind_raise].
Qed.

Lemma log_blind_open_wave (d : disk) (path : string) :
  log_blind (open_wave d path).
Proof.
  unfold open_wave.
  destruct (wave_open d path); [apply log_blind_raise|apply log_blind_ret].
Qed.

Lemma log_blind_for_each {A} (l : list A) (body : A -> M unit) :
  (forall x, log_blind (body x)) -> log_blind (for_each l body).
Proof.
  intros Hb. induction l as [|x l IH]; simpl.
  - apply log_blind_ret.
  - apply log_blind_bind; [apply Hb|intros _; exact IH].
Qed.

Create HintDb log_blind.
#[local] Hint Resolve log_blind_ret log_blind_raise log_blind_write
  log_blind_seek log_blind_tell log_blind_say log_blind_add_frames
  log_blind_pack_L log_blind_pack_H log_blind_open_wave : log_blind.

Ltac log_blind_steps :=
  repeat match goal with
         | |- log_blind (bind _ _) => apply log_blind_bind; [|intros ?]
         | |- log_blind (try_except _ _) =>
             apply log_blind_try_except; [|intros ?]
         | |- log_blind (for_each _ _) => apply log_blind_for_each; intros ?
         | |- log_blind _ => solve [auto with log_blind]
         end.

Lemma log_blind_process_chunk (d : disk) (params : wave_params) (f : string) :
  log_blind (process_chunk d params f).
Proof.
  unfold process_chunk. log_blind_steps.
  match goal with a : (wave_params * list byte)%type |- _ =>
    destruct a as [p frames] end.
  destruct (negb _); log_blind_steps.
Qed.

Lemma log_blind_merge_block (d : disk) (params : wave_params)
      (l : list string) (bs : nat) :
  log_blind (merge_block d params l bs).
Proof.
  unfold merge_block, write_header, process_batches, patch_sizes.
  cbv zeta. log_blind_steps; apply log_blind_process_chunk.
Qed.

Lemma patch_sizes_overflow (params : wave_params) (data : list byte)
      (s : state) :
  out s = {| content := placeholder_header params ++ data;
             position := 44 + length data |} ->
  ~ data_fits data ->
  patch_sizes 40 44 s
  = (Raise StructError,
     {| out := {| content := placeholder_header params ++ data;
                  position := 4 |};
        total_frames := total_frames s; log := log s |}).
Proof.
  unfold data_fits. intros Hout Hbig. destruct s as [h t lg].
  cbn [out] in Hout. subst h.
  remember (44 + length data)%nat as p eqn:Hp.
  unfold patch_sizes, bind, tell, seek. cbn [out position fst snd].
  rewrite (pack_L_overflow (Z.of_nat p - 8)) by lia.
  reflexivity.
Qed.

(** *** What the copy loop prints *)

Lemma chunk_effect_keeps_log (d : disk) (params : wave_params) (f : string)
      (s : state) (m : message) :
  In m (log s) -> In m (log (chunk_effect d params f s)).
Proof.
  intros H. unfold chunk_effect.
  destruct (wave_open d f) as [e|p frames];
    [|destruct (first4_eqb (first4 p) (first4 params))];
    simpl; auto using in_or_app.
Qed.

Lemma chunks_keep_log (d : disk) (params : wave_params) (l : list string)
      (s : state) (m : message) :
  In m (log s) ->
  In m (log (fold_left (fun s f => chunk_effect d params f s) l s)).
Proof.
  revert s. induction l as [|f l IH]; intros s H; simpl; [exact H|].
  apply IH. now apply chunk_effect_keeps_log.
Qed.

Lemma chunk_effect_records (d : disk) (params : wave_params) (f : string)
      (s : state) :
  excluded d params f ->
  recorded_skip d basename f (log (chunk_effect d params f s)).
Proof.
  unfold excluded, accepted_frames, recorded_skip, chunk_effect.
  destruct (wave_open d f) as [e|p frames].
  - intros _. simpl. apply in_or_app. right. now left.
  - destruct (first4_eqb (first4 p) (first4 params)); [discriminate|].
    intros _. simpl. apply in_or_app. right. now left.
Qed.

Lemma recorded_skip_mono (d : disk) (name : string -> string) (f : string)
      (l1 l2 : list message) :
  (forall m, is_progress m = false -> In m l1 -> In m l2) ->
  recorded_skip d name f l1 -> recorded_skip d name f l2.
Proof.
  unfold recorded_skip. intros H.
  destruct (wave_open d f); apply H; reflexivity.
Qed.

Lemma chunks_record (d : disk) (params : wave_params) (l : list string)
      (s : state) (f : string) :
  In f l -> excluded d params f ->
  recorded_skip d basename f
    (log (fold_left (fun s f => chunk_effect d params f s) l s)).
Proof.
  revert s. induction l as [|g l IH]; intros s Hin Hex; [destruct Hin|].
  simpl. destruct Hin as [->|Hin]; [|now apply IH].
  eapply recorded_skip_mono; [|apply (chunk_effect_records d params f s Hex)].
  intros m _. apply chunks_keep_log.
Qed.

Lemma in_without_progress (m : message) (l : list message) :
  In m (without_progress l) <-> In m l /\ is_progress m = false.
Proof.
  unfold without_progress. rewrite filter_In.
  now rewrite negb_true_iff.
Qed.

Lemma same_progress_in (m : message) (l1 l2 : list message) :
  without_progress l1 = without_progress l2 ->
  is_progress m = false -> In m l1 -> In m l2.
Proof.
  intros E Hm Hin.
  assert (H : In m (without_progress l1)) by now apply in_without_progress.
  rewrite E in H. now apply in_without_progress in H.
Qed.

(** *** Complete runs *)

Lemma merge_block_completes (d : disk) (params : wave_params)
      (l : list string) (bs : nat) (s : state) :
  header_fits params -> (0 < bs)%nat -> out s = opened ->
  data_fits (merged_data d params l) ->
  exists s',
    merge_block d params l bs s = (Ok tt, s')
    /\ content (out s') = wav_image params (merged_data d params l)
    /\ total_frames s' = total_frames s + merged_frames d params l
    /\ forall f, In f l -> excluded d params f ->
                 recorded_skip d basename f (log s').
Proof.
  intros Hfit Hbs Hout Hdata. unfold merge_block, bind.
  rewrite (write_header_fits params s Hfit Hout). cbn [fst snd].
  set (s0 := {| out := {| content := placeholder_header params;
                          position := 44 |};
                total_frames := total_frames s; log := log s |}).
  destruct (process_batches_one_by_one d params l bs s0 Hbs)
    as (s1 & Hrun & Ho & Ht & Hl).
  rewrite Hrun.
  destruct (chunks_closed_form d params l s0) as (Hc & He & Hn);
    [reflexivity|].
  set (s2 := fold_left (fun s f => chunk_effect d params f s) l s0) in *.
  assert (Hout1 : out s1
                  = {| content := placeholder_header params
                                  ++ merged_data d params l;
                       position := 44 + length (merged_data d params l) |}).
  { rewrite Ho. destruct (out s2) as [c p]. unfold at_end in He.
    simpl in Hc, He. subst c p. f_equal;
      try now rewrite length_app, length_placeholder_header. }
  rewrite (patch_sizes_fits params (merged_data d params l) s1 Hout1 Hdata).
  eexists. split; [reflexivity|]. cbn [out content total_frames log].
  split; [reflexivity|]. split; [rewrite Ht; exact Hn|].
  intros f Hin Hex.
  eapply recorded_skip_mono; [|apply (chunks_record d params l s0 f Hin Hex)].
  intros m Hm. apply same_progress_in; [symmetry; exact Hl|exact Hm].
Qed.

Lemma sort_files_not_nil (found wav_files : list string) (f : string)
      (rest : list string) :
  sort_files found = Some (f :: rest) -> found <> [].
Proof. intros H ->. discriminate H. Qed.

(** A merge of 4 GiB or more does not get its size fields: the update
    raises [struct.error] at the first field, the handler reports a
    failure, and the file keeps both placeholders. *)
Lemma merge_block_overflows (d : disk) (params : wave_params)
      (l : list string) (bs : nat) (s : state) :
  header_fits params -> (0 < bs)%nat -> out s = opened ->
  ~ data_fits (merged_data d params l) ->
  exists s',
    merge_block d params l bs s = (Raise StructError, s')
    /\ content (out s') = placeholder_header params ++ merged_data d params l.
Proof.
  intros Hfit Hbs Hout Hdata. unfold merge_block, bind.
  rewrite (write_header_fits params s Hfit Hout). cbn [fst snd].
  set (s0 := {| out := {| content := placeholder_header params;
                          position := 44 |};
                total_frames := total_frames s; log := log s |}).
  destruct (process_batches_one_by_one d params l bs s0 Hbs)
    as (s1 & Hrun & Ho & Ht & Hl).
  rewrite Hrun.
  destruct (chunks_closed_form d params l s0) as (Hc & He & Hn);
    [reflexivity|].
  set (s2 := fold_left (fun s f => chunk_effect d params f s) l s0) in *.
  assert (Hout1 : out s1
                  = {| content := placeholder_header params
                                  ++ merged_data d params l;
                       position := 44 + length (merged_data d params l) |}).
  { rewrite Ho. destruct (out s2) as [c p]. unfold at_end in He.
    simpl in Hc, He. subst c p. f_equal;
      try now rewrite length_app, length_placeholder_header. }
  rewrite (patch_sizes_overflow params (merged_data d params l) s1 Hout1 Hdata).
  eexists. split; reflexivity.
Qed.

Lemma report_duration_world (frames rate : Z) (w : world) :
  report_duration frames rate w
  = {| files := files w;
       stdout := if rate =? 0 then stdout w
                 else stdout w ++ [MsgDuration frames rate] |}.
Proof.
  unfold report_duration. destruct (rate =? 0); [now destruct w|reflexivity].
Qed.

Lemma merge_fixed_completes (output_file : string) (bs : nat) (d : disk)
      (w : world) (wav_files : list string) (params : wave_params) :
  reference d wav_files params -> header_fits params -> (0 < bs)%nat ->
  data_fits (merged_data d params wav_files) ->
  exists printed,
    merge_audio_fixed_to output_file bs d w
    = (Completed (merged_frames d params wav_files),
       {| files := <[output_file :=
                       Raw (wav_image params
                              (merged_data d params wav_files))]> (files w);
          stdout := printed |})
    /\ forall f, In f wav_files -> excluded d params f ->
                 recorded_skip d basename f printed.
Proof.
  intros (Hdir & Hsort & first & rest & frames & -> & Hopen) Hfit Hbs Hdata.
  unfold merge_audio_fixed_to. rewrite Hdir. simpl negb. cbv iota.
  destruct (glob_chunks d "temp_audio_chunks") as [|g found] eqn:Hglob;
    [discriminate Hsort|].
  rewrite Hsort. cbv beta iota zeta. simpl nth_error. cbv beta iota.
  rewrite Hopen.
  match goal with |- context [merge_block _ _ _ _ ?s0] =>
    destruct (merge_block_completes d params (first :: rest) bs s0
                Hfit Hbs eq_refl Hdata) as (s' & Hrun & Hc & Ht & Hrec)
  end.
  rewrite Hrun. cbn [total_frames] in Ht. rewrite Hc, Ht, Z.add_0_l.
  rewrite report_duration_world.
  eexists. split; [reflexivity|].
  intros f Hin Hex. eapply recorded_skip_mono; [|apply (Hrec f Hin Hex)].
  intros m _ Hm. cbn [stdout]. destruct (_ =? _); simpl;
    repeat (apply in_or_app; left); exact Hm.
Qed.

Lemma length_wav_image (params : wave_params) (data : list byte) :
  length (wav_image params data) = (44 + length data)%nat.
Proof. reflexivity. Qed.

(** Both size fields of a finished file are exact: the RIFF field is the
    file size minus 8, the data field is the number of sample bytes. *)
Lemma size_fields_exact (params : wave_params) (data : list byte) :
  data_fits data ->
  riff_size_field (wav_image params data)
  = Z.of_nat (length (wav_image params data)) - 8
  /\ data_size_field (wav_image params data) = Z.of_nat (length data).
Proof.
  unfold data_fits. intros Hfit. rewrite length_wav_image.
  unfold riff_size_field, data_size_field.
  change (firstn 4 (skipn 4 (wav_image params data)))
    with (le32 (Z.of_nat (length data) + 36)).
  change (firstn 4 (skipn 40 (wav_image params data)))
    with (le32 (Z.of_nat (length data))).
  rewrite !unpack_le32 by lia. lia.
Qed.

Lemma merged_frames_skip (d : disk) (params : wave_params)
      (before after : list string) (f : string) :
  excluded d params f ->
  merged_frames d params (before ++ f :: after)
  = merged_frames d params (before ++ after).
Proof.
  intros Hex. induction before as [|g before IH]; simpl.
  - unfold excluded in Hex. now rewrite Hex.
  - now rewrite IH.
Qed.

Lemma channels_differ_excluded (d : disk) (params p : wave_params)
      (f : string) (frames : list byte) :
  wave_open d f = Readable p frames ->
  nchannels p <> nchannels params ->
  excluded d params f.
Proof.
  intros Hopen Hne. unfold excluded, accepted_frames. rewrite Hopen.
  unfold first4_eqb, first4.
  destruct (Z.eqb_spec (nchannels p) (nchannels params)); [contradiction|].
  reflexivity.
Qed.

(** *** The wave writer *)

Lemma setparams_ready (params : wave_params) :
  writer_accepts params ->
  setparams params initfp = (Ok tt, writer_ready params).
Proof.
  intros (Hc & Hw & Hr & Hcomp).
  assert (E1 : (nchannels params <? 1) = false) by (apply Z.ltb_ge; lia).
  assert (E2 : (sampwidth params <? 1) = false) by (apply Z.ltb_ge; lia).
  assert (E3 : (4 <? sampwidth params) = false) by (apply Z.ltb_ge; lia).
  assert (E4 : (framerate params <=? 0) = false) by (apply Z.leb_gt; lia).
  unfold setparams, setnchannels, setsampwidth, setframerate, setnframes,
    setcomptype, w_bind, check_not_started, initfp, writer_ready.
  cbn [datawritten]. rewrite E1, E2, E3, E4, Hcomp. reflexivity.
Qed.


Lemma w_pack_L_fits (v : Z) : 0 <= v < 4294967296 -> w_pack_L v = w_ret (le32 v).
Proof.
  intros Hv. unfold w_pack_L, fits_L.
  destruct (Z.leb_spec 0 v); [|lia].
  destruct (Z.ltb_spec v 4294967296); [reflexivity|lia].
Qed.

Lemma patchheader_holding (params : wave_params) (n len : Z)
      (data : list byte) :
  data_fits data ->
  len <> Z.of_nat (length data) ->
  patchheader
    {| file := {| content := sized_image params len data;
                  position := 44 + length data |};
       w_nchannels := nchannels params; w_sampwidth := sampwidth params;
       w_framerate := framerate params; w_nframes := n;
       datawritten := Z.of_nat (length data); datalength := len;
       headerwritten := true; form_length_pos := 4; data_length_pos := 40 |}
  = (Ok tt, writer_holding params n data).
Proof.
  unfold data_fits. intros Hfit Hne.
  unfold patchheader. cbn [datawritten datalength].
  destruct (Z.eqb_spec (Z.of_nat (length data)) len) as [E|_]; [congruence|].
  remember (44 + length data)%nat as p eqn:Hp.
  unfold w_bind, file_tell, file_seek.
  cbn [file position form_length_pos data_length_pos datawritten set_file].
  rewrite (w_pack_L_fits (36 + Z.of_nat (length data))) by lia.
  unfold w_ret.
  cbn [file position form_length_pos data_length_pos datawritten set_file].
  rewrite (w_pack_L_fits (Z.of_nat (length data))) by lia.
  unfold w_ret, writer_holding. rewrite <- Hp.
  rewrite (Z.add_comm 36).
  reflexivity.
Qed.

Lemma writeframes_holding (params : wave_params) (n : Z)
      (data frames : list byte) :
  data_fits (data ++ frames) ->
  writeframes frames (writer_holding params n data)
  = (Ok tt, writer_holding params n (data ++ frames)).
Proof.
  intros Hfit.
  unfold writeframes, writeframesraw, w_bind, ensure_header_written,
    file_write, writer_holding.
  cbn [headerwritten file set_file datawritten datalength w_nchannels
       w_sampwidth w_framerate w_nframes form_length_pos data_length_pos].
  rewrite handle_write_at_end by reflexivity. cbn [content].
  destruct frames as [|b frames].
  - rewrite !app_nil_r. simpl length. rewrite Z.add_0_r, Z.eqb_refl.
    reflexivity.
  - destruct (Z.eqb_spec (Z.of_nat (length data))
                (Z.of_nat (length data) + Z.of_nat (length (b :: frames))))
      as [E|_]; [simpl length in E; lia|].
    rewrite <- Nat2Z.inj_add, <- length_app.
    change (wav_image params data ++ b :: frames)
      with (sized_image params (Z.of_nat (length data))
                        (data ++ b :: frames)).
    replace (length (sized_image params (Z.of_nat (length data))
                                 (data ++ b :: frames)))
      with (44 + length (data ++ b :: frames))%nat by reflexivity.
    apply patchheader_holding; [exact Hfit|].
    rewrite length_app. simpl length. lia.
Qed.

Lemma fits_L_true (v : Z) : 0 <= v < 4294967296 -> fits_L v = true.
Proof.
  intros Hv. unfold fits_L.
  destruct (Z.leb_spec 0 v); [|lia].
  destruct (Z.ltb_spec v 4294967296); [reflexivity|lia].
Qed.

Lemma fits_H_true (v : Z) : 0 <= v < 65536 -> fits_H v = true.
Proof.
  intros Hv. unfold fits_H.
  destruct (Z.leb_spec 0 v); [|lia].
  destruct (Z.ltb_spec v 65536); [reflexivity|lia].
Qed.

Lemma writeframes_ready (params : wave_params) (frames : list byte) :
  writer_accepts params -> header_fits params ->
  announced_length_fits params -> data_fits frames ->
  exists n,
    writeframes frames (writer_ready params)
    = (Ok tt, writer_holding params n frames).
Proof.
  intros (Hc & Hw & Hr & Hcomp) (Hc' & Hr' & Hbr & Hba & Hbits)
         (Hn & Hlen) Hfit.
  unfold data_fits in Hfit.
  set (n := if nframes params =? 0
            then Z.of_nat (length frames)
                 / (nchannels params * sampwidth params)
            else nframes params).
  set (len := n * nchannels params * sampwidth params).
  assert (Hlen' : 0 <= len /\ len + 36 < 4294967296).
  { subst len n. destruct (Z.eqb_spec (nframes params) 0) as [E|E].
    - assert (Hpos : 0 < nchannels params * sampwidth params) by nia.
      pose proof (Z.mul_div_le (Z.of_nat (length frames)) _ Hpos).
      pose proof (Z.div_pos (Z.of_nat (length frames))
                    (nchannels params * sampwidth params)
                    ltac:(lia) Hpos).
      nia.
    - nia. }
  exists n.
  unfold writeframes, writeframesraw, w_bind, ensure_header_written,
    writer_ready.
  cbn [headerwritten w_nchannels w_sampwidth w_framerate].
  destruct (Z.eqb_spec (nchannels params) 0); [lia|].
  destruct (Z.eqb_spec (sampwidth params) 0); [lia|].
  destruct (Z.eqb_spec (framerate params) 0); [lia|].
  unfold write_wave_header, w_bind, file_write, file_tell.
  cbn [file set_file w_nchannels w_sampwidth w_framerate w_nframes
       datawritten datalength headerwritten form_length_pos data_length_pos
       position].
  fold n. fold len.
  unfold pack_form.
  cbn [file w_nchannels w_sampwidth w_framerate datalength].
  rewrite (fits_L_true (36 + len)), (fits_H_true (nchannels params)),
    (fits_L_true (framerate params)),
    (fits_L_true (nchannels params * framerate params * sampwidth params)),
    (fits_H_true (nchannels params * sampwidth params)),
    (fits_H_true (sampwidth params * 8)) by lia.
  cbn [andb]. unfold w_ret.
  cbn [file w_nchannels w_sampwidth w_framerate w_nframes datawritten
       datalength headerwritten form_length_pos data_length_pos].
  rewrite (w_pack_L_fits len) by lia. unfold w_ret.
  cbn [file w_nchannels w_sampwidth w_framerate w_nframes datawritten
       datalength headerwritten form_length_pos data_length_pos].
  replace (nchannels params * framerate params * sampwidth params)
    with (framerate params * nchannels params * sampwidth params) by ring.
  rewrite (Z.add_comm 36 len), Z.add_0_l.
  assert (Hfile :
    handle_write frames
      (handle_write (le32 len)
         (handle_write
            (le32 (len + 36) ++ ascii_bytes "WAVE" ++ ascii_bytes "fmt "
             ++ le32 16 ++ le16 1 ++ le16 (nchannels params)
             ++ le32 (framerate params)
             ++ le32 (framerate params * nchannels params
                      * sampwidth params)
             ++ le16 (nchannels params * sampwidth params)
             ++ le16 (sampwidth params * 8) ++ ascii_bytes "data")
            (handle_write (ascii_bytes "RIFF") opened)))
    = {| content := sized_image params len frames;
         position := 44 + length frames |}).
  { rewrite (handle_write_at_end frames) by reflexivity. reflexivity. }
  rewrite Hfile. clearbody len.
  destruct (Z.eqb_spec len (Z.of_nat (length frames))) as [E|E].
  - unfold writer_holding, wav_image, sized_image. rewrite E. reflexivity.
  - apply patchheader_holding; [exact Hfit|exact E].
Qed.

Lemma close_holding (params : wave_params) (n : Z) (data : list byte) :
  close (writer_holding params n data)
  = (Ok tt, writer_holding params n data).
Proof.
  unfold close, w_bind, ensure_header_written, writer_holding.
  cbn [headerwritten datalength datawritten]. now rewrite Z.eqb_refl.
Qed.

(** *** merge_wav_files *)

Lemma map_snd_enumerate {A} (l : list A) (start : nat) :
  map snd (combine (seq start (length l)) l) = l.
Proof.
  revert start. induction l as [|x l IH]; intros start; simpl; [reflexivity|].
  now rewrite IH.
Qed.

Lemma first4_eqb_refl (p : wave_params) : first4_eqb (first4 p) (first4 p) = true.
Proof. unfold first4_eqb, first4. now rewrite !Z.eqb_refl. Qed.

Lemma merged_data_cons (d : disk) (params : wave_params) (f : string)
      (rest : list string) :
  merged_data d params (f :: rest)
  = merged_data d params [f] ++ merged_data d params rest.
Proof.
  simpl. destruct (accepted_frames d params f) as [[p frames]|];
    [now rewrite app_nil_r|reflexivity].
Qed.

Lemma data_fits_prefix (a b : list byte) : data_fits (a ++ b) -> data_fits a.
Proof. unfold data_fits. rewrite length_app. lia. Qed.

Lemma copy_chunk_holding (d : disk) (params : wave_params) (count : nat)
      (n : Z) (data : list byte) (printed : list message)
      (item : nat * string) :
  data_fits (data ++ merged_data d params [snd item]) ->
  fst (copy_chunk d params count (writer_holding params n data, printed) item)
  = writer_holding params n (data ++ merged_data d params [snd item]).
Proof.
  destruct item as [i f]. cbn [snd]. unfold copy_chunk.
  simpl merged_data. unfold accepted_frames.
  destruct (wave_open d f) as [e|p frames]; cbv beta iota.
  - intros _. now rewrite app_nil_r.
  - destruct (first4_eqb (first4 p) (first4 params)); cbn [negb].
    + rewrite app_nil_r. intros Hfit.
      now rewrite (writeframes_holding params n data frames Hfit).
    + intros _. now rewrite app_nil_r.
Qed.

Lemma copy_chunks_holding (d : disk) (params : wave_params) (count : nat)
      (n : Z) (items : list (nat * string)) (data : list byte)
      (printed : list message) :
  data_fits (data ++ merged_data d params (map snd items)) ->
  fst (fold_left (copy_chunk d params count) items
                 (writer_holding params n data, printed))
  = writer_holding params n (data ++ merged_data d params (map snd items)).
Proof.
  revert data printed.
  induction items as [|item items IH]; intros data printed Hfit.
  - simpl. now rewrite app_nil_r.
  - cbn [fold_left map] in *.
    rewrite (merged_data_cons d params (snd item) (map snd items)), app_assoc
      in Hfit.
    pose proof (copy_chunk_holding d params count n data printed item
                  (data_fits_prefix _ _ Hfit)) as Hstep.
    destruct (copy_chunk d params count (writer_holding params n data, printed)
                         item) as [o printed'].
    cbn [fst] in Hstep. subst o.
    rewrite (IH _ printed' Hfit).
    now rewrite (merged_data_cons d params (snd item) (map snd items)),
      app_assoc.
Qed.

Lemma copy_chunk_keeps_log (d : disk) (params : wave_params) (n : nat)
      (st : wave_write * list message) (item : nat * string) (m : message) :
  In m (snd st) -> In m (snd (copy_chunk d params n st item)).
Proof.
  destruct st as [o printed], item as [i f]. unfold copy_chunk.
  cbn [snd]. intros H.
  set (printed' := if (i mod 100 =? 0)%nat then _ else _).
  assert (H' : In m printed')
    by (subst printed'; destruct (_ =? _)%nat; auto using in_or_app).
  destruct (wave_open d f) as [e|p frames];
    [|destruct (first4_eqb (first4 p) (first4 params));
      [destruct (writeframes frames o) as [[[]|e] o']|]];
    cbn [snd negb]; auto using in_or_app.
Qed.

Lemma copy_chunks_keep_log (d : disk) (params : wave_params) (n : nat)
      (items : list (nat * string)) (st : wave_write * list message)
      (m : message) :
  In m (snd st) -> In m (snd (fold_left (copy_chunk d params n) items st)).
Proof.
  revert st. induction items as [|it items IH]; intros st H; simpl; [exact H|].
  apply IH. now apply copy_chunk_keeps_log.
Qed.

Lemma copy_chunks_record (d : disk) (params : wave_params) (n : nat)
      (items : list (nat * string)) (st : wave_write * list message)
      (f : string) :
  In f (map snd items) -> excluded d params f ->
  recorded_skip d (fun name => name) f
    (snd (fold_left (copy_chunk d params n) items st)).
Proof.
  revert st. induction items as [|[i g] items IH]; intros st Hin Hex;
    [destruct Hin|].
  cbn [map snd In] in Hin. cbn [fold_left].
  destruct Hin as [->|Hin]; [|now apply IH].
  eapply recorded_skip_mono;
    [intros m _; apply copy_chunks_keep_log|].
  destruct st as [o printed].
  unfold excluded, accepted_frames in Hex. unfold recorded_skip, copy_chunk.
  destruct (wave_open d f) as [e|p frames]; cbv beta iota.
  - cbn [snd]. apply in_or_app. right. now left.
  - destruct (first4_eqb (first4 p) (first4 params)); [discriminate|].
    cbn [snd negb]. apply in_or_app. right. now left.
Qed.

(** The run of [merge_wav_files] when the writer accepts everything. *)
Lemma merge_wav_files_completes (input_folder output_file : string)
      (d : disk) (w : world) (first : string) (rest : list string)
      (params : wave_params) (frames : list byte) :
  sort_files (glob_chunks d input_folder) = Some (first :: rest) ->
  wave_open d first = Readable params frames ->
  writer_accepts params -> header_fits params ->
  announced_length_fits params ->
  data_fits (merged_data d params (first :: rest)) ->
  exists printed,
    merge_wav_files input_folder output_file d w
    = (Some true,
       {| files := <[output_file :=
                       Raw (wav_image params
                              (merged_data d params (first :: rest)))]>
                     (files w);
          stdout := printed |})
    /\ forall f, In f (first :: rest) -> excluded d params f ->
                 recorded_skip d (fun name => name) f printed.
Proof.
  intros Hsort Hopen Hacc Hfit Hlen Hdata.
  unfold merge_wav_files.
  destruct (glob_chunks d input_folder) as [|g found] eqn:Hglob;
    [discriminate Hsort|].
  rewrite Hsort. cbv beta iota zeta. simpl nth_error. cbv beta iota.
  rewrite Hopen, (setparams_ready params Hacc).
  assert (Hfirst : merged_data d params (first :: rest)
                   = frames ++ merged_data d params rest).
  { simpl. unfold accepted_frames. now rewrite Hopen, first4_eqb_refl. }
  rewrite Hfirst in *.
  destruct (writeframes_ready params frames Hacc Hfit Hlen
              (data_fits_prefix _ _ Hdata)) as (n & Hwrite).
  set (w1 := print (MsgParams (nchannels params) (framerate params))
                   (print (MsgFound (length (first :: rest))) w)).
  pose proof (copy_chunks_record d params (length (first :: rest))
                (enumerate (first :: rest)) (writer_ready params, stdout w1))
    as Hrec.
  revert Hrec. unfold enumerate. rewrite map_snd_enumerate.
  cbn [length seq combine fold_left].
  assert (Hstep : copy_chunk d params (S (length rest))
                    (writer_ready params, stdout w1) (0%nat, first)
                  = (writer_holding params n frames,
                     stdout w1 ++ [MsgProcessing 1 (S (length rest))])).
  { unfold copy_chunk. rewrite Hopen. cbv beta iota.
    rewrite first4_eqb_refl. cbn [negb]. now rewrite Hwrite. }
  rewrite Hstep.
  pose proof (copy_chunks_holding d params (S (length rest)) n
                (combine (seq 1 (length rest)) rest) frames
                (stdout w1 ++ [MsgProcessing 1 (S (length rest))])) as Hloop.
  rewrite map_snd_enumerate in Hloop. specialize (Hloop Hdata).
  destruct (fold_left _ _ _) as [o printed'].
  cbn [fst snd] in *. subst o. intros Hrec.
  rewrite close_holding.
  eexists. split; [reflexivity|].
  intros f Hin Hex. cbn [stdout print].
  eapply recorded_skip_mono; [|apply (Hrec f Hin Hex)].
  intros m _ Hm. repeat (apply in_or_app; left). exact Hm.
Qed.

(** A reference format the writer refuses: [setparams] raises, nothing
    is copied, and the run ends with one error message. *)
Lemma merge_wav_files_refused (input_folder output_file : string)
      (d : disk) (w : world) (first : string) (rest : list string)
      (params : wave_params) (frames : list byte) :
  sort_files (glob_chunks d input_folder) = Some (first :: rest) ->
  wave_open d first = Readable params frames ->
  ~ writer_accepts params ->
  exists text image,
    merge_wav_files input_folder output_file d w
    = (Some false,
       {| files := <[output_file := Raw image]> (files w);
          stdout := stdout w
                    ++ [MsgFound (length (first :: rest));
                        MsgParams (nchannels params) (framerate params);
                        MsgError text] |}).
Proof.
  intros Hsort Hopen Hrej.
  unfold merge_wav_files.
  destruct (glob_chunks d input_folder) as [|g found] eqn:Hglob;
    [discriminate Hsort|].
  rewrite Hsort. cbv beta iota zeta. simpl nth_error. cbv beta iota.
  rewrite Hopen.
  assert (Hset : exists e o, setparams params initfp = (Raise e, o)).
  { unfold setparams, setnchannels, setsampwidth, setframerate, setnframes,
      setcomptype, w_bind, check_not_started, initfp, w_raise, w_ret.
    cbn [datawritten]. cbv beta iota.
    destruct (Z.ltb_spec (nchannels params) 1); [eauto|].
    cbn [datawritten]. cbv beta iota.
    destruct (Z.ltb_spec (sampwidth params) 1); cbn [orb]; [eauto|].
    destruct (Z.ltb_spec 4 (sampwidth params)); [eauto|].
    cbn [datawritten]. cbv beta iota.
    destruct (Z.leb_spec (framerate params) 0); [eauto|].
    cbn [datawritten]. cbv beta iota.
    destruct (String.eqb_spec (comptype params) "NONE"); [|eauto].
    exfalso. apply Hrej. unfold writer_accepts. repeat split; auto; lia. }
  destruct Hset as (e & o & ->).
  destruct (close o) as [[[]|e'] o']; eexists; eexists;
    unfold print; cbn [files stdout]; rewrite <- !app_assoc; reflexivity.
Qed.

(** *** The merge claims *)

(** C1 (the code departs from the claim on the frame total): on the
    end-to-end example of the specification, three mono 16-bit 22050 Hz
    chunks of 100, 150 and 200 frames, [merge_audio_fixed] completes with
    [total_frames = 100], not 450: the slice [params[:4]] it compares
    contains the frame count, so the second and the third chunk are
    reported as parameter mismatches and left out.  The two size fields
    are exact for the 200 bytes that were written. *)
Theorem unequal_chunks_are_left_out :
  fst (merge_audio_fixed three_chunks empty_world) = Completed 100
  /\ In (MsgSkipMismatch "chunk_0001.wav")
        (stdout (snd (merge_audio_fixed three_chunks empty_world)))
  /\ In (MsgSkipMismatch "chunk_0002.wav")
        (stdout (snd (merge_audio_fixed three_chunks empty_world)))
  /\ (exists image,
        files (snd (merge_audio_fixed three_chunks empty_world))
          !! "镇国驸马爷-完整音频.wav"%string = Some (Raw image)
        /\ data_size_field image = 200
        /\ riff_size_field image = Z.of_nat (length image) - 8)
  /\ ~ frames_add_up three_chunks empty_world.
Proof.
  split; [vm_compute; reflexivity|].
  split; [vm_compute; tauto|].
  split; [vm_compute; tauto|].
  split.
  - eexists. split; [vm_compute; reflexivity|].
    split; vm_compute; reflexivity.
  - intros H.
    specialize (H ["temp_audio_chunks/chunk_0000.wav";
                   "temp_audio_chunks/chunk_0001.wav";
                   "temp_audio_chunks/chunk_0002.wav"]%string
                  (pcm_mono16 100) [100; 150; 200]).
    assert (Hc : fst (merge_audio_fixed three_chunks empty_world)
                 = Completed 100) by (vm_compute; reflexivity).
    rewrite Hc in H. simpl fold_right in H.
    assert (Hne : Completed 100 <> Completed 450) by discriminate.
    apply Hne, H.
    + split; [reflexivity|]. split; [vm_compute; reflexivity|].
      do 3 eexists. split; reflexivity.
    + repeat constructor; eexists; reflexivity.
Qed.



(** C3, as stated, fails: a first chunk that does not open makes the
    whole run fail although a readable chunk is left. *)
Lemma unreadable_first_chunk_aborts :
  ~ fails_only_without_chunks bad_first empty_world.
Proof.
  intros H.
  apply (H (WaveOpenError "file does not start with RIFF id") eq_refl
           "temp_audio_chunks/chunk_0001.wav"%string).
  - vm_compute. tauto.
  - do 2 eexists. reflexivity.
Qed.

(** C3, amended: the run fails when the first chunk of the catalogue,
    which gives the reference parameters, does not open: it stops with
    an error message before the output file is created.  When the first
    chunk opens and the header values fit their fields, the run
    completes, and every later chunk that does not open is reported with
    the text of its exception and left out. *)
Theorem merge_survives_later_bad_chunks (d : disk) (w : world)
        (first : string) (rest : list string) :
  path_exists d "temp_audio_chunks" = true ->
  sort_files (glob_chunks d "temp_audio_chunks") = Some (first :: rest) ->
  (forall e,
      wave_open d first = Unreadable e ->
      fst (merge_audio_fixed d w) = Failed (WaveOpenError e)
      /\ files (snd (merge_audio_fixed d w)) = files w
      /\ In (MsgError e) (stdout (snd (merge_audio_fixed d w))))
  /\ (forall params frames,
        wave_open d first = Readable params frames ->
        header_fits params ->
        data_fits (merged_data d params (first :: rest)) ->
        fst (merge_audio_fixed d w)
        = Completed (merged_frames d params (first :: rest))
        /\ forall f e,
            In f (first :: rest) -> wave_open d f = Unreadable e ->
            In (MsgSkipCorrupt (basename f) e)
               (stdout (snd (merge_audio_fixed d w)))).
Proof.
  intros Hdir Hsort. split.
  - intros e Hopen. unfold merge_audio_fixed, merge_audio_fixed_to.
    rewrite Hdir. simpl negb. cbv iota.
    destruct (glob_chunks d "temp_audio_chunks") as [|g found] eqn:Hglob;
      [discriminate Hsort|].
    rewrite Hsort. cbv beta iota zeta. simpl nth_error. cbv beta iota.
    rewrite Hopen. cbn [fst snd]. repeat split.
    simpl. apply in_or_app. right. now left.
  - intros params frames Hopen Hfit Hdata.
    assert (Href : reference d (first :: rest) params).
    { split; [exact Hdir|]. split; [exact Hsort|]. eauto. }
    destruct (merge_fixed_completes "镇国驸马爷-完整音频.wav" 100 d w
                (first :: rest) params Href Hfit ltac:(lia) Hdata)
      as (printed & Hrun & Hrec).
    fold merge_audio_fixed in Hrun. rewrite Hrun. cbn [fst snd stdout].
    split; [reflexivity|]. intros f e Hin Hbad.
    assert (Hex : excluded d params f)
      by (unfold excluded, accepted_frames; now rewrite Hbad).
    specialize (Hrec f Hin Hex). unfold recorded_skip in Hrec.
    now rewrite Hbad in Hrec.
Qed.

(** C7: when the chunk folder exists and holds no chunk file,
    [merge_audio_fixed] ends with the error message for missing chunk
    files and [merge_wav_files] returns [False] after the same message;
    neither creates or writes any file. *)
Theorem empty_folder_is_an_error (d : disk) (w : world) :
  path_exists d "temp_audio_chunks" = true ->
  glob_chunks d "temp_audio_chunks" = [] ->
  merge_audio_fixed d w = (NoChunkFiles, print MsgNoChunks w)
  /\ files (snd (merge_audio_fixed d w)) = files w
  /\ forall output_file,
      merge_wav_files "temp_audio_chunks" output_file d w
      = (Some false, print MsgNoChunks w)
      /\ files (snd (merge_wav_files "temp_audio_chunks" output_file d w))
         = files w.
Proof.
  intros Hdir Hglob.
  assert (E : merge_audio_fixed d w = (NoChunkFiles, print MsgNoChunks w)).
  { unfold merge_audio_fixed, merge_audio_fixed_to.
    now rewrite Hdir, Hglob. }
  rewrite E. repeat split.
  all: unfold merge_wav_files; now rewrite Hglob.
Qed.

Lemma combine_with_gap (gap : Z) (chunk_files : list string)
      (acc : list segment_part) :
  fold_left (fun combined chunk_file =>
               (combined ++ [FromWav chunk_file]) ++ [Silent gap])
            chunk_files acc
  = acc ++ flat_map (fun f => [FromWav f; Silent gap]) chunk_files.
Proof.
  revert acc. induction chunk_files as [|f l IH]; intros acc; simpl.
  - now rewrite app_nil_r.
  - rewrite IH, <- !app_assoc. reflexivity.
Qed.



(** C9: the merge is a function of the chunk files.  For output names
    that are not chunk files themselves (as the fixed name of the tool),
    when a run into [out1] completes, a second run over the same chunks
    into [out2] completes with the same frame total, and afterwards both
    output files hold the same bytes. *)
Theorem merge_is_deterministic (d : disk) (w w1 : world) (batch_size : nat)
        (out1 out2 : string) (n : Z) :
  ~ In out1 (glob_chunks d "temp_audio_chunks") ->
  ~ In out2 (glob_chunks d "temp_audio_chunks") ->
  merge_audio_fixed_to out1 batch_size d w = (Completed n, w1) ->
  exists w2 image,
    merge_audio_fixed_to out2 batch_size d w1 = (Completed n, w2)
    /\ files w2 !! out1 = Some (Raw image)
    /\ files w2 !! out2 = Some (Raw image).
Proof.
  intros _ _. unfold merge_audio_fixed_to.
  destruct (path_exists d "temp_audio_chunks"); simpl negb; cbv iota;
    [|discriminate].
  destruct (glob_chunks d "temp_audio_chunks") as [|g found];
    [discriminate|].
  destruct (sort_files (g :: found)) as [wav_files|]; [|discriminate].
  cbv zeta.
  destruct (nth_error wav_files 0) as [first|]; [|discriminate].
  destruct (wave_open d first) as [e|params frames]; [discriminate|].
  intros Hrun.
  match type of Hrun with
  | context [merge_block _ _ _ _ ?sa] => set (first_run := sa) in Hrun
  end.
  destruct (merge_block d params wav_files batch_size first_run)
    as [r1 s1] eqn:E1.
  destruct r1 as [[]|e]; [|discriminate Hrun].
  inversion Hrun as [[Hn Hw]]. subst w1. clear Hrun.
  match goal with
  | |- context [merge_block _ _ _ _ ?sb] => set (second_run := sb)
  end.
  pose proof (log_blind_merge_block d params wav_files batch_size
                first_run second_run (conj eq_refl eq_refl))
    as [Hr [Ho Ht]].
  destruct (merge_block d params wav_files batch_size second_run)
    as [r2 s2] eqn:E2.
  rewrite E1 in Hr, Ho, Ht. cbn [fst snd] in Hr, Ho, Ht. subst r2.
  rewrite <- Ht, <- Ho. do 2 eexists. split; [reflexivity|].
  rewrite !report_duration_world. cbn [files print]. split; [|apply lookup_insert_eq].
  destruct (decide (out2 = out1)) as [->|Hne].
  - apply lookup_insert_eq.
  - rewrite lookup_insert_ne by exact Hne. apply lookup_insert_eq.
Qed.

(** *** The claims on example disks *)

Lemma reference_mixed_chunks :
  reference mixed_chunks mixed_files (pcm_mono16 2).
Proof.
  split; [reflexivity|]. split; [vm_compute; reflexivity|].
  do 3 eexists. split; reflexivity.
Defined.

Lemma header_fits_mono16 (frames : Z) : header_fits (pcm_mono16 frames).
Proof. unfold header_fits. simpl. lia. Defined.

Lemma data_fits_mixed_chunks :
  data_fits (merged_data mixed_chunks (pcm_mono16 2) mixed_files).
Proof. vm_compute. reflexivity. Defined.

(** C10 with batches of one file on the disk of four chunks. *)
Lemma batching_is_transparent_witness :
  (0 < 1)%nat
  /\ exists s1 s2,
      process_batches mixed_chunks (pcm_mono16 2) mixed_files 1
        {| out := opened; total_frames := 0; log := [] |} = (Ok tt, s1)
      /\ process_one_by_one mixed_chunks (pcm_mono16 2) mixed_files
           {| out := opened; total_frames := 0; log := [] |} = (Ok tt, s2)
      /\ out s1 = out s2
      /\ total_frames s1 = total_frames s2
      /\ without_progress (log s1) = without_progress (log s2).
Proof.
  split; [apply Nat.lt_0_1|].
  exact (proj1 (batching_is_transparent mixed_chunks (pcm_mono16 2)
                  mixed_files 1 Nat.lt_0_1)
               {| out := opened; total_frames := 0; log := [] |}).
Defined.

Lemma writer_accepts_mono16 (frames : Z) : writer_accepts (pcm_mono16 frames).
Proof. unfold writer_accepts. simpl. repeat split; lia. Defined.

Lemma announced_length_fits_mono16 :
  announced_length_fits (pcm_mono16 2).
Proof. unfold announced_length_fits. simpl. lia. Defined.


(** A first chunk of 64-bit samples: [merge_audio_fixed] merges it,
    [merge_wav_files] fails when it sets the parameters of its output
    and leaves an empty file. *)
Example writer_refuses_wide_samples :
  merge_wav_files "temp_audio_chunks" "merged.wav" wide_samples empty_world
  = (Some false,
     {| files := {["merged.wav"%string := Raw []]};
        stdout := [MsgFound 2; MsgParams 1 22050;
                   MsgError "sample width not specified"] |})
  /\ fst (merge_audio_fixed wide_samples empty_world) = Completed 1.
Proof. split; vm_compute; reflexivity. Qed.

(** C3, amended, on the disk of four chunks and on the disk whose first
    chunk is damaged. *)
Lemma merge_survives_later_bad_chunks_witness :
  (fst (merge_audio_fixed mixed_chunks empty_world)
   = Completed (merged_frames mixed_chunks (pcm_mono16 2) mixed_files)
   /\ In (MsgSkipCorrupt "chunk_0002.wav" "file does not start with RIFF id")
         (stdout (snd (merge_audio_fixed mixed_chunks empty_world))))
  /\ (fst (merge_audio_fixed bad_first empty_world)
      = Failed (WaveOpenError "file does not start with RIFF id")
      /\ files (snd (merge_audio_fixed bad_first empty_world)) = ∅).
Proof.
  split.
  - destruct (proj2 (merge_survives_later_bad_chunks mixed_chunks empty_world
                       "temp_audio_chunks/chunk_0000.wav"
                       (tl mixed_files) eq_refl
                       ltac:(vm_compute; reflexivity))
                    (pcm_mono16 2) [x01; x02; x03; x04] eq_refl
                    (header_fits_mono16 2) data_fits_mixed_chunks)
      as [Hdone Hrec].
    split; [exact Hdone|].
    apply (Hrec "temp_audio_chunks/chunk_0002.wav"%string);
      [vm_compute; tauto|reflexivity].
  - destruct (proj1 (merge_survives_later_bad_chunks bad_first empty_world
                       "temp_audio_chunks/chunk_0000.wav"
                       ["temp_audio_chunks/chunk_0001.wav"%string] eq_refl
                       ltac:(vm_compute; reflexivity))
                    "file does not start with RIFF id"%string eq_refl)
      as (Hfail & Hfiles & _).
    split; [exact Hfail|exact Hfiles].
Defined.

(** C7 on an existing folder without chunk files. *)
Lemma empty_folder_is_an_error_witness :
  path_exists empty_folder "temp_audio_chunks" = true
  /\ glob_chunks empty_folder "temp_audio_chunks" = []
  /\ merge_audio_fixed empty_folder empty_world
     = (NoChunkFiles, print MsgNoChunks empty_world)
  /\ files (snd (merge_audio_fixed empty_folder empty_world)) = ∅.
Proof.
  destruct (empty_folder_is_an_error empty_folder empty_world eq_refl eq_refl)
    as (Hrun & Hfiles & _).
  split; [reflexivity|]. split; [reflexivity|].
  split; [exact Hrun|exact Hfiles].
Defined.


(** C9 on the disk of four chunks, merged into [a.wav] and then into
    [b.wav]. *)
Lemma merge_is_deterministic_witness :
  ~ In "a.wav"%string (glob_chunks mixed_chunks "temp_audio_chunks")
  /\ ~ In "b.wav"%string (glob_chunks mixed_chunks "temp_audio_chunks")
  /\ merge_audio_fixed_to "a.wav" 100 mixed_chunks empty_world
     = (Completed 4,
        snd (merge_audio_fixed_to "a.wav" 100 mixed_chunks empty_world))
  /\ exists w2 image,
      merge_audio_fixed_to "b.wav" 100 mixed_chunks
        (snd (merge_audio_fixed_to "a.wav" 100 mixed_chunks empty_world))
      = (Completed 4, w2)
      /\ files w2 !! "a.wav"%string = Some (Raw image)
      /\ files w2 !! "b.wav"%string = Some (Raw image).
Proof.
  assert (H : merge_audio_fixed_to "a.wav" 100 mixed_chunks empty_world
              = (Completed 4,
                 snd (merge_audio_fixed_to "a.wav" 100 mixed_chunks
                                           empty_world)))
    by (vm_compute; reflexivity).
  assert (Ha : ~ In "a.wav"%string
                 (glob_chunks mixed_chunks "temp_audio_chunks"))
    by (vm_compute; intros [E|[E|[E|[E|[]]]]]; discriminate E).
  assert (Hb : ~ In "b.wav"%string
                 (glob_chunks mixed_chunks "temp_audio_chunks"))
    by (vm_compute; intros [E|[E|[E|[E|[]]]]]; discriminate E).
  split; [exact Ha|]. split; [exact Hb|]. split; [exact H|].
  exact (merge_is_deterministic mixed_chunks empty_world _ 100
           "a.wav" "b.wav" 4 Ha Hb H).
Defined.

Example struct_pack_L_range :
  fst (pack_L 4294967296 {| out := opened; total_frames := 0; log := [] |})
  = Raise StructError.
Proof. reflexivity. Qed.

Example merge_of_equal_chunks :
  fst (merge_audio_fixed mixed_chunks empty_world) = Completed 4.
Proof. vm_compute. reflexivity. Qed.

End MergeFacts.

(* ===================================================================== *)
(** ** More about the chunkers: whole pieces, blank input, short input *)
(* ===================================================================== *)

Module PiecesFacts.

Import Chunker Pieces ChunkerFacts.

(** *** Groups of pieces *)

Lemma starts_solid_truthy (x : text) : starts_solid x -> truthy x = true.
Proof. intros (c & r & -> & _). reflexivity. Qed.

Lemma with_stop_solid (s : text) : starts_solid s -> starts_solid (with_stop s).
Proof. apply starts_solid_app. Qed.

Lemma concat_solid_nil (g : list text) :
  Forall starts_solid g -> concat g = [] -> g = [].
Proof.
  destruct 1 as [|x g (c & r & -> & _) _]; [reflexivity|discriminate].
Qed.

Lemma concat_solid (g : list text) :
  Forall starts_solid g -> g <> [] -> starts_solid (concat g).
Proof.
  destruct 1 as [|x g Hx _]; [contradiction|].
  intros _. simpl. now apply starts_solid_app.
Qed.

Lemma concat_snoc {A} (l : list A) (x : A) (f : A -> text) :
  concat (map f (l ++ [x])) = concat (map f l) ++ f x.
Proof. now rewrite map_app, concat_app; simpl; rewrite app_nil_r. Qed.

Lemma concat_snoc_text (l : list text) (x : text) :
  concat (l ++ [x]) = concat l ++ x.
Proof. now rewrite concat_app; simpl; rewrite app_nil_r. Qed.

Lemma concat_snoc_group (l : list (list text)) (x : list text) :
  concat (l ++ [x]) = concat l ++ x.
Proof. now rewrite concat_app; simpl; rewrite app_nil_r. Qed.

Lemma grouped_init : grouped [] ([], []).
Proof. exists [], []. split; [constructor|]. now split. Qed.

Lemma grouped_extend (P : list text) (chunks : list text) (cur q : text) :
  grouped P (chunks, cur) -> grouped (P ++ [q]) (chunks, cur ++ q).
Proof.
  intros (groups & g & Hne & HP & Hc & Hcur). simpl in *.
  exists groups, (g ++ [q]). split; [exact Hne|]. split; [|split].
  - now rewrite <- HP, app_assoc.
  - exact Hc.
  - cbn [snd]. now rewrite (concat_snoc_text g q), Hcur.
Qed.

Lemma grouped_restart (P : list text) (chunks : list text) (cur q : text) :
  Forall starts_solid P ->
  grouped P (chunks, cur) -> grouped (P ++ [q]) (flush chunks cur, q).
Proof.
  intros Hs (groups & g & Hne & HP & Hc & Hcur). simpl in *.
  assert (Hg : Forall starts_solid g).
  { rewrite <- HP in Hs. now apply Forall_app in Hs. }
  unfold flush. destruct (truthy cur) eqn:Ht.
  - exists (groups ++ [g]), [q]. split; [|split; [|split]].
    + apply Forall_app. split; [exact Hne|].
      constructor; [|constructor]. intros ->. subst cur. discriminate.
    + now rewrite (concat_snoc_group groups g), <- HP.
    + cbn [fst]. now rewrite map_app, Hc, Hcur.
    + cbn [snd concat]. now rewrite app_nil_r.
  - apply truthy_false in Ht.
    assert (g = []) by (apply (concat_solid_nil g Hg); congruence).
    subst g. simpl in Hcur. clear Ht. subst cur.
    exists groups, [q]. split; [exact Hne|]. split; [|split].
    + rewrite <- HP. now rewrite app_nil_r.
    + exact Hc.
    + cbn [snd concat]. now rewrite app_nil_r.
Qed.

Lemma grouped_finish (P : list text) (chunks : list text) (cur : text) :
  Forall starts_solid P ->
  grouped P (chunks, cur) -> groups_of P (flush chunks cur).
Proof.
  intros Hs (groups & g & Hne & HP & Hc & Hcur). simpl in *.
  assert (Hg : Forall starts_solid g).
  { rewrite <- HP in Hs. now apply Forall_app in Hs. }
  unfold flush. destruct (truthy cur) eqn:Ht.
  - exists (groups ++ [g]). split; [|split].
    + apply Forall_app. split; [exact Hne|].
      constructor; [|constructor]. intros ->. subst cur. discriminate.
    + now rewrite (concat_snoc_group groups g).
    + now rewrite map_app, Hc, Hcur.
  - apply truthy_false in Ht.
    assert (g = []) by (apply (concat_solid_nil g Hg); congruence).
    subst g. simpl in Hcur. clear Ht. subst cur.
    exists groups. split; [exact Hne|]. split; [|exact Hc].
    now rewrite app_nil_r in HP.
Qed.

(** *** The steps of the two loops add whole pieces *)

Lemma nonempty_stripped_one (s : text) :
  nonempty_stripped [s] = if truthy (strip s) then [strip s] else [].
Proof. reflexivity. Qed.

Lemma nonempty_stripped_solid (l : list text) :
  Forall starts_solid (nonempty_stripped l).
Proof.
  induction l as [|s l IH]; [constructor|].
  rewrite nonempty_stripped_cons, nonempty_stripped_one.
  apply Forall_app. split; [|exact IH].
  destruct (truthy (strip s)) eqn:Ht; [|constructor].
  constructor; [|constructor]. now apply strip_truthy_solid.
Qed.

Lemma with_stops_solid (l : list text) :
  Forall starts_solid l -> Forall starts_solid (map with_stop l).
Proof.
  induction 1; simpl; constructor; auto using with_stop_solid.
Qed.

Lemma sentence_step_grouped (m : Z) (P : list text) (st : chunker_state)
      (s : text) :
  terminator_free s ->
  Forall starts_solid P -> grouped P st ->
  grouped (P ++ map with_stop (nonempty_stripped [s])) (sentence_step m st s).
Proof.
  intros Hfree Hs H. destruct st as [chunks cur].
  rewrite nonempty_stripped_one. unfold sentence_step.
  destruct (truthy (strip s)) eqn:Ht; simpl; [|now rewrite app_nil_r].
  rewrite (endswith_terminator_free (strip s))
    by now apply terminator_free_strip.
  simpl.
  destruct (len cur + len (strip s ++ [FULL_STOP_CJK]) <? m).
  - now apply grouped_extend.
  - now apply grouped_restart.
Qed.

Lemma sentences_fold_grouped (m : Z) (l : list text) (P : list text)
      (st : chunker_state) :
  (forall s, In s l -> terminator_free s) ->
  Forall starts_solid P -> grouped P st ->
  grouped (P ++ map with_stop (nonempty_stripped l))
          (fold_left (sentence_step m) l st).
Proof.
  revert P st. induction l as [|s l IH]; intros P st Hfree Hs H; simpl.
  - now rewrite app_nil_r.
  - rewrite nonempty_stripped_cons, map_app, app_assoc.
    apply IH.
    + intros x Hx. apply Hfree. now right.
    + apply Forall_app. split; [exact Hs|].
      apply with_stops_solid, nonempty_stripped_solid.
    + apply sentence_step_grouped; auto. apply Hfree. now left.
Qed.

Lemma paragraph_pieces_solid (m : Z) (p : text) :
  Forall starts_solid (paragraph_pieces m p).
Proof.
  unfold paragraph_pieces.
  destruct (truthy (strip p)) eqn:Ht; simpl; [|constructor].
  destruct (len (strip p) >? m).
  - apply with_stops_solid, nonempty_stripped_solid.
  - constructor; [|constructor].
    apply starts_solid_app. now apply strip_truthy_solid.
Qed.

Lemma paragraph_step_grouped (m : Z) (P : list text) (st : chunker_state)
      (p : text) :
  Forall starts_solid P -> grouped P st ->
  grouped (P ++ paragraph_pieces m p) (paragraph_step m st p).
Proof.
  intros Hs H. destruct st as [chunks cur].
  unfold paragraph_step, paragraph_pieces.
  destruct (truthy (strip p)) eqn:Ht; simpl; [|now rewrite app_nil_r].
  destruct (len (strip p) >? m).
  - apply sentences_fold_grouped; auto.
    intros s Hin. eapply re_split_terminator_free; eauto.
  - destruct (len cur + len (strip p) <? m).
    + now apply grouped_extend.
    + now apply grouped_restart.
Qed.

Lemma paragraphs_fold_grouped (m : Z) (l : list text) (P : list text)
      (st : chunker_state) :
  Forall starts_solid P -> grouped P st ->
  grouped (P ++ flat_map (paragraph_pieces m) l)
          (fold_left (paragraph_step m) l st)
  /\ Forall starts_solid (P ++ flat_map (paragraph_pieces m) l).
Proof.
  revert P st. induction l as [|p l IH]; intros P st Hs H; simpl.
  - now rewrite app_nil_r.
  - rewrite app_assoc. apply IH.
    + apply Forall_app. split; [exact Hs|apply paragraph_pieces_solid].
    + now apply paragraph_step_grouped.
Qed.

Lemma chunk_step_grouped (m : Z) (P : list text) (st : chunker_state)
      (s : text) :
  Forall starts_solid P -> grouped P st ->
  grouped (P ++ map with_stop (nonempty_stripped [s])) (chunk_step m st s).
Proof.
  intros Hs H. destruct st as [chunks cur].
  rewrite nonempty_stripped_one. unfold chunk_step.
  destruct (truthy (strip s)) eqn:Ht; simpl; [|now rewrite app_nil_r].
  destruct (len cur + len (strip s) <? m).
  - now apply grouped_extend.
  - now apply grouped_restart.
Qed.

Lemma chunks_fold_grouped (m : Z) (l : list text) (P : list text)
      (st : chunker_state) :
  Forall starts_solid P -> grouped P st ->
  grouped (P ++ map with_stop (nonempty_stripped l))
          (fold_left (chunk_step m) l st).
Proof.
  revert P st. induction l as [|s l IH]; intros P st Hs H; simpl.
  - now rewrite app_nil_r.
  - rewrite nonempty_stripped_cons, map_app, app_assoc.
    apply IH.
    + apply Forall_app. split; [exact Hs|].
      apply with_stops_solid, nonempty_stripped_solid.
    + now apply chunk_step_grouped.
Qed.

Lemma smart_groups (t : text) (m : Z) :
  groups_of (smart_pieces t m) (split_text_smart t m)
  /\ Forall starts_solid (smart_pieces t m).
Proof.
  rewrite split_text_smart_eq.
  destruct (paragraphs_fold_grouped m (split_paragraphs t) [] ([], []))
    as [H Hs]; [constructor|apply grouped_init|].
  simpl in H, Hs. split; [|exact Hs].
  apply grouped_finish; [exact Hs|].
  now destruct (fold_left (paragraph_step m) (split_paragraphs t) ([], [])).
Qed.

Lemma chunk_groups (t : text) (m : Z) :
  groups_of (map with_stop (sentences t)) (split_text_into_chunks t m).
Proof.
  rewrite split_text_into_chunks_eq.
  pose proof (chunks_fold_grouped m (re_split t) [] ([], [])
                (List.Forall_nil _) grouped_init) as H.
  simpl in H. apply grouped_finish.
  - apply with_stops_solid, nonempty_stripped_solid.
  - now destruct (fold_left (chunk_step m) (re_split t) ([], [])).
Qed.

(** *** Units are whole pieces *)

(** X1 (split_text_smart keeps pieces whole): the units returned by
    [split_text_smart] cut the list of pieces -- for each non-blank
    paragraph either the stripped paragraph followed by a line feed, or,
    when it is longer than the limit, its sentences each closed by the
    ideographic full stop -- into consecutive non-empty groups; every
    unit is the stripped concatenation of one group, so no piece is
    split, dropped, repeated or moved. *)
Theorem smart_units_are_whole_pieces (t : text) (max_chunk_size : Z) :
  groups_of (smart_pieces t max_chunk_size)
            (split_text_smart t max_chunk_size).
Proof. apply smart_groups. Qed.

Lemma concat_groups_map {A B} (f : A -> B) (groups : list (list B))
      (l : list A) :
  concat groups = map f l ->
  exists groups', groups = map (map f) groups' /\ concat groups' = l.
Proof.
  revert l. induction groups as [|g groups IH]; intros l H; simpl in H.
  - exists []. split; [reflexivity|].
    destruct l; [reflexivity|discriminate].
  - symmetry in H. apply map_eq_app in H.
    destruct H as (l1 & l2 & -> & H1 & H2).
    symmetry in H2. destruct (IH l2 H2) as (groups' & -> & <-).
    exists (l1 :: groups'). now rewrite <- H1.
Qed.

Lemma closed_chunk_with_stops (g : list text) :
  Forall starts_solid g -> closed_chunk (concat (map with_stop g)).
Proof.
  induction g as [|s g IH] using rev_ind; intros H; [now left|].
  apply Forall_app in H. destruct H as [Hg Hs].
  apply Forall_inv in Hs. rewrite concat_snoc.
  now apply closed_chunk_extend; [apply IH|].
Qed.

Lemma sentences_solid (t : text) : Forall starts_solid (sentences t).
Proof. apply nonempty_stripped_solid. Qed.

Lemma in_group_in_concat {A} (groups : list (list A)) (g : list A) (x : A) :
  In g groups -> In x g -> In x (concat groups).
Proof. intros Hg Hx. apply in_concat. eauto. Qed.

Lemma group_solid (pieces : list text) (groups : list (list text))
      (g : list text) :
  Forall starts_solid pieces -> concat groups = pieces -> In g groups ->
  Forall starts_solid g.
Proof.
  intros Hs <- Hg. apply List.Forall_forall. intros x Hx.
  rewrite List.Forall_forall in Hs. apply Hs.
  eapply in_group_in_concat; eauto.
Qed.

(** X2 (split_text_into_chunks keeps sentences whole): the units of
    [split_text_into_chunks] cut the list of sentences of the text (the
    stripped, non-empty fragments between terminators) into consecutive
    non-empty groups, and a unit is exactly the sentences of its group,
    each followed by the ideographic full stop: every terminator of the
    input, whichever it was, comes out as that full stop. *)
Theorem chunk_units_are_whole_sentences (t : text) (max_chunk_size : Z) :
  exists groups : list (list text),
    Forall (fun g => g <> []) groups
    /\ concat groups = sentences t
    /\ split_text_into_chunks t max_chunk_size
       = map (fun g => concat (map with_stop g)) groups.
Proof.
  destruct (chunk_groups t max_chunk_size) as (groups & Hne & Hcat & ->).
  destruct (concat_groups_map with_stop groups (sentences t) Hcat)
    as (groups' & -> & Hcat').
  exists groups'. split; [|split; [exact Hcat'|]].
  - apply List.Forall_forall. intros g Hg Hnil. subst g.
    rewrite List.Forall_forall in Hne.
    apply (Hne (map with_stop [])); [|reflexivity].
    now apply (in_map (map with_stop)) in Hg.
  - rewrite map_map. apply map_ext_in. intros g Hg.
    apply closed_chunk_strip, closed_chunk_with_stops.
    eapply group_solid; [apply sentences_solid|exact Hcat'|exact Hg].
Qed.

Lemma strip_solid_nonempty (x : text) : starts_solid x -> strip x <> [].
Proof.
  intros (c & r & -> & Hc). unfold strip. rewrite (lstrip_solid c r Hc).
  simpl. destruct (rstrip r); [now rewrite Hc|discriminate].
Qed.

Lemma groups_of_units (pieces units : list text) (u : text) :
  Forall starts_solid pieces -> groups_of pieces units -> In u units ->
  u <> [] /\ strip u = u.
Proof.
  intros Hs (groups & Hne & Hcat & ->) Hu.
  apply in_map_iff in Hu. destruct Hu as (g & <- & Hg).
  split; [|apply strip_idempotent].
  apply strip_solid_nonempty, concat_solid.
  - eapply group_solid; eauto.
  - rewrite List.Forall_forall in Hne. now apply Hne.
Qed.

(** X3 (no empty unit, no surrounding white space): every unit returned
    by [split_text_smart] or by [split_text_into_chunks] is non-empty and
    neither starts nor ends with white space ([strip] leaves it as it
    is), for every text and every limit. *)
Theorem units_are_stripped_and_nonempty (t : text) (max_chunk_size : Z)
        (u : text) :
  In u (split_text_smart t max_chunk_size)
  \/ In u (split_text_into_chunks t max_chunk_size) ->
  u <> [] /\ strip u = u.
Proof.
  intros [Hu|Hu].
  - destruct (smart_groups t max_chunk_size) as [Hg Hs].
    eapply groups_of_units; eauto.
  - eapply groups_of_units; [|apply chunk_groups|exact Hu].
    apply with_stops_solid, sentences_solid.
Qed.

(** *** When no unit comes out *)

Lemma concat_nil_groups {A} (groups : list (list A)) :
  Forall (fun g => g <> []) groups -> concat groups = [] -> groups = [].
Proof.
  destruct 1 as [|g groups Hg _]; [reflexivity|].
  simpl. intros H. apply app_eq_nil in H. destruct H. contradiction.
Qed.

Lemma groups_of_nil (pieces units : list text) :
  groups_of pieces units -> (units = [] <-> pieces = []).
Proof.
  intros (groups & Hne & <- & ->). split.
  - intros H. apply map_eq_nil in H. now subst groups.
  - intros H. now rewrite (concat_nil_groups groups Hne H).
Qed.

Lemma content_concat_nil (l : list text) :
  content (concat l) = [] <-> Forall (fun f => content f = []) l.
Proof.
  induction l as [|f l IH]; simpl.
  - split; [constructor|reflexivity].
  - rewrite content_app. split.
    + intros H. apply app_eq_nil in H. destruct H as [Hf Hl].
      constructor; [exact Hf|now apply IH].
    + intros H. inversion H as [|? ? Hf Hl]; subst.
      rewrite Hf. now apply IH.
Qed.

Lemma solid_free_content (x : text) :
  starts_solid x -> terminator_free x -> content x <> [].
Proof.
  intros (c & r & -> & Hc) Hfree. apply Forall_inv in Hfree.
  unfold content. simpl. unfold is_content. now rewrite Hfree, Hc.
Qed.

Lemma nonempty_stripped_nil (l : list text) :
  nonempty_stripped l = [] <-> Forall (fun f => strip f = []) l.
Proof.
  induction l as [|f l IH].
  - split; [constructor|reflexivity].
  - rewrite nonempty_stripped_cons, nonempty_stripped_one. split.
    + intros H. apply app_eq_nil in H. destruct H as [Hf Hl].
      constructor; [|now apply IH].
      destruct (truthy (strip f)) eqn:Ht; [discriminate|].
      now apply truthy_false.
    + intros H. inversion H as [|? ? Hf Hl]; subst.
      rewrite Hf. simpl. now apply IH.
Qed.

Lemma sentences_nil (t : text) : sentences t = [] <-> content t = [].
Proof.
  unfold sentences. rewrite nonempty_stripped_nil.
  rewrite <- (content_re_split t), content_concat_nil.
  split; intros H; apply List.Forall_forall; intros f Hf;
    rewrite List.Forall_forall in H; specialize (H f Hf).
  - now rewrite <- content_strip, H.
  - destruct (strip_cases f) as [He|Hsolid]; [exact He|].
    exfalso. apply (solid_free_content (strip f) Hsolid).
    + apply terminator_free_strip. eapply re_split_terminator_free; eauto.
    + now rewrite content_strip.
Qed.

Lemma blank_content (t : text) : blank t -> content t = [].
Proof.
  induction 1 as [|c t Hc _ IH]; [reflexivity|].
  now rewrite content_space.
Qed.

Lemma blank_strip (t : text) : blank t -> strip t = [].
Proof.
  intros H. unfold strip.
  assert (E : lstrip t = []); [|now rewrite E].
  induction H as [|c t Hc _ IH]; [reflexivity|]. simpl. now rewrite Hc.
Qed.

(** X4 (when split_text_into_chunks returns nothing): the list of units
    is empty exactly when the text has no character other than sentence
    terminators and white space; in particular a blank text gives no
    unit, and so does a text of punctuation only, which is not blank. *)
Theorem no_sentence_no_unit (t : text) (max_chunk_size : Z) :
  (split_text_into_chunks t max_chunk_size = [] <-> content t = [])
  /\ (blank t -> split_text_into_chunks t max_chunk_size = []).
Proof.
  assert (H : split_text_into_chunks t max_chunk_size = []
              <-> content t = []).
  { rewrite (groups_of_nil _ _ (chunk_groups t max_chunk_size)).
    rewrite <- sentences_nil. split; intros E.
    - now apply map_eq_nil in E.
    - now rewrite E. }
  split; [exact H|]. intros Hb. apply H. now apply blank_content.
Qed.

Lemma in_cons_head (c : char) (pieces : list text) (p : text) :
  In p (cons_head c pieces) ->
  (exists q, p = c :: q /\ (In q pieces \/ (pieces = [] /\ q = [])))
  \/ In p pieces.
Proof.
  destruct pieces as [|q qs]; simpl.
  - intros [<-|[]]. left. exists []. auto.
  - intros [<-|H]; [left; exists q; auto|right; auto].
Qed.

Lemma split_paragraphs_chars (n : nat) (t p : text) (Q : char -> Prop) :
  (length t <= n)%nat -> Forall Q t -> In p (split_paragraphs t) ->
  Forall Q p.
Proof.
  revert t p. induction n as [|n IH]; intros t p Hn HQ Hp.
  - destruct t; [|simpl in Hn; lia]. destruct Hp as [<-|[]]. constructor.
  - destruct t as [|c [|d t]].
    + destruct Hp as [<-|[]]. constructor.
    + destruct Hp as [<-|[]]. exact HQ.
    + change (split_paragraphs (c :: d :: t))
        with (if ((c =? LF) && (d =? LF))%N then [] :: split_paragraphs t
              else cons_head c (split_paragraphs (d :: t))) in Hp.
      inversion HQ as [|? ? Hc HQ1]; subst.
      inversion HQ1 as [|? ? Hd HQ2]; subst.
      destruct ((c =? LF) && (d =? LF))%N.
      * destruct Hp as [<-|Hp]; [constructor|].
        apply (IH t); auto. simpl in Hn. lia.
      * apply in_cons_head in Hp.
        destruct Hp as [(q & -> & [Hq|[_ ->]])|Hp].
        -- constructor; [exact Hc|]. apply (IH (d :: t)); auto.
           simpl in *. lia.
        -- now constructor.
        -- apply (IH (d :: t)); auto. simpl in *. lia.
Qed.

Lemma paragraph_pieces_nil (m : Z) (p : text) :
  paragraph_pieces m p = [] <-> silent_paragraph m p.
Proof.
  unfold paragraph_pieces, silent_paragraph.
  destruct (truthy (strip p)) eqn:Ht; simpl.
  - destruct (Z.gtb_spec (len (strip p)) m) as [Hgt|Hle].
    + split.
      * intros H. apply map_eq_nil in H. right. split; [lia|exact H].
      * intros [H|[_ H]]; [now rewrite H in Ht|now rewrite H].
    + split; [discriminate|].
      intros [H|[H _]]; [now rewrite H in Ht|lia].
  - apply truthy_false in Ht. split; auto.
Qed.

Lemma flat_map_nil {A B} (f : A -> list B) (l : list A) :
  flat_map f l = [] <-> Forall (fun x => f x = []) l.
Proof.
  induction l as [|x l IH]; simpl.
  - split; [constructor|reflexivity].
  - split.
    + intros H. apply app_eq_nil in H. destruct H as [Hx Hl].
      constructor; [exact Hx|now apply IH].
    + intros H. inversion H as [|? ? Hx Hl]; subst.
      rewrite Hx. now apply IH.
Qed.

(** X5 (when split_text_smart returns nothing): the list of units is
    empty exactly when every paragraph of the text is blank or is longer
    than the limit and holds terminators and white space only; a blank
    text therefore gives no unit. *)
Theorem silent_paragraphs_no_unit (t : text) (max_chunk_size : Z) :
  (split_text_smart t max_chunk_size = []
   <-> Forall (silent_paragraph max_chunk_size) (split_paragraphs t))
  /\ (blank t -> split_text_smart t max_chunk_size = []).
Proof.
  assert (H : split_text_smart t max_chunk_size = []
              <-> Forall (silent_paragraph max_chunk_size)
                         (split_paragraphs t)).
  { destruct (smart_groups t max_chunk_size) as [Hg _].
    rewrite (groups_of_nil _ _ Hg). unfold smart_pieces.
    rewrite flat_map_nil. split; intros E; apply List.Forall_forall;
      intros p Hp; rewrite List.Forall_forall in E; specialize (E p Hp);
      now apply paragraph_pieces_nil. }
  split; [exact H|]. intros Hb. apply H.
  apply List.Forall_forall. intros p Hp. left. apply blank_strip.
  exact (split_paragraphs_chars (length t) t p _ (le_n _) Hb Hp).
Qed.

(** *** A text shorter than the limit *)

Lemma weight_nonneg (l : list text) : 0 <= weight l.
Proof.
  induction l as [|p l IH]; simpl; [lia|]. pose proof (len_nonneg p). lia.
Qed.

Lemma weight_cons_head (c : char) (l : list text) :
  l <> [] -> weight (cons_head c l) = weight l + 1.
Proof.
  destruct l as [|p l]; [contradiction|]. intros _. simpl.
  unfold len. simpl length. lia.
Qed.

Lemma re_split_nonempty (t : text) : re_split t <> [].
Proof.
  destruct t as [|c t]; simpl; [discriminate|].
  destruct (is_terminator c); [discriminate|].
  destruct (re_split t); discriminate.
Qed.

Lemma weight_re_split (t : text) : weight (re_split t) = len t + 1.
Proof.
  induction t as [|c t IH]; [reflexivity|]. simpl re_split.
  destruct (is_terminator c).
  - simpl. rewrite IH. unfold len. simpl length. lia.
  - rewrite weight_cons_head by apply re_split_nonempty.
    rewrite IH. unfold len. simpl length. lia.
Qed.

Lemma split_paragraphs_nonempty (t : text) : split_paragraphs t <> [].
Proof.
  destruct t as [|c [|d t]]; try discriminate.
  change (split_paragraphs (c :: d :: t))
    with (if ((c =? LF) && (d =? LF))%N then [] :: split_paragraphs t
          else cons_head c (split_paragraphs (d :: t))).
  destruct ((c =? LF) && (d =? LF))%N; [discriminate|].
  destruct (split_paragraphs (d :: t)); discriminate.
Qed.

Lemma weight_split_paragraphs (n : nat) (t : text) :
  (length t <= n)%nat -> weight (split_paragraphs t) <= len t + 1.
Proof.
  revert t. induction n as [|n IH]; intros t Hn.
  - destruct t; [|simpl in Hn; lia]. simpl. unfold len. simpl. lia.
  - destruct t as [|c [|d t]]; [simpl; unfold len; simpl; lia..|].
    change (split_paragraphs (c :: d :: t))
      with (if ((c =? LF) && (d =? LF))%N then [] :: split_paragraphs t
            else cons_head c (split_paragraphs (d :: t))).
    destruct ((c =? LF) && (d =? LF))%N.
    + assert (H : (length t <= n)%nat) by (simpl in Hn; lia).
      apply IH in H. simpl weight. unfold len in *. simpl length. lia.
    + rewrite weight_cons_head by apply split_paragraphs_nonempty.
      assert (H : (length (d :: t) <= n)%nat) by (simpl in *; lia).
      apply IH in H. unfold len in *. simpl length in *. lia.
Qed.

Lemma chunks_fold_short (m : Z) (l : list text) (cur : text) :
  len cur + weight l <= m ->
  fst (fold_left (chunk_step m) l ([], cur)) = [].
Proof.
  revert cur. induction l as [|s l IH]; intros cur H; [reflexivity|].
  simpl fold_left. simpl weight in H.
  pose proof (weight_nonneg l). pose proof (len_strip s).
  unfold chunk_step. destruct (truthy (strip s)); simpl.
  - destruct (Z.ltb_spec (len cur + len (strip s)) m); [|lia].
    apply IH. rewrite !len_app. change (len [FULL_STOP_CJK]) with 1. lia.
  - apply IH. pose proof (len_nonneg s). lia.
Qed.

Lemma paragraphs_fold_short (m : Z) (l : list text) (cur : text) :
  len cur + weight l <= m ->
  fst (fold_left (paragraph_step m) l ([], cur)) = [].
Proof.
  revert cur. induction l as [|p l IH]; intros cur H; [reflexivity|].
  simpl fold_left. simpl weight in H.
  pose proof (weight_nonneg l). pose proof (len_strip p).
  pose proof (len_nonneg cur).
  unfold paragraph_step. destruct (truthy (strip p)); simpl.
  - destruct (Z.gtb_spec (len (strip p)) m); [lia|].
    destruct (Z.ltb_spec (len cur + len (strip p)) m); [|lia].
    apply IH. rewrite !len_app. change (len [LF]) with 1. lia.
  - apply IH. pose proof (len_nonneg p). lia.
Qed.

Lemma flush_short (cur : text) : (length (flush [] cur) <= 1)%nat.
Proof. unfold flush. destruct (truthy cur); simpl; lia. Qed.

(** X6 (a short text is not cut): when the text is shorter than the
    limit, [split_text_smart] and [split_text_into_chunks] both return
    at most one unit. *)
Theorem short_text_is_one_unit (t : text) (max_chunk_size : Z) :
  len t < max_chunk_size ->
  (length (split_text_smart t max_chunk_size) <= 1)%nat
  /\ (length (split_text_into_chunks t max_chunk_size) <= 1)%nat.
Proof.
  intros Hlt. split.
  - rewrite split_text_smart_eq, paragraphs_fold_short; [apply flush_short|].
    pose proof (weight_split_paragraphs (length t) t (le_n _)).
    change (len []) with 0. lia.
  - rewrite split_text_into_chunks_eq, chunks_fold_short;
      [apply flush_short|].
    rewrite weight_re_split. change (len []) with 0. lia.
Qed.

(** *** Instances *)

Lemma units_are_stripped_and_nonempty_witness :
  (In ([97; 98; 12290]%N : text) (split_text_smart example_text 5)
   \/ In ([97; 98; 12290]%N : text) (split_text_into_chunks example_text 5))
  /\ ([97; 98; 12290]%N : text) <> []
  /\ strip [97; 98; 12290]%N = [97; 98; 12290]%N.
Proof.
  assert (H : In ([97; 98; 12290]%N : text) (split_text_smart example_text 5)
              \/ In ([97; 98; 12290]%N : text)
                    (split_text_into_chunks example_text 5)).
  { left. vm_compute. now left. }
  split; [exact H|].
  exact (units_are_stripped_and_nonempty example_text 5 _ H).
Defined.

Lemma short_text_is_one_unit_witness :
  len example_text < 50
  /\ (length (split_text_smart example_text 50) <= 1)%nat
  /\ (length (split_text_into_chunks example_text 50) <= 1)%nat.
Proof.
  assert (H : len example_text < 50) by (vm_compute; reflexivity).
  split; [exact H|]. exact (short_text_is_one_unit example_text 50 H).
Defined.

(** A text of punctuation is not blank, and gives no unit. *)
Lemma no_sentence_no_unit_witness :
  strip [QUESTION; EXCLAMATION] <> []
  /\ content [QUESTION; EXCLAMATION] = []
  /\ split_text_into_chunks [QUESTION; EXCLAMATION] 1000 = [].
Proof.
  assert (H : content [QUESTION; EXCLAMATION] = []) by reflexivity.
  split; [discriminate|]. split; [exact H|].
  exact (proj2 (proj1 (no_sentence_no_unit [QUESTION; EXCLAMATION] 1000)) H).
Defined.

Lemma silent_paragraphs_no_unit_witness :
  blank [LF; 32%N; LF; LF; 9%N]
  /\ split_text_smart [LF; 32%N; LF; LF; 9%N] 800 = [].
Proof.
  assert (H : blank [LF; 32%N; LF; LF; 9%N]) by (repeat constructor).
  split; [exact H|].
  exact (proj2 (silent_paragraphs_no_unit [LF; 32%N; LF; LF; 9%N] 800) H).
Defined.

End PiecesFacts.

(* ===================================================================== *)
(** ** More about the catalogue: any listing, the generated names *)
(* ===================================================================== *)

Module NamesFacts.

Import Catalog Names CatalogFacts.

Local Open Scope string_scope.

(** *** The sort of an arbitrary listing *)

Lemma decorate_none (l : list string) :
  decorate l = None <-> exists f, In f l /\ sort_key f = None.
Proof.
  induction l as [|x l IH]; simpl.
  - split; [discriminate|]. now intros (f & [] & _).
  - destruct (sort_key x) as [k|] eqn:Ex.
    + destruct (decorate l) as [d|].
      * split; [discriminate|]. intros (f & [<-|Hf] & Hk); [congruence|].
        destruct IH as [_ IH]. discriminate IH. eauto.
      * split; [|reflexivity]. intros _.
        destruct IH as [IH _]. destruct (IH eq_refl) as (f & Hf & Hk).
        exists f. auto.
    + split; [|reflexivity]. intros _. exists x. auto.
Qed.

Lemma decorate_some (l : list string) (d : list (Z * string)) :
  decorate l = Some d -> map snd d = l /\ Forall well_keyed d.
Proof.
  revert d. induction l as [|x l IH]; simpl; intros d H.
  - injection H as <-. split; [reflexivity|constructor].
  - destruct (sort_key x) as [k|] eqn:Ex; [|discriminate].
    destruct (decorate l) as [d'|]; [|discriminate].
    injection H as <-. destruct (IH d' eq_refl) as [Hm Hk].
    split; [simpl; now rewrite Hm|]. constructor; [exact Ex|exact Hk].
Qed.

Lemma insert_keyed_stable (k : Z) (kx : Z * string) (l : list (Z * string)) :
  List.filter (fun kf => fst kf =? k)%Z (insert_keyed kx l)
  = List.filter (fun kf => fst kf =? k)%Z (kx :: l).
Proof.
  induction l as [|ky l IH]; [reflexivity|]. simpl insert_keyed.
  destruct (Z.leb_spec (fst kx) (fst ky)) as [Hle|Hgt]; [reflexivity|].
  simpl List.filter in *. rewrite IH.
  destruct (Z.eqb_spec (fst kx) k) as [Hx|Hx];
    destruct (Z.eqb_spec (fst ky) k) as [Hy|Hy]; try reflexivity.
  lia.
Qed.

Lemma sort_keyed_stable (k : Z) (l : list (Z * string)) :
  List.filter (fun kf => fst kf =? k)%Z (sort_keyed l)
  = List.filter (fun kf => fst kf =? k)%Z l.
Proof.
  induction l as [|kx l IH]; [reflexivity|]. simpl sort_keyed.
  rewrite insert_keyed_stable. simpl. now rewrite IH.
Qed.

Lemma filter_has_key (k : Z) (d : list (Z * string)) :
  Forall well_keyed d ->
  List.filter (has_key k) (map snd d)
  = map snd (List.filter (fun kf => fst kf =? k)%Z d).
Proof.
  induction 1 as [|kf d Hkf _ IH]; [reflexivity|]. simpl.
  unfold has_key at 1. rewrite Hkf, IH.
  now destruct (fst kf =? k)%Z.
Qed.

Lemma sorted_by_key_order (d : list (Z * string)) :
  Forall well_keyed d -> StronglySorted key_le d ->
  StronglySorted key_order (map snd d).
Proof.
  intros Hk. induction 1 as [|kf d Hs IH Hle]; simpl; [constructor|].
  inversion Hk as [|? ? Hkf Hk']; subst.
  constructor; [now apply IH|].
  apply List.Forall_forall. intros f Hf.
  apply in_map_iff in Hf. destruct Hf as (kg & <- & Hg).
  rewrite List.Forall_forall in Hle, Hk'.
  exists (fst kf), (fst kg). split; [exact Hkf|].
  split; [now apply Hk'|now apply Hle].
Qed.

Lemma sort_files_sorted (l r : list string) :
  sort_files l = Some r ->
  Permutation r l /\ StronglySorted key_order r
  /\ forall k, List.filter (has_key k) r = List.filter (has_key k) l.
Proof.
  unfold sort_files. destruct (decorate l) as [d|] eqn:Ed; [|discriminate].
  simpl. intros H. injection H as <-.
  destruct (decorate_some l d Ed) as [Hm Hk].
  assert (Hk' : Forall well_keyed (sort_keyed d)).
  { eapply Permutation_Forall; [|exact Hk].
    symmetry. apply sort_keyed_perm. }
  split; [|split].
  - rewrite <- Hm. apply Permutation_map, sort_keyed_perm.
  - apply sorted_by_key_order; [exact Hk'|apply sort_keyed_sorted].
  - intros k. rewrite filter_has_key by exact Hk'.
    rewrite sort_keyed_stable, <- filter_has_key by exact Hk.
    now rewrite Hm.
Qed.

Lemma sort_files_none (l : list string) :
  sort_files l = None <-> exists f, In f l /\ sort_key f = None.
Proof.
  rewrite <- decorate_none. unfold sort_files.
  destruct (decorate l); simpl; split; congruence.
Qed.


(** *** The names written by the converters *)

Lemma digit_char_code (n : nat) :
  Z.of_N (N_of_ascii (digit_char n)) = 48 + Z.of_nat (n mod 10).
Proof.
  unfold digit_char.
  assert (H : (n mod 10 < 10)%nat) by (apply Nat.mod_upper_bound; lia).
  remember (n mod 10)%nat as r. clear Heqr.
  do 10 (destruct r as [|r]; [reflexivity|]). lia.
Qed.

Lemma digit_char_digit (n : nat) : is_digit (digit_char n) = true.
Proof.
  unfold is_digit, digit_value. rewrite digit_char_code.
  assert (H : (n mod 10 < 10)%nat) by (apply Nat.mod_upper_bound; lia).
  destruct (Z.leb_spec 48 (48 + Z.of_nat (n mod 10))); [|lia].
  destruct (Z.leb_spec (48 + Z.of_nat (n mod 10)) 57); [reflexivity|lia].
Qed.

Lemma digits_of_all_digits (fuel n : nat) (acc : string) :
  all_digits acc = true -> all_digits (digits_of fuel n acc) = true.
Proof.
  revert n acc. induction fuel as [|fuel IH]; intros n acc H; [exact H|].
  cbn [digits_of].
  assert (H' : all_digits (String (digit_char n) acc) = true).
  { cbn [all_digits]. now rewrite digit_char_digit. }
  destruct (n / 10 =? 0)%nat; [exact H'|now apply IH].
Qed.

Lemma digits_of_nonempty (fuel n : nat) (acc : string) :
  digits_of (S fuel) n acc <> "".
Proof.
  revert n acc. induction fuel as [|fuel IH]; intros n acc.
  - cbn [digits_of]. destruct (n / 10 =? 0)%nat; discriminate.
  - cbn [digits_of] in *. destruct (n / 10 =? 0)%nat; [discriminate|].
    apply IH.
Qed.

Lemma digits_of_value (fuel n : nat) (acc : string) :
  (n < fuel)%nat ->
  fold_left (fun a c => 10 * a + (Z.of_N (N_of_ascii c) - 48))
            (list_ascii_of_string (digits_of fuel n acc)) 0
  = fold_left (fun a c => 10 * a + (Z.of_N (N_of_ascii c) - 48))
              (list_ascii_of_string acc) (Z.of_nat n).
Proof.
  revert n acc. induction fuel as [|fuel IH]; intros n acc Hn; [lia|].
  cbn [digits_of].
  pose proof (Nat.div_mod_eq n 10) as Hdm.
  destruct (Nat.eqb_spec (n / 10) 0) as [Hz|Hnz].
  - cbn [list_ascii_of_string fold_left]. rewrite digit_char_code.
    f_equal. lia.
  - rewrite IH.
    + cbn [list_ascii_of_string fold_left]. rewrite digit_char_code.
      f_equal. lia.
    + assert (n / 10 < n)%nat by (apply Nat.div_lt; lia). lia.
Qed.

Lemma list_ascii_app (a b : string) :
  list_ascii_of_string (a ++ b)
  = (list_ascii_of_string a ++ list_ascii_of_string b)%list.
Proof. induction a as [|c a IH]; simpl; [reflexivity|now rewrite IH]. Qed.

Lemma all_digits_app (a b : string) :
  all_digits (a ++ b) = all_digits a && all_digits b.
Proof.
  induction a as [|c a IH]; simpl; [reflexivity|].
  now rewrite IH, andb_assoc.
Qed.

Lemma zeros_all_digits (k : nat) : all_digits (zeros k) = true.
Proof. induction k as [|k IH]; [reflexivity|]. cbn [zeros all_digits]. now rewrite IH. Qed.

Lemma zeros_value (k : nat) :
  fold_left (fun a c => 10 * a + (Z.of_N (N_of_ascii c) - 48))
            (list_ascii_of_string (zeros k)) 0 = 0.
Proof. induction k; simpl; auto. Qed.

Lemma format_04d_number (i : nat) :
  is_number (format_04d i) /\ decimal (format_04d i) = Z.of_nat i.
Proof.
  unfold format_04d, str_of_nat. cbv zeta. split; [split|].
  - intros H. apply (digits_of_nonempty i i "").
    destruct (zeros (4 - String.length (digits_of (S i) i ""))); simpl in H;
      [exact H|discriminate].
  - rewrite all_digits_app, zeros_all_digits.
    now rewrite digits_of_all_digits.
  - unfold decimal. rewrite list_ascii_app, fold_left_app, zeros_value.
    rewrite digits_of_value by lia. reflexivity.
Qed.

Lemma sort_key_chunk_file_name (temp_folder : string) (i : nat) :
  sort_key (chunk_file_name temp_folder i) = Some (Z.of_nat i).
Proof.
  destruct (format_04d_number i) as [Hn Hd].
  unfold chunk_file_name. now rewrite sort_key_chunk_path, Hd.
Qed.

(** Two key-sorted lists with the same elements are equal when the key
    separates the elements. *)
Lemma sorted_perm_unique (l1 l2 : list string) :
  (forall a b ka kb, In a l2 -> In b l2 ->
     sort_key a = Some ka -> sort_key b = Some kb -> ka = kb -> a = b) ->
  Permutation l1 l2 ->
  StronglySorted key_order l1 -> StronglySorted key_order l2 -> l1 = l2.
Proof.
  revert l2. induction l1 as [|a l1 IH]; intros l2 Hinj Hp H1 H2.
  - apply Permutation_nil in Hp. now subst.
  - destruct l2 as [|b l2].
    + symmetry in Hp. apply Permutation_nil in Hp. discriminate.
    + apply StronglySorted_inv in H1. destruct H1 as [H1 Ha].
      apply StronglySorted_inv in H2. destruct H2 as [H2 Hb].
      rewrite List.Forall_forall in Ha, Hb.
      assert (Hab : a = b).
      { assert (Ina : In a (b :: l2)).
        { eapply Permutation_in; [exact Hp|now left]. }
        assert (Inb : In b (a :: l1)).
        { eapply Permutation_in; [symmetry; exact Hp|now left]. }
        destruct Ina as [E|Ina]; [now symmetry|].
        destruct Inb as [E|Inb]; [exact E|].
        destruct (Ha b Inb) as (ka & kb & Ka & Kb & Hle).
        destruct (Hb a Ina) as (kb' & ka' & Kb' & Ka' & Hle').
        assert (ka' = ka) by congruence. assert (kb' = kb) by congruence.
        subst. apply (Hinj a b ka kb); simpl; auto. lia. }
      subst b. f_equal. apply IH; auto.
      * intros x y kx ky Hx Hy. apply Hinj; now right.
      * now apply Permutation_cons_inv in Hp.
Qed.

Lemma chunk_file_names_sorted (temp_folder : string) (start n : nat) :
  StronglySorted key_order (map (chunk_file_name temp_folder) (seq start n)).
Proof.
  revert start. induction n as [|n IH]; intros start; simpl; [constructor|].
  constructor; [apply IH|].
  apply List.Forall_forall. intros f Hf.
  apply in_map_iff in Hf. destruct Hf as (j & <- & Hj).
  apply in_seq in Hj.
  exists (Z.of_nat start), (Z.of_nat j).
  rewrite !sort_key_chunk_file_name. repeat split. lia.
Qed.

(** X8 (the index in a chunk file name is the sort key): the name
    [chunk_{i:04d}.wav] the converters give to chunk [i] has sort key [i]
    for every index, also beyond 9999 where the number has more than
    four digits; hence, in whatever order the directory scan returns the
    files written for [n] chunks, the merge tools sort them back into
    the order of synthesis. *)
Theorem chunk_names_sort_in_synthesis_order (temp_folder : string) (n : nat)
        (found : list string) :
  Permutation found (chunk_file_names temp_folder n) ->
  (forall i, sort_key (chunk_file_name temp_folder i) = Some (Z.of_nat i))
  /\ sort_files found = Some (chunk_file_names temp_folder n).
Proof.
  intros Hp. split; [apply sort_key_chunk_file_name|].
  destruct (sort_files found) as [sorted|] eqn:Es.
  - destruct (sort_files_sorted found sorted Es) as (Hperm & Hsorted & _).
    f_equal. apply sorted_perm_unique.
    + intros a b ka kb Ha Hb Ka Kb E. unfold chunk_file_names in Ha, Hb.
      apply in_map_iff in Ha. destruct Ha as (i & <- & _).
      apply in_map_iff in Hb. destruct Hb as (j & <- & _).
      rewrite sort_key_chunk_file_name in Ka, Kb.
      assert (i = j) by (injection Ka; injection Kb; lia). now subst.
    + now rewrite Hperm.
    + exact Hsorted.
    + apply chunk_file_names_sorted.
  - apply sort_files_none in Es. destruct Es as (f & Hf & Hk).
    apply (Permutation_in _ Hp) in Hf. unfold chunk_file_names in Hf.
    apply in_map_iff in Hf. destruct Hf as (i & <- & _).
    rewrite sort_key_chunk_file_name in Hk. discriminate.
Qed.

(** *** Instances *)


Lemma chunk_names_sort_in_synthesis_order_witness :
  Permutation
    ["temp_audio_chunks/chunk_0002.wav"; "temp_audio_chunks/chunk_0000.wav";
     "temp_audio_chunks/chunk_0001.wav"]
    (chunk_file_names "temp_audio_chunks" 3)
  /\ sort_files
       ["temp_audio_chunks/chunk_0002.wav"; "temp_audio_chunks/chunk_0000.wav";
        "temp_audio_chunks/chunk_0001.wav"]
     = Some ["temp_audio_chunks/chunk_0000.wav";
             "temp_audio_chunks/chunk_0001.wav";
             "temp_audio_chunks/chunk_0002.wav"].
Proof.
  assert (H : Permutation
                ["temp_audio_chunks/chunk_0002.wav";
                 "temp_audio_chunks/chunk_0000.wav";
                 "temp_audio_chunks/chunk_0001.wav"]
                (chunk_file_names "temp_audio_chunks" 3)).
  { vm_compute.
    exact (Permutation_cons_append
             ["temp_audio_chunks/chunk_0000.wav";
              "temp_audio_chunks/chunk_0001.wav"]
             "temp_audio_chunks/chunk_0002.wav"). }
  split; [exact H|].
  exact (proj2 (chunk_names_sort_in_synthesis_order
                  "temp_audio_chunks" 3 _ H)).
Defined.

(** Beyond four digits the names are no longer in alphabetical order. *)
Example chunk_name_ten_thousand :
  chunk_file_name "temp_audio_chunks" (100 * 100)
  = "temp_audio_chunks/chunk_10000.wav"
  /\ chunk_file_name "temp_audio_chunks" 7 = "temp_audio_chunks/chunk_0007.wav".
Proof. split; vm_compute; reflexivity. Qed.

End NamesFacts.

(* ===================================================================== *)
(** ** More about the merge tools *)
(* ===================================================================== *)

Module LayoutFacts.

Import Catalog Merge Names Layout MergeFacts NamesFacts.

(** *** The header read back *)

Lemma unpack_le16 (v : Z) : 0 <= v < 65536 -> unpack_H (le16 v) = v.
Proof.
  intros Hv. unfold unpack_H, le16. rewrite !Z_of_byte_of_Z.
  pose proof (Z.div_mod v 256 ltac:(lia)).
  assert (0 <= v / 256 < 256)
    by (split; [apply Z.div_pos; lia|apply Z.div_lt_upper_bound; lia]).
  rewrite (Z.mod_small (v / 256) 256) by lia.
  lia.
Qed.

Lemma read_header_wav_image (params : wave_params) (data : list byte) :
  header_fits params -> data_fits data ->
  read_header (wav_image params data)
  = {| riff_tag := ascii_bytes "RIFF";
       riff_size := Z.of_nat (length data) + 36;
       wave_tag := ascii_bytes "WAVE";
       fmt_tag := ascii_bytes "fmt ";
       fmt_size := 16;
       audio_format := 1;
       channels := nchannels params;
       sample_rate := framerate params;
       byte_rate := framerate params * nchannels params * sampwidth params;
       block_align := nchannels params * sampwidth params;
       bits_per_sample := sampwidth params * 8;
       data_tag := ascii_bytes "data";
       data_size := Z.of_nat (length data) |}
  /\ sample_data (wav_image params data) = data.
Proof.
  intros (Hc & Hr & Hbr & Hba & Hbits) Hdata. unfold data_fits in Hdata.
  split; [|reflexivity]. unfold read_header.
  change (field 0 4 (wav_image params data)) with (ascii_bytes "RIFF").
  change (field 4 4 (wav_image params data))
    with (le32 (Z.of_nat (length data) + 36)).
  change (field 8 4 (wav_image params data)) with (ascii_bytes "WAVE").
  change (field 12 4 (wav_image params data)) with (ascii_bytes "fmt ").
  change (field 16 4 (wav_image params data)) with (le32 16).
  change (field 20 2 (wav_image params data)) with (le16 1).
  change (field 22 2 (wav_image params data)) with (le16 (nchannels params)).
  change (field 24 4 (wav_image params data)) with (le32 (framerate params)).
  change (field 28 4 (wav_image params data))
    with (le32 (framerate params * nchannels params * sampwidth params)).
  change (field 32 2 (wav_image params data))
    with (le16 (nchannels params * sampwidth params)).
  change (field 34 2 (wav_image params data))
    with (le16 (sampwidth params * 8)).
  change (field 36 4 (wav_image params data)) with (ascii_bytes "data").
  change (field 40 4 (wav_image params data))
    with (le32 (Z.of_nat (length data))).
  rewrite !unpack_le32, !unpack_le16 by lia. reflexivity.
Qed.

(** *** A run whose first chunk opens *)

Lemma merge_fixed_unfold (output_file : string) (bs : nat) (d : disk)
      (w : world) (wav_files : list string) (params : wave_params) :
  reference d wav_files params ->
  merge_audio_fixed_to output_file bs d w
  = (let w1 := print (MsgParams (nchannels params) (framerate params))
                     (print (MsgFound (length wav_files)) w) in
     let '(r, s) :=
       merge_block d params wav_files bs
         {| out := opened; total_frames := 0; log := stdout w1 |} in
     let w2 := {| files := <[output_file := Raw (content (out s))]> (files w1);
                  stdout := log s |} in
     match r with
     | Raise e => (Failed e, print (MsgError (exn_text e)) w2)
     | Ok _ =>
         (Completed (total_frames s),
          report_duration (total_frames s) (framerate params)
            (print (MsgDone output_file) w2))
     end).
Proof.
  intros (Hdir & Hsort & first & rest & frames & -> & Hopen).
  unfold merge_audio_fixed_to. rewrite Hdir. simpl negb. cbv iota.
  destruct (glob_chunks d "temp_audio_chunks") as [|g found] eqn:Hglob;
    [discriminate Hsort|].
  rewrite Hsort. cbv beta iota zeta. simpl nth_error. cbv beta iota.
  rewrite Hopen. reflexivity.
Qed.

Lemma skip_report_no_progress (d : disk) (params : wave_params)
      (l : list string) :
  without_progress (skip_report d params l) = skip_report d params l.
Proof.
  induction l as [|f l IH]; [reflexivity|].
  unfold skip_report in *. simpl. rewrite without_progress_app, IH.
  f_equal. unfold skip_message.
  destruct (wave_open d f) as [e|p frames]; [reflexivity|].
  now destruct (first4_eqb (first4 p) (first4 params)).
Qed.

Lemma chunks_log (d : disk) (params : wave_params) (l : list string)
      (s : state) :
  log (fold_left (fun s f => chunk_effect d params f s) l s)
  = log s ++ skip_report d params l.
Proof.
  revert s. induction l as [|f l IH]; intros s; simpl.
  - now rewrite app_nil_r.
  - rewrite IH. unfold skip_report. simpl. rewrite app_assoc. f_equal.
    unfold chunk_effect, skip_message.
    destruct (wave_open d f) as [e|p frames]; [reflexivity|].
    destruct (first4_eqb (first4 p) (first4 params)); simpl;
      [now rewrite app_nil_r|reflexivity].
Qed.

(** The copy loop from a freshly written header. *)
Lemma batches_from_header (d : disk) (params : wave_params)
      (l : list string) (bs : nat) (n : Z) (lg : list message) :
  (0 < bs)%nat ->
  exists s1,
    process_batches d params l bs
      {| out := {| content := placeholder_header params; position := 44 |};
         total_frames := n; log := lg |}
    = (Ok tt, s1)
    /\ out s1 = {| content := placeholder_header params
                              ++ merged_data d params l;
                   position := 44 + length (merged_data d params l) |}
    /\ total_frames s1 = n + merged_frames d params l
    /\ without_progress (log s1)
       = without_progress lg ++ skip_report d params l.
Proof.
  intros Hbs.
  set (s0 := {| out := {| content := placeholder_header params;
                          position := 44 |};
                total_frames := n; log := lg |}).
  destruct (process_batches_one_by_one d params l bs s0 Hbs)
    as (s1 & Hrun & Ho & Ht & Hl).
  exists s1. split; [exact Hrun|].
  destruct (chunks_closed_form d params l s0) as (Hc & He & Hn);
    [reflexivity|].
  pose proof (chunks_log d params l s0) as Hlog.
  set (s2 := fold_left (fun s f => chunk_effect d params f s) l s0) in *.
  split; [|split].
  - rewrite Ho. destruct (out s2) as [c p]. unfold at_end in He.
    simpl in Hc, He. subst c p. f_equal;
      try now rewrite length_app, length_placeholder_header.
  - rewrite Ht. exact Hn.
  - rewrite Hl, Hlog, without_progress_app, skip_report_no_progress.
    reflexivity.
Qed.

Lemma without_progress_one (m : message) :
  is_progress m = false -> without_progress [m] = [m].
Proof. intros H. unfold without_progress. simpl. now rewrite H. Qed.

Lemma merge_block_report (d : disk) (params : wave_params)
      (l : list string) (bs : nat) (lg : list message) :
  header_fits params -> (0 < bs)%nat ->
  data_fits (merged_data d params l) ->
  exists s',
    merge_block d params l bs {| out := opened; total_frames := 0; log := lg |}
    = (Ok tt, s')
    /\ content (out s') = wav_image params (merged_data d params l)
    /\ total_frames s' = merged_frames d params l
    /\ without_progress (log s')
       = without_progress lg ++ skip_report d params l.
Proof.
  intros Hfit Hbs Hdata. unfold merge_block, bind.
  rewrite (write_header_fits params
             {| out := opened; total_frames := 0; log := lg |} Hfit eq_refl).
  cbn [fst snd total_frames log].
  destruct (batches_from_header d params l bs 0 lg Hbs)
    as (s1 & Hrun & Hout & Ht & Hlog).
  rewrite Hrun.
  rewrite (patch_sizes_fits params (merged_data d params l) s1 Hout Hdata).
  eexists. split; [reflexivity|]. cbn [out content total_frames log].
  split; [reflexivity|]. split; [rewrite Ht; lia|exact Hlog].
Qed.

(** The complete run of [merge_audio_fixed] when every value fits. *)
Lemma merge_fixed_report (output_file : string) (bs : nat) (d : disk)
      (w : world) (wav_files : list string) (params : wave_params) :
  reference d wav_files params -> header_fits params -> (0 < bs)%nat ->
  data_fits (merged_data d params wav_files) ->
  exists printed,
    merge_audio_fixed_to output_file bs d w
    = (Completed (merged_frames d params wav_files),
       {| files := <[output_file :=
                       Raw (wav_image params
                              (merged_data d params wav_files))]> (files w);
          stdout := printed |})
    /\ without_progress printed
       = without_progress (stdout w)
         ++ [MsgFound (length wav_files);
             MsgParams (nchannels params) (framerate params)]
         ++ skip_report d params wav_files
         ++ [MsgDone output_file]
         ++ duration_report (merged_frames d params wav_files)
                            (framerate params).
Proof.
  intros Href Hfit Hbs Hdata.
  rewrite (merge_fixed_unfold output_file bs d w wav_files params Href).
  cbv zeta.
  match goal with |- context [merge_block _ _ _ _ ?s0] =>
    destruct (merge_block_report d params wav_files bs (log s0)
                Hfit Hbs Hdata) as (s' & Hrun & Hc & Ht & Hlog)
  end.
  cbn [log] in Hrun, Hlog. rewrite Hrun, Hc, Ht.
  rewrite report_duration_world. cbn [files stdout print].
  eexists. split; [reflexivity|].
  unfold duration_report.
  cbn [print stdout] in Hlog. rewrite !without_progress_app in Hlog.
  rewrite !(without_progress_one (MsgFound _)),
    !(without_progress_one (MsgParams _ _)) in Hlog by reflexivity.
  destruct (framerate params =? 0);
    rewrite !without_progress_app, Hlog;
    rewrite ?(without_progress_one (MsgDone _)),
      ?(without_progress_one (MsgDuration _ _)) by reflexivity;
    rewrite <- !app_assoc; reflexivity.
Qed.

(** *** When a value does not fit *)

Lemma pack_H_raises (v : Z) : ~ 0 <= v < 65536 -> pack_H v = raise StructError.
Proof.
  intros Hv. unfold pack_H.
  destruct (Z.leb_spec 0 v); [|reflexivity].
  destruct (Z.ltb_spec v 65536); [lia|reflexivity].
Qed.

Lemma pack_L_raises (v : Z) :
  ~ 0 <= v < 4294967296 -> pack_L v = raise StructError.
Proof.
  intros Hv. unfold pack_L.
  destruct (Z.leb_spec 0 v); [|reflexivity].
  destruct (Z.ltb_spec v 4294967296); [lia|reflexivity].
Qed.

Lemma in_range_dec (v bound : Z) : {0 <= v < bound} + {~ 0 <= v < bound}.
Proof.
  destruct (Z_le_dec 0 v); [|right; lia].
  destruct (Z_lt_dec v bound); [left; lia|right; lia].
Qed.

(** A header value that does not fit its field stops the run inside the
    header: what is left is a beginning of the header. *)
Lemma write_header_overflow (params : wave_params) (n : Z)
      (lg : list message) :
  ~ header_fits params ->
  exists image rest,
    write_header params {| out := opened; total_frames := n; log := lg |}
    = (Raise StructError,
       {| out := {| content := image; position := length image |};
          total_frames := n; log := lg |})
    /\ placeholder_header params = image ++ rest.
Proof.
  intros Hno. unfold header_fits in Hno. unfold write_header.
  destruct (in_range_dec (nchannels params) 65536) as [H1|H1].
  2:{ rewrite (pack_H_raises _ H1).
      exists (firstn 22 (placeholder_header params)),
             (skipn 22 (placeholder_header params)).
      split; [reflexivity|symmetry; apply firstn_skipn]. }
  rewrite (pack_H_fits _ H1).
  destruct (in_range_dec (framerate params) 4294967296) as [H2|H2].
  2:{ rewrite (pack_L_raises _ H2).
      exists (firstn 24 (placeholder_header params)),
             (skipn 24 (placeholder_header params)).
      split; [reflexivity|symmetry; apply firstn_skipn]. }
  rewrite (pack_L_fits _ H2).
  destruct (in_range_dec (framerate params * nchannels params
                          * sampwidth params) 4294967296) as [H3|H3].
  2:{ rewrite (pack_L_raises _ H3).
      exists (firstn 28 (placeholder_header params)),
             (skipn 28 (placeholder_header params)).
      split; [reflexivity|symmetry; apply firstn_skipn]. }
  rewrite (pack_L_fits _ H3).
  destruct (in_range_dec (nchannels params * sampwidth params) 65536)
    as [H4|H4].
  2:{ rewrite (pack_H_raises _ H4).
      exists (firstn 32 (placeholder_header params)),
             (skipn 32 (placeholder_header params)).
      split; [reflexivity|symmetry; apply firstn_skipn]. }
  rewrite (pack_H_fits _ H4).
  destruct (in_range_dec (sampwidth params * 8) 65536) as [H5|H5].
  2:{ rewrite (pack_H_raises _ H5).
      exists (firstn 34 (placeholder_header params)),
             (skipn 34 (placeholder_header params)).
      split; [reflexivity|symmetry; apply firstn_skipn]. }
  exfalso. apply Hno. auto.
Qed.

Lemma header_fits_dec (params : wave_params) :
  {header_fits params} + {~ header_fits params}.
Proof.
  unfold header_fits.
  destruct (in_range_dec (nchannels params) 65536); [|right; tauto].
  destruct (in_range_dec (framerate params) 4294967296); [|right; tauto].
  destruct (in_range_dec (framerate params * nchannels params
                          * sampwidth params) 4294967296); [|right; tauto].
  destruct (in_range_dec (nchannels params * sampwidth params) 65536);
    [|right; tauto].
  destruct (in_range_dec (sampwidth params * 8) 65536); [|right; tauto].
  left. tauto.
Qed.

(** *** Statements about whole runs *)


(** X10 (the printed report of a completed run): leaving the progress
    lines of the batches aside, a completed run of [merge_audio_fixed]
    prints, after what was on the screen, the number of files found,
    the reference parameters, one skip message for each chunk left out
    and none for a chunk that was copied, in catalogue order, the
    message of completion, and the duration (unless the frame rate is
    zero). *)
Theorem completed_run_prints_one_line_per_skipped_chunk (d : disk)
        (w : world) (wav_files : list string) (params : wave_params) :
  reference d wav_files params ->
  header_fits params ->
  data_fits (merged_data d params wav_files) ->
  without_progress (stdout (snd (merge_audio_fixed d w)))
  = without_progress (stdout w)
    ++ [MsgFound (length wav_files);
        MsgParams (nchannels params) (framerate params)]
    ++ skip_report d params wav_files
    ++ [MsgDone "镇国驸马爷-完整音频.wav"]
    ++ duration_report (merged_frames d params wav_files) (framerate params).
Proof.
  intros Href Hfit Hdata.
  destruct (merge_fixed_report "镇国驸马爷-完整音频.wav" 100 d w wav_files params
              Href Hfit ltac:(lia) Hdata) as (printed & Hrun & Hlog).
  fold merge_audio_fixed in Hrun. rewrite Hrun. exact Hlog.
Qed.

(** X11 (the header of the merged file reads back as the reference
    format): in a completed run of [merge_audio_fixed] the 44 bytes in
    front of the sample data decode to the tags RIFF, WAVE, fmt and
    data, a format chunk of 16 bytes for PCM (1), the channel count and
    the frame rate of the first chunk, the byte rate and the block
    alignment computed from them, the bits per sample, and the two
    sizes; what follows the header is the merged sample data. *)
Theorem merged_header_reads_back (d : disk) (w : world)
        (wav_files : list string) (params : wave_params) :
  reference d wav_files params ->
  header_fits params ->
  data_fits (merged_data d params wav_files) ->
  exists image,
    files (snd (merge_audio_fixed d w)) !! "镇国驸马爷-完整音频.wav"%string
    = Some (Raw image)
    /\ read_header image
       = {| riff_tag := ascii_bytes "RIFF";
            riff_size := Z.of_nat (length image) - 8;
            wave_tag := ascii_bytes "WAVE";
            fmt_tag := ascii_bytes "fmt ";
            fmt_size := 16;
            audio_format := 1;
            channels := nchannels params;
            sample_rate := framerate params;
            byte_rate := framerate params * nchannels params
                         * sampwidth params;
            block_align := nchannels params * sampwidth params;
            bits_per_sample := sampwidth params * 8;
            data_tag := ascii_bytes "data";
            data_size := Z.of_nat (length (merged_data d params wav_files)) |}
    /\ sample_data image = merged_data d params wav_files.
Proof.
  intros Href Hfit Hdata.
  destruct (merge_fixed_report "镇国驸马爷-完整音频.wav" 100 d w wav_files params
              Href Hfit ltac:(lia) Hdata) as (printed & Hrun & _).
  fold merge_audio_fixed in Hrun. rewrite Hrun. cbn [snd files].
  exists (wav_image params (merged_data d params wav_files)).
  split; [apply lookup_insert_eq|].
  destruct (read_header_wav_image params _ Hfit Hdata) as [Hh Hs].
  rewrite Hh, length_wav_image. split; [|exact Hs].
  f_equal. lia.
Qed.

(** *** Frames and bytes *)

Lemma first4_eqb_true (p q : wave_params) :
  first4_eqb (first4 p) (first4 q) = true ->
  nchannels p = nchannels q /\ sampwidth p = sampwidth q
  /\ framerate p = framerate q /\ nframes p = nframes q.
Proof.
  unfold first4_eqb, first4. intros H.
  apply andb_true_iff in H. destruct H as [H H4].
  apply andb_true_iff in H. destruct H as [H H3].
  apply andb_true_iff in H. destruct H as [H1 H2].
  apply Z.eqb_eq in H1, H2, H3, H4. auto.
Qed.

Lemma merged_length (d : disk) (params : wave_params) (l : list string) :
  Forall (whole_frames d) l ->
  Z.of_nat (length (merged_data d params l))
  = merged_frames d params l * (nchannels params * sampwidth params).
Proof.
  induction 1 as [|f l Hf _ IH]; [reflexivity|]. simpl.
  unfold accepted_frames.
  destruct (wave_open d f) as [e|p frames] eqn:Hopen; [exact IH|].
  destruct (first4_eqb (first4 p) (first4 params)) eqn:Heq; [|exact IH].
  apply first4_eqb_true in Heq. destruct Heq as (Hc & Hw & _ & _).
  rewrite length_app, Nat2Z.inj_add, IH, (Hf p frames Hopen), Hc, Hw.
  ring.
Qed.

(** X12 (the sizes in the header agree with the frame total): when the
    chunks hold whole frames (each [readframes] returns frame count
    times channels times sample width bytes), a completed run of
    [merge_audio_fixed] leaves a file whose data size is [total_frames]
    times the block alignment of its header, so the duration the tool
    prints is the duration of the file it wrote. *)
Theorem data_size_matches_total_frames (d : disk) (w : world)
        (wav_files : list string) (params : wave_params) :
  reference d wav_files params ->
  header_fits params ->
  data_fits (merged_data d params wav_files) ->
  Forall (whole_frames d) wav_files ->
  exists image total_frames,
    fst (merge_audio_fixed d w) = Completed total_frames
    /\ files (snd (merge_audio_fixed d w)) !! "镇国驸马爷-完整音频.wav"%string
       = Some (Raw image)
    /\ data_size (read_header image)
       = total_frames * block_align (read_header image)
    /\ Z.of_nat (length (sample_data image))
       = data_size (read_header image).
Proof.
  intros Href Hfit Hdata Hwhole.
  destruct (merge_fixed_report "镇国驸马爷-完整音频.wav" 100 d w wav_files params
              Href Hfit ltac:(lia) Hdata) as (printed & Hrun & _).
  fold merge_audio_fixed in Hrun. rewrite Hrun. cbn [fst snd files].
  exists (wav_image params (merged_data d params wav_files)),
         (merged_frames d params wav_files).
  split; [reflexivity|]. split; [apply lookup_insert_eq|].
  destruct (read_header_wav_image params _ Hfit Hdata) as [Hh Hs].
  rewrite Hh, Hs. cbn [data_size block_align].
  split; [now apply merged_length|reflexivity].
Qed.

(** *** The batches *)

Lemma batches_prefix_concat (l : list string) (bs k : nat) :
  concat (map (batch_files l bs) (seq 0 k)) = firstn (k * bs) l.
Proof.
  induction k as [|k IH]; [reflexivity|].
  rewrite seq_S, map_app, concat_app, IH. cbn [map concat Nat.add].
  rewrite app_nil_r. unfold batch_files. cbv zeta.
  rewrite batch_slice.
  replace (S k * bs)%nat with (k * bs + bs)%nat by lia.
  now rewrite firstn_add.
Qed.

Lemma batch_count_bound (n bs k : nat) :
  (0 < bs)%nat -> (k < batch_count n bs)%nat -> (k * bs < n)%nat.
Proof.
  unfold batch_count. intros Hbs Hk.
  destruct (Nat.lt_ge_cases (k * bs) n) as [H|H]; [exact H|].
  exfalso.
  assert (Hlt : ((n + bs - 1) / bs < S k)%nat).
  { apply Nat.Div0.div_lt_upper_bound. nia. }
  lia.
Qed.

Lemma length_batch_files (l : list string) (bs k : nat) :
  length (batch_files l bs k) = Nat.min bs (length l - k * bs).
Proof.
  unfold batch_files. cbv zeta. rewrite batch_slice.
  now rewrite length_firstn, length_skipn.
Qed.

(** X13 (the batches cut the catalogue without loss): for every positive
    batch size the batches of the copy loops, taken in order, are the
    sorted list of files again; no batch is empty and none has more than
    [batch_size] files, so the number of batches is zero only for an
    empty list. *)
Theorem batches_partition_the_catalogue (wav_files : list string)
        (batch_size : nat) :
  (0 < batch_size)%nat ->
  concat (batches wav_files batch_size) = wav_files
  /\ Forall (fun batch => (1 <= length batch <= batch_size)%nat)
            (batches wav_files batch_size)
  /\ length (batches wav_files batch_size)
     = batch_count (length wav_files) batch_size.
Proof.
  intros Hbs. unfold batches. split; [|split].
  - rewrite batches_prefix_concat.
    apply firstn_all2. now apply batch_count_covers.
  - apply List.Forall_forall. intros batch Hin.
    apply in_map_iff in Hin. destruct Hin as (k & <- & Hk).
    apply in_seq in Hk.
    pose proof (batch_count_bound (length wav_files) batch_size k Hbs
                  ltac:(lia)).
    rewrite length_batch_files. lia.
  - now rewrite length_map, length_seq.
Qed.

(** *** The three tools side by side *)


Lemma fast_chunks_data (d : disk) (l : list string)
      (st : list byte * list message) :
  fst (fold_left (fast_chunk d) l st) = fst st ++ readable_data d l.
Proof.
  revert st. induction l as [|f l IH]; intros [fw lg]; simpl.
  - now rewrite app_nil_r.
  - rewrite IH. unfold fast_chunk.
    destruct (wave_open d f) as [e|p frames]; cbn [fst];
      [reflexivity|now rewrite app_assoc].
Qed.

Lemma readable_data_accepted (d : disk) (params : wave_params)
      (l : list string) :
  none_rejected d params l -> readable_data d l = merged_data d params l.
Proof.
  induction 1 as [|f l Hf _ IH]; [reflexivity|]. simpl.
  unfold accepted_frames.
  destruct (wave_open d f) as [e|p frames] eqn:Hopen; [exact IH|].
  now rewrite (Hf p frames eq_refl), IH.
Qed.

(** X15 (merge_audio_fast checks no format): for every positive batch
    size the batch loop of [merge_audio_fast] hands the writer the
    frames of every chunk that opens, in catalogue order, whatever the
    parameters of the chunk; this is the data [merge_audio_fixed] writes
    exactly when no chunk that opens is rejected by its comparison with
    the reference. *)
Theorem fast_loop_copies_every_readable_chunk (d : disk)
        (wav_files : list string) (batch_size : nat)
        (st : list byte * list message) :
  (0 < batch_size)%nat ->
  fst (fast_batches d wav_files batch_size st)
  = fst st ++ readable_data d wav_files
  /\ forall params,
       none_rejected d params wav_files ->
       fst (fast_batches d wav_files batch_size st)
       = fst st ++ merged_data d params wav_files.
Proof.
  intros Hbs.
  assert (H : fst (fast_batches d wav_files batch_size st)
              = fst st ++ readable_data d wav_files).
  { unfold fast_batches. cbv zeta.
    pose proof (fast_batches_prefix d wav_files batch_size
                  (batch_count (length wav_files) batch_size)
                  (batch_count (length wav_files) batch_size) st) as Hp.
    cbv zeta in Hp. destruct Hp as [Hp _]. rewrite Hp.
    rewrite firstn_all2 by now apply batch_count_covers.
    apply fast_chunks_data. }
  split; [exact H|]. intros params Hnone.
  now rewrite H, (readable_data_accepted d params wav_files Hnone).
Qed.



(** *** Instances *)



Lemma completed_run_prints_one_line_per_skipped_chunk_witness :
  without_progress (stdout (snd (merge_audio_fixed mixed_chunks empty_world)))
  = [MsgFound 4; MsgParams 1 22050;
     MsgSkipMismatch "chunk_0001.wav";
     MsgSkipCorrupt "chunk_0002.wav" "file does not start with RIFF id";
     MsgDone "镇国驸马爷-完整音频.wav"; MsgDuration 4 22050].
Proof.
  exact (completed_run_prints_one_line_per_skipped_chunk
           mixed_chunks empty_world mixed_files (pcm_mono16 2)
           reference_mixed_chunks (header_fits_mono16 2)
           data_fits_mixed_chunks).
Defined.


Lemma merged_header_reads_back_witness :
  exists image,
    files (snd (merge_audio_fixed mixed_chunks empty_world))
      !! "镇国驸马爷-完整音频.wav"%string = Some (Raw image)
    /\ channels (read_header image) = 1
    /\ sample_rate (read_header image) = 22050
    /\ bits_per_sample (read_header image) = 16
    /\ data_size (read_header image) = 8
    /\ sample_data image = [x01; x02; x03; x04; x05; x06; x07; x08].
Proof.
  destruct (merged_header_reads_back mixed_chunks empty_world mixed_files
              (pcm_mono16 2) reference_mixed_chunks (header_fits_mono16 2)
              data_fits_mixed_chunks) as (image & Hfile & Hh & Hs).
  exists image. split; [exact Hfile|].
  rewrite Hh, Hs. repeat split.
Defined.

Lemma whole_frames_mixed_chunks : Forall (whole_frames mixed_chunks) mixed_files.
Proof.
  repeat constructor; intros p frames H; vm_compute in H;
    inversion H; reflexivity.
Defined.

Lemma data_size_matches_total_frames_witness :
  exists image total_frames,
    fst (merge_audio_fixed mixed_chunks empty_world) = Completed total_frames
    /\ files (snd (merge_audio_fixed mixed_chunks empty_world))
         !! "镇国驸马爷-完整音频.wav"%string = Some (Raw image)
    /\ data_size (read_header image)
       = total_frames * block_align (read_header image)
    /\ Z.of_nat (length (sample_data image)) = data_size (read_header image).
Proof.
  exact (data_size_matches_total_frames mixed_chunks empty_world mixed_files
           (pcm_mono16 2) reference_mixed_chunks (header_fits_mono16 2)
           data_fits_mixed_chunks whole_frames_mixed_chunks).
Defined.

Lemma batches_partition_the_catalogue_witness :
  batches mixed_files 3
  = [["temp_audio_chunks/chunk_0000.wav"; "temp_audio_chunks/chunk_0001.wav";
      "temp_audio_chunks/chunk_0002.wav"];
     ["temp_audio_chunks/chunk_0003.wav"]]%string
  /\ concat (batches mixed_files 3) = mixed_files
  /\ Forall (fun batch => (1 <= length batch <= 3)%nat) (batches mixed_files 3).
Proof.
  split; [reflexivity|].
  assert (H : (0 < 3)%nat) by lia.
  destruct (batches_partition_the_catalogue mixed_files 3 H) as (Hc & Hf & _).
  split; [exact Hc|exact Hf].
Defined.


(** On the disk of four chunks the fast loop also copies the eight bytes
    of the stereo chunk, which [merge_audio_fixed] leaves out. *)
Lemma fast_loop_copies_every_readable_chunk_witness :
  (0 < 50)%nat
  /\ fst (fast_batches mixed_chunks mixed_files 50 ([], []))
     = [x01; x02; x03; x04; x11; x12; x13; x14; x15; x16; x17; x18;
        x05; x06; x07; x08]
  /\ merged_data mixed_chunks (pcm_mono16 2) mixed_files
     = [x01; x02; x03; x04; x05; x06; x07; x08].
Proof.
  assert (H : (0 < 50)%nat) by lia.
  split; [exact H|]. split; [|reflexivity].
  exact (proj1 (fast_loop_copies_every_readable_chunk mixed_chunks
                  mixed_files 50 ([], []) H)).
Defined.


End LayoutFacts.
